(** * mill: structured, asynchronous logging

    A shallow embedding of the Go package [mill] (typed log data, the
    timestamp layout, the text and JSON codecs, context propagation and the
    asynchronous dispatch engine), followed by the properties that its
    specification states, each settled against the embedding. *)

From Stdlib Require Import ZArith Lia Ascii String.
From stdpp Require Import base numbers option list strings gmap sorting pretty.

Local Open Scope Z_scope.

(** * Part I: the embedding *)

(** ** Functions that can panic *)

Inductive result (A : Type) : Type :=
| Ok (a : A)
| Panic (msg : string).
Arguments Ok {A} a.
Arguments Panic {A} msg.

#[global] Instance result_ret : MRet result := λ A a, Ok a.
#[global] Instance result_bind : MBind result := λ A B k r,
  match r with
  | Ok a => k a
  | Panic m => Panic m
  end.

(** ** Machine integers and IEEE-754 doubles *)

Definition two64 : Z := 2 ^ 64.
Definition two63 : Z := 2 ^ 63.

Definition is_int64 (v : Z) : Prop := - two63 ≤ v < two63.
Definition is_uint64 (v : Z) : Prop := 0 ≤ v < two64.

(** The conversions [uint64(v)] of an [int64] and [int64(b)] of a [uint64]. *)
Definition uint64_of_int64 (v : Z) : Z := v mod two64.
Definition int64_of_uint64 (b : Z) : Z := if b <? two63 then b else b - two64.

(** A [float64] is its IEEE-754 binary64 datum: one sign bit, eleven bits of
    biased exponent and fifty-two bits of fraction.  A NaN keeps its payload. *)
Record float64 : Type := mkFloat64 {
  f_sign : bool;
  f_exponent : Z;
  f_fraction : Z;
}.

Definition is_float64 (f : float64) : Prop :=
  0 ≤ f_exponent f < 2 ^ 11 ∧ 0 ≤ f_fraction f < 2 ^ 52.

(** [math.Float64bits] and [math.Float64frombits]: the bit pattern of the datum,
    sign in bit 63, exponent in bits 62..52, fraction in bits 51..0. *)
Definition Float64bits (f : float64) : Z :=
  Z.lor (Z.shiftl (if f_sign f then 1 else 0) 63)
        (Z.lor (Z.shiftl (f_exponent f) 52) (f_fraction f)).

Definition Float64frombits (b : Z) : float64 :=
  {| f_sign := Z.testbit b 63;
     f_exponent := Z.land (Z.shiftr b 52) (Z.ones 11);
     f_fraction := Z.land b (Z.ones 52) |}.

(** ** Value kinds (data.go) *)

(** [type ValueType uint] with its constants. *)
Definition ValueType : Type := N.

Definition ValueTypeUnknown : ValueType := 0%N.
Definition ValueTypeString : ValueType := 1%N.
Definition ValueTypeInt64 : ValueType := 2%N.
Definition ValueTypeUint64 : ValueType := 3%N.
Definition ValueTypeFloat64 : ValueType := 4%N.
Definition ValueTypeAny : ValueType := 5%N.
Definition valueTypeMaxValue : ValueType := ValueTypeAny.

(** ** Timestamps and the layout [TimeFormat] (textcodec.go)

    A [time.Time] as [Format] sees it: the seconds and nanoseconds of the
    instant since the Unix epoch and the offset east of UTC, in seconds, that
    the value's location has at that instant. *)
Record Time : Type := mkTime {
  t_unix : Z;
  t_nsec : Z;
  t_offset : Z;
}.

(** The instant in nanoseconds since the epoch: the chronological order. *)
Definition instant (t : Time) : Z := t_unix t * 1000000000 + t_nsec t.

(** The proleptic Gregorian calendar.  [days_before_year y] counts the days
    from 0000-01-01 to the first of January of year [y]. *)
Definition is_leap (y : Z) : bool :=
  (y mod 4 =? 0) && (negb (y mod 100 =? 0) || (y mod 400 =? 0)).

Definition days_before_year (y : Z) : Z :=
  365 * y + (y + 3) / 4 - (y + 99) / 100 + (y + 399) / 400.

Definition year_of_days (d : Z) : Z :=
  let y := (400 * d) / 146097 in
  if d <? days_before_year y then y - 1
  else if days_before_year (y + 1) <=? d then y + 1
  else y.

(** Days of the year before the first of month [m] (1..13). *)
Definition days_before_month (leap : bool) (m : Z) : Z :=
  let l := if leap then 1 else 0 in
  if m <=? 1 then 0 else
  if m =? 2 then 31 else
  if m =? 3 then 59 + l else
  if m =? 4 then 90 + l else
  if m =? 5 then 120 + l else
  if m =? 6 then 151 + l else
  if m =? 7 then 181 + l else
  if m =? 8 then 212 + l else
  if m =? 9 then 243 + l else
  if m =? 10 then 273 + l else
  if m =? 11 then 304 + l else
  if m =? 12 then 334 + l else 365 + l.

Definition month_of_yday (leap : bool) (yd : Z) : Z :=
  if yd <? days_before_month leap 2 then 1 else
  if yd <? days_before_month leap 3 then 2 else
  if yd <? days_before_month leap 4 then 3 else
  if yd <? days_before_month leap 5 then 4 else
  if yd <? days_before_month leap 6 then 5 else
  if yd <? days_before_month leap 7 then 6 else
  if yd <? days_before_month leap 8 then 7 else
  if yd <? days_before_month leap 9 then 8 else
  if yd <? days_before_month leap 10 then 9 else
  if yd <? days_before_month leap 11 then 10 else
  if yd <? days_before_month leap 12 then 11 else 12.

(** Days from 0000-01-01 to the Unix epoch, 1970-01-01. *)
Definition unix_epoch_days : Z := 719528.

(** The fields of the wall clock reading in the value's location. *)
Record civil : Type := mkCivil {
  c_year : Z; c_month : Z; c_day : Z;
  c_hour : Z; c_minute : Z; c_second : Z;
}.

Definition local_seconds (t : Time) : Z := t_unix t + t_offset t.

Definition civil_of (t : Time) : civil :=
  let abs := local_seconds t in
  let d := abs / 86400 + unix_epoch_days in
  let s := abs mod 86400 in
  let y := year_of_days d in
  let yd := d - days_before_year y in
  let m := month_of_yday (is_leap y) yd in
  {| c_year := y; c_month := m;
     c_day := yd - days_before_month (is_leap y) m + 1;
     c_hour := s / 3600; c_minute := (s mod 3600) / 60; c_second := s mod 60 |}.

(** The byte ['\n']. *)
Definition newline : string := String (ascii_of_nat 10) EmptyString.

Definition digit (n : Z) : ascii :=
  ascii_of_N (48 + Z.to_N n).

(** The [w] decimal digits of [n], most significant first. *)
Fixpoint digits (w : nat) (n : Z) : string :=
  match w with
  | O => EmptyString
  | S w' => String (digit (n / 10 ^ Z.of_nat w')) (digits w' (n mod 10 ^ Z.of_nat w'))
  end.

(** [appendInt] of package time: a sign for a negative number, then the
    decimal digits zero-padded to at least [w] places. *)
Definition padded (w : nat) (u : Z) : string :=
  if u <? 10 ^ Z.of_nat w then digits w u else pretty u.

Definition appendInt (x : Z) (w : nat) : string :=
  if x <? 0 then "-" +:+ padded w (- x) else padded w x.

(** The pieces of a layout that [TimeFormat] uses. *)
Inductive chunk : Type :=
| stdLongYear | stdZeroMonth | stdZeroDay
| stdHour | stdZeroMinute | stdZeroSecond
| stdFracSecond0 (n : nat)
| stdNumTZ
| literal (s : string).

(** ["2006-01-02 15:04:05.000000-0700"] *)
Definition TimeFormat : list chunk :=
  [ stdLongYear; literal "-"; stdZeroMonth; literal "-"; stdZeroDay; literal " ";
    stdHour; literal ":"; stdZeroMinute; literal ":"; stdZeroSecond;
    stdFracSecond0 6; stdNumTZ ].

Definition format_chunk (t : Time) (c : chunk) : string :=
  let cv := civil_of t in
  match c with
  | stdLongYear => appendInt (c_year cv) 4
  | stdZeroMonth => appendInt (c_month cv) 2
  | stdZeroDay => appendInt (c_day cv) 2
  | stdHour => appendInt (c_hour cv) 2
  | stdZeroMinute => appendInt (c_minute cv) 2
  | stdZeroSecond => appendInt (c_second cv) 2
  | stdFracSecond0 n =>
      (* the first [n] of the nine digits of the nanosecond, after a point *)
      "." +:+ digits n (t_nsec t / 10 ^ (9 - Z.of_nat n))
  | stdNumTZ =>
      (* the offset in minutes, truncated as Go's division does *)
      let zone := Z.quot (t_offset t) 60 in
      let sign := if zone <? 0 then "-" else "+" in
      let zone := Z.abs zone in
      sign +:+ appendInt (Z.quot zone 60) 2 +:+ appendInt (Z.rem zone 60) 2
  | literal s => s
  end.

Definition Format (t : Time) (layout : list chunk) : string :=
  foldr (λ c acc, format_chunk t c +:+ acc) "" layout.

(** [bytes.Compare]: the byte-wise lexicographic comparison. *)
Definition bytes_Compare (a b : string) : comparison := String.compare a b.

(** The range of [TimeFormat]'s fixed-width year: 0000 to 9999, local time. *)
Definition in_layout_range (t : Time) : Prop :=
  0 ≤ t_nsec t < 1000000000 ∧
  days_before_year 0 ≤ local_seconds t / 86400 + unix_epoch_days < days_before_year 10000.

(** The layout orders two timestamps as time does when the later one does
    not render as the smaller string. *)
Definition layout_follows_time (a b : Time) : Prop :=
  instant a ≤ instant b →
  bytes_Compare (Format a TimeFormat) (Format b TimeFormat) ≠ Gt.

(** The instant truncated to the microsecond, which is what the layout shows. *)
Definition micros (t : Time) : Z := t_unix t * 1000000 + t_nsec t / 1000.

(** Comparison by a first key, then by a second. *)
Definition lexc (c1 c2 : comparison) : comparison :=
  match c1 with Eq => c2 | _ => c1 end.

(** ** Tags (mill.go) *)

Record KV : Type := mkKV { Key : string; Value : string }.

Section Mill.

(** The values an [interface{}] can box; [None] is the nil interface. *)
Variable iface : Type.

(** [%v] of a [ValueType]: the [String] method that [stringer] generates. *)
Variable ValueType_String : ValueType → string.

(** [strconv.AppendFloat(_, f, 'g', -1, 64)]. *)
Variable formatFloat : float64 → string.

(** [fmt.Fprintf(buf, "%v", v)] of a boxed value. *)
Variable fmt_v : option iface → string.

(** The [fmt.Stringer] capability of a boxed value: its [String()], if any. *)
Variable as_Stringer : iface → option string.

(** The implementations of the interface [Codec] that a context can carry,
    with the nil value of the interface. *)
Variable codec : Type.
Variable nil_codec : codec.

(** What the runtime's [growslice] adds beyond the one slot that is needed
    when a slice of capacity [c] is full. *)
Variable slack : nat → nat.

(** Whether the package is built with the tag [release]. *)
Variable release : bool.

(** The UTC offset, in seconds, that the process's local time zone has at a
    Unix time. *)
Variable zone : Z → Z.

(** ** Typed values (data.go) *)

Record Data : Type := mkData {
  d_name : string;
  d_valueType : ValueType;
  d_string : string;
  d_numBits : Z;
  d_any : option iface;
}.

(** The zero value [Data{}], which the package documents as invalid. *)
Definition Data_zero : Data :=
  {| d_name := ""; d_valueType := ValueTypeUnknown; d_string := "";
     d_numBits := 0; d_any := None |}.

Definition String_ (name value : string) : Data :=
  {| d_name := name; d_valueType := ValueTypeString; d_string := value;
     d_numBits := 0; d_any := None |}.

Definition Int64 (name : string) (value : Z) : Data :=
  {| d_name := name; d_valueType := ValueTypeInt64; d_string := "";
     d_numBits := uint64_of_int64 value; d_any := None |}.

Definition Uint64 (name : string) (value : Z) : Data :=
  {| d_name := name; d_valueType := ValueTypeUint64; d_string := "";
     d_numBits := value; d_any := None |}.

Definition Float64 (name : string) (value : float64) : Data :=
  {| d_name := name; d_valueType := ValueTypeFloat64; d_string := "";
     d_numBits := Float64bits value; d_any := None |}.

Definition Any (name : string) (value : option iface) : Data :=
  {| d_name := name; d_valueType := ValueTypeAny; d_string := "";
     d_numBits := 0; d_any := value |}.

Definition Data_Name (d : Data) : string := d_name d.
Definition Data_Type (d : Data) : ValueType := d_valueType d.

(** [fmt.Sprintf("value type mismatch: %v != %v", have, want)] *)
Definition mismatch_message (have want : ValueType) : string :=
  "value type mismatch: " +:+ ValueType_String have +:+ " != " +:+ ValueType_String want.

Definition checkType (have want : ValueType) : result unit :=
  if decide (have = want) then Ok tt else Panic (mismatch_message have want).

Definition Data_String (d : Data) : result string :=
  _ ← checkType (d_valueType d) ValueTypeString; Ok (d_string d).

Definition Data_Int64 (d : Data) : result Z :=
  _ ← checkType (d_valueType d) ValueTypeInt64; Ok (int64_of_uint64 (d_numBits d)).

Definition Data_Uint64 (d : Data) : result Z :=
  _ ← checkType (d_valueType d) ValueTypeUint64; Ok (d_numBits d).

Definition Data_Float64 (d : Data) : result float64 :=
  _ ← checkType (d_valueType d) ValueTypeFloat64; Ok (Float64frombits (d_numBits d)).

(** What [Value] boxes in the empty interface it returns. *)
Inductive boxed : Type :=
| BString (s : string)
| BInt64 (v : Z)
| BUint64 (v : Z)
| BFloat64 (f : float64)
| BAny (v : option iface).

Definition Data_Value (d : Data) : result boxed :=
  if decide (d_valueType d = ValueTypeString) then Ok (BString (d_string d))
  else if decide (d_valueType d = ValueTypeInt64) then Ok (BInt64 (int64_of_uint64 (d_numBits d)))
  else if decide (d_valueType d = ValueTypeUint64) then Ok (BUint64 (d_numBits d))
  else if decide (d_valueType d = ValueTypeFloat64) then Ok (BFloat64 (Float64frombits (d_numBits d)))
  else if decide (d_valueType d = ValueTypeAny) then
    match d_any d with
    | Some v =>
        match as_Stringer v with
        | Some s => Ok (BString s)
        | None => Ok (BAny (Some v))
        end
    | None => Ok (BAny None)
    end
  else Panic "no data".

(** ** The text codec's encoding (textcodec.go) *)

(** The loop over the tags, [i] counting from the index of the first of
    [tags] and [n] the length of the whole list. *)
Fixpoint write_tags (buf : string) (i n : nat) (tags : list KV) : string :=
  match tags with
  | [] => buf
  | tag :: rest =>
      let buf := buf +:+ Key tag in
      let buf := if decide (Value tag = "") then buf else buf +:+ "=" +:+ Value tag in
      let buf := if decide (i = (n - 1)%nat) then buf else buf +:+ ", " in
      write_tags buf (S i) n rest
  end.

(** One turn of the loop over the data: [continue] on a kind that is unknown
    or out of range, else the fragment [", name=value"]. *)
Definition write_datum (buf : string) (d : Data) : string :=
  let ty := Data_Type d in
  if (ty =? ValueTypeUnknown)%N || (valueTypeMaxValue <? ty)%N then buf
  else
    let buf := buf +:+ ", " +:+ d_name d +:+ "=" in
    if (Data_Type d =? ValueTypeString)%N then buf +:+ d_string d
    else if (Data_Type d =? ValueTypeInt64)%N then buf +:+ pretty (int64_of_uint64 (d_numBits d))
    else if (Data_Type d =? ValueTypeUint64)%N then buf +:+ pretty (d_numBits d)
    else if (Data_Type d =? ValueTypeFloat64)%N then buf +:+ formatFloat (Float64frombits (d_numBits d))
    else if (Data_Type d =? ValueTypeAny)%N then buf +:+ fmt_v (d_any d)
    else buf.

(** The bytes that [textCodec.EncodeLogEntry] has in its buffer when it calls
    [encodeDone] and that it writes once [writeReady] is closed. *)
Definition text_encode (t : Time) (tags : list KV) (message : string) (data : list Data) : string :=
  let buf := Format t TimeFormat in
  let buf := buf +:+ " [" in
  let buf := write_tags buf 0 (length tags) tags in
  let buf := buf +:+ "] " in
  let buf := buf +:+ message in
  let buf := foldl write_datum buf data in
  buf +:+ newline.

(** ** The JSON codec's encoding (jsoncodec.go) *)

Record jsonSchema : Type := mkJsonSchema {
  js_Date : string;
  js_DateUnix : Z;
  js_NanoSeconds : Z;
  js_Tags : list string;
  js_Message : string;
  js_Data : gmap string boxed;
}.

(** [json.Marshal] of a [jsonSchema]: the bytes, or [None] for an error. *)
Variable json_Marshal : jsonSchema → option string.

Definition mapKV (tags : list KV) : list string :=
  (λ kv, if decide (Value kv = "") then Key kv else Key kv +:+ "=" +:+ Value kv) <$> tags.

(** The loop [r[data[i].Name()] = data[i].Value()], which panics with the
    first [Value] that does. *)
Fixpoint mapData_from (r : gmap string boxed) (data : list Data) : result (gmap string boxed) :=
  match data with
  | [] => Ok r
  | d :: rest => v ← Data_Value d; mapData_from (<[Data_Name d := v]> r) rest
  end.

Definition mapData (data : list Data) : result (gmap string boxed) := mapData_from ∅ data.

(** The first statement of [jsonCodec.EncodeLogEntry]: the pair [(b, err)] of
    [json.Marshal], [None] standing for a non-nil [err]. *)
Definition json_encode (t : Time) (tags : list KV) (message : string) (data : list Data)
  : result (option string) :=
  m ← mapData data;
  Ok (json_Marshal {| js_Date := Format t TimeFormat;
                      js_DateUnix := t_unix t;
                      js_NanoSeconds := t_nsec t;
                      js_Tags := mapKV tags;
                      js_Message := message;
                      js_Data := m |}).

(** ** Context propagation (mill.go, debug.go, release.go)

    A Go slice is a window [(pointer, len, cap)] on a backing array, and
    [append] writes in place when [len < cap].  The arrays live in a store,
    so that contexts derived from one parent share what the Go values share. *)

Record slice : Type := mkSlice { s_ptr : nat; s_len : nat; s_cap : nat }.

Definition slice_view {A} (h : list (list A)) (s : option slice) : list A :=
  match s with
  | None => []
  | Some s => take (s_len s) (default [] (h !! s_ptr s))
  end.

(** [append(s, x)]: in place when there is room, else on a new array of
    capacity [cap + 1 + slack cap], whose free slots hold the zero value. *)
Definition go_append {A} (zero : A) (h : list (list A)) (s : option slice) (x : A)
  : list (list A) * slice :=
  let old := default (mkSlice 0 0 0) s in
  if decide (s_len old < s_cap old)%nat then
    (alter (λ arr, <[s_len old := x]> arr) (s_ptr old) h,
     mkSlice (s_ptr old) (S (s_len old)) (s_cap old))
  else
    let newcap := (s_cap old + 1 + slack (s_cap old))%nat in
    (h ++ [slice_view h s ++ x :: replicate (newcap - S (s_len old)) zero],
     mkSlice (length h) (S (s_len old)) newcap).

Definition slice_wf {A} (h : list (list A)) (s : option slice) : Prop :=
  match s with
  | None => True
  | Some s => ∃ arr, h !! s_ptr s = Some arr ∧ length arr = s_cap s ∧ (s_len s ≤ s_cap s)%nat
  end.

(** What [ctx.Value] finds under the package's three keys. *)
Record Context : Type := mkContext {
  v_loggers : option slice;    (* loggerKey{} *)
  v_tags : option slice;       (* contextTags{} *)
  v_debug : option nat;        (* debugKey{}, a pointer to a debugValue *)
}.

Definition Background : Context :=
  {| v_loggers := None; v_tags := None; v_debug := None |}.

Record Store : Type := mkStore {
  codec_arrays : list (list codec);
  tag_arrays : list (list KV);
  debug_cells : list bool;
}.

Definition withDebuggingInitialized (st : Store) (ctx : Context) : Store * Context :=
  if release then (st, ctx)
  else
    match v_debug ctx with
    | Some _ => (st, ctx)
    | None =>
        ({| codec_arrays := codec_arrays st; tag_arrays := tag_arrays st;
            debug_cells := debug_cells st ++ [false] |},
         {| v_loggers := v_loggers ctx; v_tags := v_tags ctx;
            v_debug := Some (length (debug_cells st)) |})
    end.

Definition WithLogger (st : Store) (ctx : Context) (c : codec) : Store * Context :=
  let '(st, ctx) := withDebuggingInitialized st ctx in
  let '(h, s) := go_append nil_codec (codec_arrays st) (v_loggers ctx) c in
  ({| codec_arrays := h; tag_arrays := tag_arrays st; debug_cells := debug_cells st |},
   {| v_loggers := Some s; v_tags := v_tags ctx; v_debug := v_debug ctx |}).

Definition with_tag (st : Store) (ctx : Context) (kv : KV) : Store * Context :=
  let '(h, s) := go_append (mkKV "" "") (tag_arrays st) (v_tags ctx) kv in
  ({| codec_arrays := codec_arrays st; tag_arrays := h; debug_cells := debug_cells st |},
   {| v_loggers := v_loggers ctx; v_tags := Some s; v_debug := v_debug ctx |}).

Definition WithLogTag (st : Store) (ctx : Context) (tag : string) : Store * Context :=
  with_tag st ctx {| Key := tag; Value := "" |}.

Definition WithLogTagPair (st : Store) (ctx : Context) (k v : string) : Store * Context :=
  with_tag st ctx {| Key := k; Value := v |}.

(** The lists that [Log] reads from a context. *)
Definition loggers_of (st : Store) (ctx : Context) : list codec :=
  slice_view (codec_arrays st) (v_loggers ctx).

Definition tags_of (st : Store) (ctx : Context) : list KV :=
  slice_view (tag_arrays st) (v_tags ctx).

Definition ctx_wf (st : Store) (ctx : Context) : Prop :=
  slice_wf (codec_arrays st) (v_loggers ctx) ∧ slice_wf (tag_arrays st) (v_tags ctx).

(** A sequence of attach operations.  Each takes its context from the pool
    of the contexts made so far, by index, and adds its result to the pool. *)
Inductive attach : Type :=
| AttachLogger (src : nat) (c : codec)
| AttachTag (src : nat) (tag : string)
| AttachTagPair (src : nat) (k v : string).

Definition attach_src (a : attach) : nat :=
  match a with
  | AttachLogger src _ | AttachTag src _ | AttachTagPair src _ _ => src
  end.

Definition attach_to (st : Store) (ctx : Context) (a : attach) : Store * Context :=
  match a with
  | AttachLogger _ c => WithLogger st ctx c
  | AttachTag _ tag => WithLogTag st ctx tag
  | AttachTagPair _ k v => WithLogTagPair st ctx k v
  end.

Definition run_attach (sp : Store * list Context) (a : attach) : Store * list Context :=
  match sp.2 !! attach_src a with
  | None => sp
  | Some ctx => let '(st', ctx') := attach_to sp.1 ctx a in (st', sp.2 ++ [ctx'])
  end.

Definition run_attaches (st : Store) (pool : list Context) (script : list attach)
  : Store * list Context :=
  foldl run_attach (st, pool) script.

(** What an attach operation is to do to the two lists. *)
Definition attached_loggers (a : attach) (l : list codec) : list codec :=
  match a with
  | AttachLogger _ c => l ++ [c]
  | _ => l
  end.

Definition attached_tags (a : attach) (l : list KV) : list KV :=
  match a with
  | AttachLogger _ _ => l
  | AttachTag _ tag => l ++ [{| Key := tag; Value := "" |}]
  | AttachTagPair _ k v => l ++ [{| Key := k; Value := v |}]
  end.

(** ** The dispatch engine (mill.go)

    [Log], [Sync], the goroutines that [Log] starts and the two codecs of the
    package run as threads over one shared state; a step is one statement of
    one thread, and the scheduler picks the thread. *)

(** The codecs of the package, each on the writer [w] it was made for. *)
Inductive Codec : Type :=
| TextCodec (w : nat)
| JSONCodec (w : nat).

Definition codec_writer (c : Codec) : nat :=
  match c with TextCodec w | JSONCodec w => w end.

(** What [Log] finds in its context under [loggerKey{}] and [contextTags{}]. *)
Record LogCtx : Type := mkLogCtx {
  lc_loggers : option (list Codec);
  lc_tags : option (list KV);
}.

(** What a caller does, one call after the other. *)
Inductive cmd : Type :=
| CLog (ctx : LogCtx) (message : string) (data : list Data)
| CSync.

(** The variables of one call of [Log] that its goroutines share: the
    arguments, [writeReady], [nextWriteReady], [t] and the two wait groups. *)
Record frame : Type := mkFrame {
  fr_loggers : list Codec;
  fr_tags : list KV;
  fr_message : string;
  fr_data : list Data;
  fr_writeReady : option nat;
  fr_nextWriteReady : option nat;
  fr_t : option Time;
  fr_writesDone : nat;
  fr_encodesDone : nat;
}.

(** What a writer has received: the bytes of one [Write], with where they
    come from: the frame of the call, the channel [writeReady] that the
    goroutine waited for, and the timestamp [t]. *)
Record entry : Type := mkEntry {
  en_call : nat;
  en_gate : nat;
  en_time : Time;
  en_bytes : string;
}.

(** Where [Log] stands, past the test for attached loggers. *)
Inductive log_pc : Type :=
| PLock                      (* globalLogSyncer.mu.Lock() *)
| PReadToken                 (* writeReady := globalLogSyncer.writeReady *)
| PMake                      (* nextWriteReady := make(chan struct{}) *)
| PStore                     (* globalLogSyncer.writeReady = nextWriteReady *)
| PNow                       (* t := time.Now() *)
| PUnlock                    (* globalLogSyncer.mu.Unlock() *)
| PAdd                       (* writesDone.Add(len(loggers)); encodesDone.Add(len(loggers)) *)
| PSpawn (todo : list Codec) (* the loop of go statements, then the watcher's *)
| PWait.                     (* encodesDone.Wait() *)

(** Where the goroutine of one codec stands, in [EncodeLogEntry] and after. *)
Inductive codec_pc : Type :=
| CEncode                          (* the encoding, which reads the arguments *)
| CEncodeDone (b : option string)  (* encodeDone(); [None] when err != nil *)
| CWaitReady (b : string)          (* <-writeReady *)
| CWrite (b : string)              (* the write to the codec's writer *)
| CWritesDone (wrote : bool)       (* writesDone.Done() *)
| CFinished (wrote : bool).

(** The goroutine that closes [nextWriteReady]. *)
Inductive watch_pc : Type :=
| WWait                      (* writesDone.Wait() *)
| WClose                     (* close(nextWriteReady) *)
| WFinished.

Inductive sync_pc : Type :=
| SLock                      (* globalLogSyncer.mu.Lock() *)
| SRead                      (* writesDone := globalLogSyncer.writeReady *)
| SUnlock (tok : nat)        (* globalLogSyncer.mu.Unlock() *)
| SWait (tok : nat).         (* <-writesDone *)

Inductive thread : Type :=
| TCaller (script : list cmd)
| TLog (fid : nat) (pc : log_pc) (rest : list cmd)
| TSync (pc : sync_pc) (rest : list cmd)
| TCodec (fid : nat) (c : Codec) (pc : codec_pc)
| TWatcher (fid : nat) (pc : watch_pc).

(** The state of the process: [globalLogSyncer], the channels made so far
    ([true] for a closed one), the wall clock in nanoseconds, the frames of
    the calls of [Log], what each writer has received, and the threads. *)
Record state : Type := mkState {
  st_mu : bool;
  st_writeReady : nat;
  st_chans : list bool;
  st_clock : Z;
  st_frames : list frame;
  st_sinks : gmap nat (list entry);
  st_threads : list thread;
  st_panicked : bool;
}.

(** [init()]: one channel, closed, is the first [writeReady]. *)
Definition init (now : Z) (scripts : list (list cmd)) : state :=
  {| st_mu := false; st_writeReady := 0; st_chans := [true]; st_clock := now;
     st_frames := []; st_sinks := ∅; st_threads := TCaller <$> scripts;
     st_panicked := false |}.

Definition set_mu (b : bool) (s : state) : state :=
  {| st_mu := b; st_writeReady := st_writeReady s; st_chans := st_chans s;
     st_clock := st_clock s; st_frames := st_frames s; st_sinks := st_sinks s;
     st_threads := st_threads s; st_panicked := st_panicked s |}.

Definition set_writeReady (ch : nat) (s : state) : state :=
  {| st_mu := st_mu s; st_writeReady := ch; st_chans := st_chans s;
     st_clock := st_clock s; st_frames := st_frames s; st_sinks := st_sinks s;
     st_threads := st_threads s; st_panicked := st_panicked s |}.

Definition set_chans (chans : list bool) (s : state) : state :=
  {| st_mu := st_mu s; st_writeReady := st_writeReady s; st_chans := chans;
     st_clock := st_clock s; st_frames := st_frames s; st_sinks := st_sinks s;
     st_threads := st_threads s; st_panicked := st_panicked s |}.

Definition set_clock (now : Z) (s : state) : state :=
  {| st_mu := st_mu s; st_writeReady := st_writeReady s; st_chans := st_chans s;
     st_clock := now; st_frames := st_frames s; st_sinks := st_sinks s;
     st_threads := st_threads s; st_panicked := st_panicked s |}.

Definition set_frames (frames : list frame) (s : state) : state :=
  {| st_mu := st_mu s; st_writeReady := st_writeReady s; st_chans := st_chans s;
     st_clock := st_clock s; st_frames := frames; st_sinks := st_sinks s;
     st_threads := st_threads s; st_panicked := st_panicked s |}.

Definition set_sinks (sinks : gmap nat (list entry)) (s : state) : state :=
  {| st_mu := st_mu s; st_writeReady := st_writeReady s; st_chans := st_chans s;
     st_clock := st_clock s; st_frames := st_frames s; st_sinks := sinks;
     st_threads := st_threads s; st_panicked := st_panicked s |}.

Definition set_threads (threads : list thread) (s : state) : state :=
  {| st_mu := st_mu s; st_writeReady := st_writeReady s; st_chans := st_chans s;
     st_clock := st_clock s; st_frames := st_frames s; st_sinks := st_sinks s;
     st_threads := threads; st_panicked := st_panicked s |}.

(** A panic that nothing recovers ends the process. *)
Definition panic (s : state) : state :=
  {| st_mu := st_mu s; st_writeReady := st_writeReady s; st_chans := st_chans s;
     st_clock := st_clock s; st_frames := st_frames s; st_sinks := st_sinks s;
     st_threads := st_threads s; st_panicked := true |}.

Definition set_thread (i : nat) (th : thread) (s : state) : state :=
  set_threads (<[i := th]> (st_threads s)) s.

(** A go statement. *)
Definition spawn (th : thread) (s : state) : state :=
  set_threads (st_threads s ++ [th]) s.

Definition set_frame (fid : nat) (f : frame) (s : state) : state :=
  set_frames (<[fid := f]> (st_frames s)) s.

Definition sink (s : state) (w : nat) : list entry := default [] (st_sinks s !! w).

Definition write_sink (w : nat) (e : entry) (s : state) : state :=
  set_sinks (<[w := sink s w ++ [e]]> (st_sinks s)) s.

Definition with_writeReady (ch : nat) (f : frame) : frame :=
  {| fr_loggers := fr_loggers f; fr_tags := fr_tags f; fr_message := fr_message f;
     fr_data := fr_data f; fr_writeReady := Some ch;
     fr_nextWriteReady := fr_nextWriteReady f; fr_t := fr_t f;
     fr_writesDone := fr_writesDone f; fr_encodesDone := fr_encodesDone f |}.

Definition with_nextWriteReady (ch : nat) (f : frame) : frame :=
  {| fr_loggers := fr_loggers f; fr_tags := fr_tags f; fr_message := fr_message f;
     fr_data := fr_data f; fr_writeReady := fr_writeReady f;
     fr_nextWriteReady := Some ch; fr_t := fr_t f;
     fr_writesDone := fr_writesDone f; fr_encodesDone := fr_encodesDone f |}.

Definition with_t (t : Time) (f : frame) : frame :=
  {| fr_loggers := fr_loggers f; fr_tags := fr_tags f; fr_message := fr_message f;
     fr_data := fr_data f; fr_writeReady := fr_writeReady f;
     fr_nextWriteReady := fr_nextWriteReady f; fr_t := Some t;
     fr_writesDone := fr_writesDone f; fr_encodesDone := fr_encodesDone f |}.

Definition with_writesDone (n : nat) (f : frame) : frame :=
  {| fr_loggers := fr_loggers f; fr_tags := fr_tags f; fr_message := fr_message f;
     fr_data := fr_data f; fr_writeReady := fr_writeReady f;
     fr_nextWriteReady := fr_nextWriteReady f; fr_t := fr_t f;
     fr_writesDone := n; fr_encodesDone := fr_encodesDone f |}.

Definition with_encodesDone (n : nat) (f : frame) : frame :=
  {| fr_loggers := fr_loggers f; fr_tags := fr_tags f; fr_message := fr_message f;
     fr_data := fr_data f; fr_writeReady := fr_writeReady f;
     fr_nextWriteReady := fr_nextWriteReady f; fr_t := fr_t f;
     fr_writesDone := fr_writesDone f; fr_encodesDone := n |}.

(** [time.Now()], in the local time zone. *)
Definition Now (s : state) : Time :=
  {| t_unix := st_clock s / 1000000000;
     t_nsec := st_clock s mod 1000000000;
     t_offset := zone (st_clock s / 1000000000) |}.

(** A caller between two calls.  [Log] returns at once on a context without
    loggers; else its variables get their frame. *)
Definition step_caller (i : nat) (script : list cmd) (s : state) : option state :=
  match script with
  | [] => None
  | CLog ctx message data :: rest =>
      match lc_loggers ctx with
      | None => Some (set_thread i (TCaller rest) s)
      | Some loggers =>
          let f := {| fr_loggers := loggers; fr_tags := default [] (lc_tags ctx);
                      fr_message := message; fr_data := data;
                      fr_writeReady := None; fr_nextWriteReady := None; fr_t := None;
                      fr_writesDone := 0; fr_encodesDone := 0 |} in
          Some (set_thread i (TLog (length (st_frames s)) PLock rest)
                  (set_frames (st_frames s ++ [f]) s))
      end
  | CSync :: rest => Some (set_thread i (TSync SLock rest) s)
  end.

Definition step_log (i fid : nat) (pc : log_pc) (rest : list cmd) (s : state) : option state :=
  f ← st_frames s !! fid;
  match pc with
  | PLock =>
      if st_mu s then None
      else Some (set_thread i (TLog fid PReadToken rest) (set_mu true s))
  | PReadToken =>
      Some (set_thread i (TLog fid PMake rest)
              (set_frame fid (with_writeReady (st_writeReady s) f) s))
  | PMake =>
      Some (set_thread i (TLog fid PStore rest)
              (set_frame fid (with_nextWriteReady (length (st_chans s)) f)
                 (set_chans (st_chans s ++ [false]) s)))
  | PStore =>
      ch ← fr_nextWriteReady f;
      Some (set_thread i (TLog fid PNow rest) (set_writeReady ch s))
  | PNow =>
      Some (set_thread i (TLog fid PUnlock rest) (set_frame fid (with_t (Now s) f) s))
  | PUnlock =>
      Some (set_thread i (TLog fid PAdd rest) (set_mu false s))
  | PAdd =>
      let n := length (fr_loggers f) in
      Some (set_thread i (TLog fid (PSpawn (fr_loggers f)) rest)
              (set_frame fid (with_encodesDone (fr_encodesDone f + n)
                                (with_writesDone (fr_writesDone f + n) f)) s))
  | PSpawn (c :: todo) =>
      Some (set_thread i (TLog fid (PSpawn todo) rest) (spawn (TCodec fid c CEncode) s))
  | PSpawn [] =>
      Some (set_thread i (TLog fid PWait rest) (spawn (TWatcher fid WWait) s))
  | PWait =>
      if decide (fr_encodesDone f = 0)%nat then Some (set_thread i (TCaller rest) s)
      else None
  end.

(** The first part of [EncodeLogEntry], up to the call of [encodeDone]. *)
Definition encode (c : Codec) (f : frame) (t : Time) : result (option string) :=
  match c with
  | TextCodec _ => Ok (Some (text_encode t (fr_tags f) (fr_message f) (fr_data f)))
  | JSONCodec _ => json_encode t (fr_tags f) (fr_message f) (fr_data f)
  end.

Definition step_codec (i fid : nat) (c : Codec) (pc : codec_pc) (s : state) : option state :=
  f ← st_frames s !! fid;
  match pc with
  | CEncode =>
      t ← fr_t f;
      match encode c f t with
      | Panic _ => Some (panic s)
      | Ok b => Some (set_thread i (TCodec fid c (CEncodeDone b)) s)
      end
  | CEncodeDone b =>
      match fr_encodesDone f with
      | O => Some (panic s)        (* negative WaitGroup counter *)
      | S n =>
          let s := set_frame fid (with_encodesDone n f) s in
          match b with
          | Some b => Some (set_thread i (TCodec fid c (CWaitReady b)) s)
          | None => Some (set_thread i (TCodec fid c (CWritesDone false)) s)
          end
      end
  | CWaitReady b =>
      ch ← fr_writeReady f;
      match st_chans s !! ch with
      | Some true => Some (set_thread i (TCodec fid c (CWrite b)) s)
      | _ => None
      end
  | CWrite b =>
      ch ← fr_writeReady f;
      t ← fr_t f;
      Some (set_thread i (TCodec fid c (CWritesDone true))
              (write_sink (codec_writer c)
                 {| en_call := fid; en_gate := ch; en_time := t; en_bytes := b |} s))
  | CWritesDone wrote =>
      match fr_writesDone f with
      | O => Some (panic s)        (* negative WaitGroup counter *)
      | S n =>
          Some (set_thread i (TCodec fid c (CFinished wrote))
                  (set_frame fid (with_writesDone n f) s))
      end
  | CFinished _ => None
  end.

Definition step_watcher (i fid : nat) (pc : watch_pc) (s : state) : option state :=
  f ← st_frames s !! fid;
  match pc with
  | WWait =>
      if decide (fr_writesDone f = 0)%nat then Some (set_thread i (TWatcher fid WClose) s)
      else None
  | WClose =>
      ch ← fr_nextWriteReady f;
      match st_chans s !! ch with
      | Some false =>
          Some (set_thread i (TWatcher fid WFinished) (set_chans (<[ch := true]> (st_chans s)) s))
      | Some true => Some (panic s)  (* close of closed channel *)
      | None => None
      end
  | WFinished => None
  end.

Definition step_sync (i : nat) (pc : sync_pc) (rest : list cmd) (s : state) : option state :=
  match pc with
  | SLock =>
      if st_mu s then None
      else Some (set_thread i (TSync SRead rest) (set_mu true s))
  | SRead => Some (set_thread i (TSync (SUnlock (st_writeReady s)) rest) s)
  | SUnlock tok => Some (set_thread i (TSync (SWait tok) rest) (set_mu false s))
  | SWait tok =>
      match st_chans s !! tok with
      | Some true => Some (set_thread i (TCaller rest) s)
      | _ => None
      end
  end.

(** One step of thread [i]; [None] when the thread is blocked or has ended,
    or the process has. *)
Definition exec (i : nat) (s : state) : option state :=
  if st_panicked s then None
  else
    th ← st_threads s !! i;
    match th with
    | TCaller script => step_caller i script s
    | TLog fid pc rest => step_log i fid pc rest s
    | TSync pc rest => step_sync i pc rest s
    | TCodec fid c pc => step_codec i fid c pc s
    | TWatcher fid pc => step_watcher i fid pc s
    end.

(** What happens next: a thread moves, or the wall clock does, forward. *)
Inductive action : Type :=
| Run (i : nat)
| Tick (d : nat).

Definition act (a : action) (s : state) : option state :=
  match a with
  | Run i => exec i s
  | Tick d => Some (set_clock (st_clock s + Z.of_nat d) s)
  end.

Fixpoint run (s : state) (schedule : list action) : option state :=
  match schedule with
  | [] => Some s
  | a :: schedule => s' ← act a s; run s' schedule
  end.


(** ** Debugging (debug.go, release.go, mill.go)

    A [debugValue] is a cell of the store; a context that has one holds a
    pointer to it under [debugKey{}].  The mutex of a [debugValue] makes a
    read or a write atomic, which a step is.  [globalDebugging] is the flag
    that the functions below thread. *)

Definition debugValue_isEnabled (st : Store) (p : nat) : bool :=
  default false (debug_cells st !! p).

Definition debugValue_setEnabled (st : Store) (p : nat) (enabled : bool) : Store :=
  {| codec_arrays := codec_arrays st; tag_arrays := tag_arrays st;
     debug_cells := <[p := enabled]> (debug_cells st) |}.

Definition setGlobalDebuggingEnabled (globalDebugging enabled : bool) : bool :=
  if release then globalDebugging else enabled.

Definition setDebuggingEnabled (st : Store) (ctx : Context) (enabled : bool) : Store :=
  if release then st
  else
    match v_debug ctx with
    | Some p => debugValue_setEnabled st p enabled
    | None => st
    end.

Definition debuggingEnabled (st : Store) (ctx : Context) : bool :=
  if release then false
  else
    match v_debug ctx with
    | Some p => debugValue_isEnabled st p
    | None => false
    end.

(** [debug]: the store and the context of the call of [Log] that it makes, or
    [None] when it makes none. *)
Definition debug (globalDebugging : bool) (st : Store) (ctx : Context)
  : option (Store * Context) :=
  if release then None
  else if globalDebugging || debuggingEnabled st ctx then Some (WithLogTag st ctx "debug")
  else None.

Definition Debug := debug.
Definition SetDebuggingEnabled := setDebuggingEnabled.
Definition SetGlobalDebuggingEnabled := setGlobalDebuggingEnabled.
(** ** Vocabulary of the properties *)

(** The kinds that the text codec renders: known and not above the maximum. *)
Definition kind_in_range (d : Data) : bool :=
  negb ((Data_Type d =? ValueTypeUnknown)%N || (valueTypeMaxValue <? Data_Type d)%N).

(** The text of a value of a kind in range. *)
Definition value_text (d : Data) : string :=
  if (Data_Type d =? ValueTypeString)%N then d_string d
  else if (Data_Type d =? ValueTypeInt64)%N then pretty (int64_of_uint64 (d_numBits d))
  else if (Data_Type d =? ValueTypeUint64)%N then pretty (d_numBits d)
  else if (Data_Type d =? ValueTypeFloat64)%N then formatFloat (Float64frombits (d_numBits d))
  else fmt_v (d_any d).

(** [o] keeps its view when [append] is applied to [s]: the two slices are on
    different arrays, or [o] ends where [s] ends or before. *)
Definition keeps_view (o s : option slice) : Prop :=
  match o, s with
  | Some o, Some s => s_ptr o = s_ptr s → (s_len o ≤ s_len s)%nat
  | _, _ => True
  end.

(** What holds of a pool of contexts derived from [p]: all are well formed,
    and [p] keeps its views whichever of them is attached to. *)
Definition pool_ok (st : Store) (p : Context) (pool : list Context) : Prop :=
  ctx_wf st p ∧
  Forall (λ X, ctx_wf st X ∧ keeps_view (v_loggers p) (v_loggers X)
               ∧ keeps_view (v_tags p) (v_tags X)) pool.

(** *** The dispatch engine: what holds in every state *)

(** The states that the process can reach from callers with these scripts. *)
Definition reach (scripts : list (list cmd)) (s : state) : Prop :=
  ∃ now schedule, run (init now scripts) schedule = Some s.

(** Threads counted by a weight. *)
Definition in_crit (th : thread) : nat :=
  match th with
  | TLog _ (PReadToken | PMake | PStore | PNow | PUnlock) _ => 1
  | TSync (SRead | SUnlock _) _ => 1
  | _ => 0
  end.

Definition at_store (th : thread) : nat :=
  match th with
  | TLog _ PStore _ => 1
  | _ => 0
  end.

Definition log_thread (g : nat) (th : thread) : nat :=
  match th with
  | TLog fid _ _ => if decide (fid = g) then 1 else 0
  | _ => 0
  end.

(** The frame of a thread has the variables that the thread's place in the
    code says are assigned. *)
Definition thread_ok (s : state) (th : thread) : Prop :=
  match th with
  | TCaller _ | TSync _ _ => True
  | TLog fid pc _ =>
      ∃ f, st_frames s !! fid = Some f ∧
      match pc with
      | PLock | PReadToken =>
          fr_writeReady f = None ∧ fr_nextWriteReady f = None ∧ fr_t f = None
      | PMake =>
          fr_writeReady f = Some (st_writeReady s) ∧ fr_nextWriteReady f = None ∧ fr_t f = None
      | PStore =>
          fr_writeReady f = Some (st_writeReady s) ∧
          fr_nextWriteReady f = Some (S (st_writeReady s)) ∧ fr_t f = None
      | PNow =>
          fr_nextWriteReady f = Some (st_writeReady s) ∧ fr_t f = None
      | PUnlock | PAdd | PSpawn _ | PWait => is_Some (fr_t f)
      end
  | TCodec fid _ _ | TWatcher fid _ =>
      ∃ f, st_frames s !! fid = Some f ∧ is_Some (fr_t f)
  end.

(** The variables of a frame are assigned in the order of the code, the
    channels are ones that exist, and the timestamp is not in the future. *)
Definition frame_ok (s : state) (f : frame) : Prop :=
  (∀ a, fr_writeReady f = Some a → (a < length (st_chans s))%nat) ∧
  (∀ n, fr_nextWriteReady f = Some n →
        (n < length (st_chans s))%nat ∧ ∃ a, fr_writeReady f = Some a ∧ n = S a) ∧
  (∀ t, fr_t f = Some t →
        instant t ≤ st_clock s ∧ ∃ n, fr_nextWriteReady f = Some n ∧ (n ≤ st_writeReady s)%nat).

Record basic_inv (s : state) : Prop := mkBasicInv {
  bi_mutex : sum_list_with in_crit (st_threads s) = if st_mu s then 1%nat else 0%nat;
  bi_token : length (st_chans s) =
             (st_writeReady s + 1 + sum_list_with at_store (st_threads s))%nat;
  bi_threads : Forall (thread_ok s) (st_threads s);
  bi_frames : Forall (frame_ok s) (st_frames s);
  bi_owner : ∀ g, (sum_list_with (log_thread g) (st_threads s) ≤ 1)%nat;
  bi_unique : ∀ g h f f' n,
      st_frames s !! g = Some f → st_frames s !! h = Some f' →
      fr_nextWriteReady f = Some n → fr_nextWriteReady f' = Some n → g = h;
}.

Definition thread_frame (th : thread) : option nat :=
  match th with
  | TLog fid _ _ | TCodec fid _ _ | TWatcher fid _ => Some fid
  | TCaller _ | TSync _ _ => None
  end.

(** The timestamps follow the order of the token swaps: of two calls, the one
    that installed the later channel has the later timestamp, or the same. *)
Definition stamps_ordered (s : state) : Prop :=
  ∀ g h fg fh n m tg th,
    st_frames s !! g = Some fg → st_frames s !! h = Some fh →
    fr_nextWriteReady fg = Some n → fr_nextWriteReady fh = Some m →
    fr_t fg = Some tg → fr_t fh = Some th →
    (n ≤ m)%nat → instant tg ≤ instant th.

(** The goroutines of one call, counted. *)
Definition on_frame (g fid n : nat) : nat := if decide (fid = g) then n else 0%nat.

(** The encoding step is the one step of a codec's goroutine that reads the
    arguments of [Log]; [encodeDone()] follows it. *)
Definition before_encodeDone (pc : codec_pc) : bool :=
  match pc with
  | CEncode | CEncodeDone _ => true
  | _ => false
  end.

Definition reads_data (pc : codec_pc) : bool :=
  match pc with
  | CEncode => true
  | _ => false
  end.

Definition finished (pc : codec_pc) : bool :=
  match pc with
  | CFinished _ => true
  | _ => false
  end.

Definition count_codecs (P : Codec → bool) (l : list Codec) : nat :=
  sum_list_with (λ c, Nat.b2n (P c)) l.

(** The calls of [encodesDone.Done()] that are still to come. *)
Definition pending_encodes (g : nat) (th : thread) : nat :=
  match th with
  | TLog fid (PSpawn todo) _ => on_frame g fid (length todo)
  | TCodec fid _ pc => on_frame g fid (Nat.b2n (before_encodeDone pc))
  | _ => 0%nat
  end.

(** The calls of [writesDone.Done()] that are still to come. *)
Definition pending_writes (g : nat) (th : thread) : nat :=
  match th with
  | TLog fid (PSpawn todo) _ => on_frame g fid (length todo)
  | TCodec fid _ pc => on_frame g fid (Nat.b2n (negb (finished pc)))
  | _ => 0%nat
  end.

(** The codecs with [P] that have their goroutine or are still to get it. *)
Definition attached (P : Codec → bool) (g : nat) (loggers : list Codec) (th : thread) : nat :=
  match th with
  | TLog fid pc _ =>
      on_frame g fid
        match pc with
        | PSpawn todo => count_codecs P todo
        | PWait => 0%nat
        | _ => count_codecs P loggers
        end
  | TCodec fid c _ => on_frame g fid (Nat.b2n (P c))
  | _ => 0%nat
  end.

(** A call is either before the end of its go statements or has its watcher. *)
Definition spawning (g : nat) (th : thread) : nat :=
  match th with
  | TLog fid pc _ => on_frame g fid match pc with PWait => 0%nat | _ => 1%nat end
  | TWatcher fid _ => on_frame g fid 1
  | _ => 0%nat
  end.

Record count_inv (s : state) : Prop := mkCountInv {
  ci_encodes : ∀ g f, st_frames s !! g = Some f →
      fr_encodesDone f = sum_list_with (pending_encodes g) (st_threads s);
  ci_writes : ∀ g f, st_frames s !! g = Some f →
      fr_writesDone f = sum_list_with (pending_writes g) (st_threads s);
  ci_attached : ∀ P g f, st_frames s !! g = Some f →
      sum_list_with (attached P g (fr_loggers f)) (st_threads s) = count_codecs P (fr_loggers f);
  ci_spawning : ∀ g f, st_frames s !! g = Some f →
      sum_list_with (spawning g) (st_threads s) = 1%nat;
}.

(** The goroutines of the call with frame [g] whose codec has [P]. *)
Definition goroutine_of (P : Codec → bool) (g : nat) (th : thread) : nat :=
  match th with
  | TCodec fid c _ => on_frame g fid (Nat.b2n (P c))
  | _ => 0%nat
  end.

(** No goroutine of the call with frame [g] is still to encode or to call
    [encodeDone]. *)
Definition encodes_done (s : state) (g : nat) : Prop :=
  ∀ j c pc, st_threads s !! j = Some (TCodec g c pc) → before_encodeDone pc = false.

(** What holds once [Log] has returned from the call with frame [g]. *)
Definition handed_over (g : nat) (s : state) : Prop :=
  basic_inv s ∧ count_inv s ∧ (g < length (st_frames s))%nat ∧
  sum_list_with (log_thread g) (st_threads s) = 0%nat ∧
  sum_list_with (pending_encodes g) (st_threads s) = 0%nat.

(** *** The order of the writes *)

(** The goroutine has read from [writeReady]. *)
Definition passed_gate (pc : codec_pc) : bool :=
  match pc with
  | CWrite _ | CWritesDone true | CFinished true => true
  | _ => false
  end.

(** The goroutine has written its entry. *)
Definition has_written (pc : codec_pc) : bool :=
  match pc with
  | CWritesDone true | CFinished true => true
  | _ => false
  end.

(** The encoding of the goroutine has failed. *)
Definition failed (pc : codec_pc) : bool :=
  match pc with
  | CEncodeDone None | CWritesDone false | CFinished false => true
  | _ => false
  end.

Definition no_encode_failed (s : state) : Prop :=
  ∀ j fid c pc, st_threads s !! j = Some (TCodec fid c pc) → failed pc = false.

Definition closed (s : state) (ch : nat) : Prop := st_chans s !! ch = Some true.

(** The entries of a writer that come from the call with frame [g]. *)
Definition entry_of (g : nat) (e : entry) : nat :=
  if decide (en_call e = g) then 1%nat else 0%nat.

(** The goroutines of the call with frame [g] that have written to [w]. *)
Definition wrote_on (w g : nat) (th : thread) : nat :=
  match th with
  | TCodec fid c pc =>
      on_frame g fid (if decide (codec_writer c = w) then Nat.b2n (has_written pc) else 0%nat)
  | _ => 0%nat
  end.

(** The contexts that the package's functions make have no empty list of
    loggers: [WithLogger] appends. *)
Definition cmd_ok (c : cmd) : Prop :=
  match c with
  | CLog ctx _ _ => lc_loggers ctx ≠ Some []
  | CSync => True
  end.

Definition script_of (th : thread) : list cmd :=
  match th with
  | TCaller l | TLog _ _ l | TSync _ l => l
  | _ => []
  end.

(** The entries of a writer in the order of the calls. *)
Definition gate_le (e1 e2 : entry) : Prop := (en_gate e1 ≤ en_gate e2)%nat.

Record order_inv (s : state) : Prop := mkOrderInv {
  oi_zero : closed s 0;
  oi_codec : ∀ j fid c pc, st_threads s !! j = Some (TCodec fid c pc) →
      passed_gate pc = true →
      ∃ f a, st_frames s !! fid = Some f ∧ fr_writeReady f = Some a ∧ closed s a;
  oi_watch : ∀ j fid pc, st_threads s !! j = Some (TWatcher fid pc) → pc ≠ WWait →
      ∃ f, st_frames s !! fid = Some f ∧ fr_writesDone f = 0%nat ∧
           (pc = WFinished → ∃ n, fr_nextWriteReady f = Some n ∧ closed s n);
  oi_closed : ∀ k, closed s (S k) →
      ∃ g f j, st_frames s !! g = Some f ∧ fr_nextWriteReady f = Some (S k) ∧
               st_threads s !! j = Some (TWatcher g WFinished);
  oi_sink : ∀ w e, e ∈ sink s w →
      ∃ f, st_frames s !! en_call e = Some f ∧ fr_writeReady f = Some (en_gate e) ∧
           fr_t f = Some (en_time e) ∧ closed s (en_gate e);
  oi_count : ∀ w g,
      sum_list_with (entry_of g) (sink s w) = sum_list_with (wrote_on w g) (st_threads s);
  oi_loggers : Forall (λ f, fr_loggers f ≠ []) (st_frames s);
  oi_scripts : Forall (λ th, Forall cmd_ok (script_of th)) (st_threads s);
  oi_sorted : no_encode_failed s → ∀ w, StronglySorted gate_le (sink s w);
}.

(** The codecs that write to the writer [w]. *)
Definition writes_to (w : nat) (c : Codec) : bool := bool_decide (codec_writer c = w).

(** Two timestamps in the range of the layout and of one UTC offset. *)
Definition same_layout (a b : Time) : Prop :=
  in_layout_range a ∧ in_layout_range b ∧ t_offset a = t_offset b.

(** An entry and a later one of the same writer: in the order of the token
    swaps of their calls, with timestamps in that order, and rendered
    timestamps too when the layout can show it. *)
Definition entry_le (e1 e2 : entry) : Prop :=
  gate_le e1 e2 ∧ instant (en_time e1) ≤ instant (en_time e2) ∧
  (same_layout (en_time e1) (en_time e2) →
   bytes_Compare (Format (en_time e1) TimeFormat) (Format (en_time e2) TimeFormat) ≠ Gt).

(** The calls of [Log] that have made their token swap when [Sync] reads the
    token [tok]: their channel is [tok] or an earlier one. *)
Definition created_before (tok : nat) (f : frame) : Prop :=
  ∃ n, fr_nextWriteReady f = Some n ∧ (n ≤ tok)%nat.

(** Every codec of the call with frame [g] has its entry in its writer, once. *)
Definition fully_written (s : state) (g : nat) (f : frame) : Prop :=
  ∀ w, sum_list_with (entry_of g) (sink s w) = count_codecs (writes_to w) (fr_loggers f).

(** What is said of [Sync]: when it returns, the calls before it are written. *)
Definition Sync_waits_for_writes (scripts : list (list cmd)) : Prop :=
  ∀ s i tok rest s', reach scripts s →
    st_threads s !! i = Some (TSync (SWait tok) rest) → act (Run i) s = Some s' →
    ∀ g f, st_frames s' !! g = Some f → created_before tok f → fully_written s' g f.

(** ** Vocabulary of further properties *)

(** The value of a call that returns, and nothing for one that panics. *)
Definition returned {A} (r : result A) : option A :=
  match r with
  | Ok a => Some a
  | Panic _ => None
  end.

(** The last datum of a list that has the name [name]. *)
Definition last_named (name : string) (data : list Data) : option Data :=
  last (filter (λ d, Data_Name d = name) data).

(** The strings of a list with a separator between each two. *)
Fixpoint join (sep : string) (l : list string) : string :=
  match l with
  | [] => ""
  | [x] => x
  | x :: rest => x +:+ sep +:+ join sep rest
  end.

Definition concat_strings (l : list string) : string := foldr String.append "" l.

(** What the text codec writes for a datum of a kind in range. *)
Definition fragment (d : Data) : string := ", " +:+ d_name d +:+ "=" +:+ value_text d.

(** A slice that [append] extends in place: its array has a free slot. *)
Definition spare_capacity (s : option slice) : bool :=
  match s with
  | Some s => bool_decide (s_len s < s_cap s)%nat
  | None => false
  end.

(** The pointer of a context to its [debugValue] is one of the store. *)
Definition debug_wf (st : Store) (ctx : Context) : Prop :=
  ∀ p, v_debug ctx = Some p → (p < length (debug_cells st))%nat.

(** *** More of what holds in every state of the dispatch engine *)

(** The encoded entry that a goroutine holds between its encoding and its
    write. *)
Definition holds_bytes (pc : codec_pc) : option string :=
  match pc with
  | CEncodeDone (Some b) | CWaitReady b | CWrite b => Some b
  | _ => None
  end.

(** Two frames with the same arguments of [Log]. *)
Definition same_args (f f' : frame) : Prop :=
  fr_loggers f' = fr_loggers f ∧ fr_tags f' = fr_tags f ∧
  fr_message f' = fr_message f ∧ fr_data f' = fr_data f.

(** [Sync] between its read of the token and its return. *)
Definition sync_token (th : thread) : option nat :=
  match th with
  | TSync (SUnlock tok) _ | TSync (SWait tok) _ => Some tok
  | _ => None
  end.

Record engine_inv (s : state) : Prop := mkEngineInv {
  ei_chan : ∀ k, (S k < length (st_chans s))%nat →
      ∃ g f, st_frames s !! g = Some f ∧ fr_nextWriteReady f = Some (S k);
  ei_sync : ∀ i th tok, st_threads s !! i = Some th → sync_token th = Some tok →
      (tok < length (st_chans s))%nat;
  ei_spawn : ∀ i fid todo rest, st_threads s !! i = Some (TLog fid (PSpawn todo) rest) →
      ∃ f, st_frames s !! fid = Some f ∧ todo ⊆ fr_loggers f;
  ei_codec : ∀ i fid c pc, st_threads s !! i = Some (TCodec fid c pc) →
      ∃ f t, st_frames s !! fid = Some f ∧ fr_t f = Some t ∧ c ∈ fr_loggers f ∧
             ∀ b, holds_bytes pc = Some b → encode c f t = Ok (Some b);
  ei_entry : ∀ w e, e ∈ sink s w →
      ∃ f c, st_frames s !! en_call e = Some f ∧ fr_t f = Some (en_time e) ∧
             c ∈ fr_loggers f ∧ codec_writer c = w ∧
             encode c f (en_time e) = Ok (Some (en_bytes e));
}.

(** The data of the calls of a script are of kinds in range, as the data
    that the constructors make are. *)
Definition cmd_data_ok (c : cmd) : Prop :=
  match c with
  | CLog _ _ data => Forall (λ d, kind_in_range d = true) data
  | CSync => True
  end.

Record data_inv (s : state) : Prop := mkDataInv {
  di_frames : Forall (λ f, Forall (λ d, kind_in_range d = true) (fr_data f)) (st_frames s);
  di_scripts : Forall (λ th, Forall cmd_data_ok (script_of th)) (st_threads s);
}.

(** A thread that has nothing left to do. *)
Definition ended (th : thread) : bool :=
  match th with
  | TCaller [] | TCodec _ _ (CFinished _) | TWatcher _ WFinished => true
  | _ => false
  end.

(** No thread of the process can take a step. *)
Definition at_rest (s : state) : Prop := ∀ i, exec i s = None.

(** What a thread that cannot take a step is waiting for, the mutex being
    free: nothing, having ended, or a counter of a [WaitGroup], or a channel. *)
Definition waits (s : state) (th : thread) : Prop :=
  match th with
  | TCaller script => script = []
  | TLog fid pc _ => pc = PWait ∧ ∃ f, st_frames s !! fid = Some f ∧ fr_encodesDone f ≠ 0%nat
  | TSync pc _ => ∃ tok, pc = SWait tok ∧ ¬ closed s tok
  | TCodec fid _ pc =>
      finished pc = true ∨
      ∃ b f x, pc = CWaitReady b ∧ st_frames s !! fid = Some f ∧
               fr_writeReady f = Some x ∧ ¬ closed s x
  | TWatcher fid pc =>
      pc = WFinished ∨
      (pc = WWait ∧ ∃ f, st_frames s !! fid = Some f ∧ fr_writesDone f ≠ 0%nat)
  end.

(** The list of loggers at a context is empty exactly when the context has
    no value under [loggerKey{}], which is what [Log] tests. *)
Definition has_loggers (st : Store) (X : Context) : Prop :=
  match v_loggers X with
  | None => loggers_of st X = []
  | Some _ => loggers_of st X ≠ []
  end.

Definition loggers_slice_ok (st : Store) (X : Context) : Prop :=
  ctx_wf st X ∧ ∀ s, v_loggers X = Some s → (0 < s_len s)%nat.

(** The goroutines whose encoding has failed are goroutines whose [encode]
    has returned an error. *)
Definition fail_inv (s : state) : Prop :=
  ∀ i fid c pc, st_threads s !! i = Some (TCodec fid c pc) → failed pc = true →
    ∃ f t, st_frames s !! fid = Some f ∧ fr_t f = Some t ∧ encode c f t = Ok None.

(** The schema that the JSON codec gives to [json.Marshal]. *)
Definition schema_of (t : Time) (f : frame) (m : gmap string boxed) : jsonSchema :=
  {| js_Date := Format t TimeFormat; js_DateUnix := t_unix t; js_NanoSeconds := t_nsec t;
     js_Tags := mapKV (fr_tags f); js_Message := fr_message f; js_Data := m |}.

(** *** The steps that are left

    An upper bound of the steps that a thread has yet to take, with those of
    the goroutines that it has yet to start. *)

Definition codec_cost (pc : codec_pc) : nat :=
  match pc with
  | CEncode => 5
  | CEncodeDone _ => 4
  | CWaitReady _ => 3
  | CWrite _ => 2
  | CWritesDone _ => 1
  | CFinished _ => 0
  end.

Definition watch_cost (pc : watch_pc) : nat :=
  match pc with
  | WWait => 2
  | WClose => 1
  | WFinished => 0
  end.

Definition sync_cost (pc : sync_pc) : nat :=
  match pc with
  | SLock => 4
  | SRead => 3
  | SUnlock _ => 2
  | SWait _ => 1
  end.

(** The go statements for [todo] codecs and for the watcher, and the return. *)
Definition spawn_cost (todo : nat) : nat := 6 * todo + 4.

Definition log_cost (n : nat) (pc : log_pc) : nat :=
  match pc with
  | PLock => 7 + spawn_cost n
  | PReadToken => 6 + spawn_cost n
  | PMake => 5 + spawn_cost n
  | PStore => 4 + spawn_cost n
  | PNow => 3 + spawn_cost n
  | PUnlock => 2 + spawn_cost n
  | PAdd => 1 + spawn_cost n
  | PSpawn todo => spawn_cost (length todo)
  | PWait => 1
  end.

Definition cmd_cost (c : cmd) : nat :=
  match c with
  | CLog ctx _ _ =>
      match lc_loggers ctx with
      | None => 1
      | Some loggers => 1 + log_cost (length loggers) PLock
      end
  | CSync => 1 + sync_cost SLock
  end.

Definition script_cost (script : list cmd) : nat := sum_list_with cmd_cost script.

Definition loggers_at (F : list frame) (fid : nat) : nat :=
  from_option (λ f, length (fr_loggers f)) 0%nat (F !! fid).

Definition cost (F : list frame) (th : thread) : nat :=
  match th with
  | TCaller script => script_cost script
  | TLog fid pc rest => log_cost (loggers_at F fid) pc + script_cost rest
  | TSync pc rest => sync_cost pc + script_cost rest
  | TCodec _ _ pc => codec_cost pc
  | TWatcher _ pc => watch_cost pc
  end.

Definition steps_left (s : state) : nat := sum_list_with (cost (st_frames s)) (st_threads s).

Definition is_Run (a : action) : Prop :=
  match a with
  | Run _ => True
  | Tick _ => False
  end.
(** * Part II: properties *)

(** ** Typed values *)

Lemma testbit_small (a k m : Z) :
  0 ≤ a < 2 ^ k → 0 ≤ k ≤ m → Z.testbit a m = false.
Proof.
  intros Ha Hk.
  rewrite <- (Z.mod_small a (2 ^ k)) by lia.
  apply Z.mod_pow2_bits_high. lia.
Qed.

Lemma int64_of_uint64_of_int64 (v : Z) :
  is_int64 v → int64_of_uint64 (uint64_of_int64 v) = v.
Proof.
  unfold is_int64, int64_of_uint64, uint64_of_int64, two63, two64.
  intros Hv.
  destruct (Z.ltb_spec (v mod 2 ^ 64) (2 ^ 63)) as [Hlt | Hge];
    destruct (Z.neg_nonneg_cases v) as [Hneg | Hpos].
  - rewrite <- (Z.mod_add v 1 (2 ^ 64)) in Hlt by lia.
    rewrite Z.mod_small in Hlt by lia. lia.
  - apply Z.mod_small. lia.
  - rewrite <- (Z.mod_add v 1 (2 ^ 64)) by lia.
    rewrite Z.mod_small by lia. lia.
  - rewrite Z.mod_small in Hge by lia. lia.
Qed.

Lemma uint64_of_int64_range (v : Z) : is_uint64 (uint64_of_int64 v).
Proof. unfold is_uint64, uint64_of_int64, two64. apply Z.mod_pos_bound. lia. Qed.

Lemma Float64bits_sign (f : float64) :
  is_float64 f → Z.testbit (Float64bits f) 63 = f_sign f.
Proof.
  intros [He Hf]. unfold Float64bits.
  rewrite !Z.lor_spec, !Z.shiftl_spec by lia.
  rewrite (testbit_small (f_exponent f) 11 (63 - 52)) by lia.
  rewrite (testbit_small (f_fraction f) 52 63) by lia.
  destruct (f_sign f); reflexivity.
Qed.

Lemma Float64bits_exponent (f : float64) :
  is_float64 f → Z.land (Z.shiftr (Float64bits f) 52) (Z.ones 11) = f_exponent f.
Proof.
  intros [He Hf]. unfold Float64bits.
  apply Z.bits_inj'. intros n Hn.
  rewrite Z.land_spec, Z.shiftr_spec, !Z.lor_spec, !Z.shiftl_spec by lia.
  rewrite (testbit_small (f_fraction f) 52 (n + 52)) by lia.
  replace (n + 52 - 52) with n by lia.
  destruct (Z.lt_ge_cases n 11) as [Hlt | Hge].
  - rewrite Z.ones_spec_low by lia.
    rewrite Z.testbit_neg_r by lia.
    rewrite orb_false_r, andb_true_r. reflexivity.
  - rewrite Z.ones_spec_high by lia.
    rewrite (testbit_small (f_exponent f) 11 n) by lia.
    apply andb_false_r.
Qed.

Lemma Float64bits_fraction (f : float64) :
  is_float64 f → Z.land (Float64bits f) (Z.ones 52) = f_fraction f.
Proof.
  intros [He Hf]. unfold Float64bits.
  apply Z.bits_inj'. intros n Hn.
  rewrite Z.land_spec, !Z.lor_spec, !Z.shiftl_spec by lia.
  destruct (Z.lt_ge_cases n 52) as [Hlt | Hge].
  - rewrite Z.ones_spec_low by lia.
    rewrite !Z.testbit_neg_r by lia.
    rewrite andb_true_r. reflexivity.
  - rewrite Z.ones_spec_high by lia.
    rewrite (testbit_small (f_fraction f) 52 n) by lia.
    apply andb_false_r.
Qed.

Lemma Float64frombits_bits (f : float64) :
  is_float64 f → Float64frombits (Float64bits f) = f.
Proof.
  intros Hf. unfold Float64frombits.
  rewrite Float64bits_sign, Float64bits_exponent, Float64bits_fraction by done.
  by destruct f.
Qed.

Lemma Float64bits_range (f : float64) : is_float64 f → is_uint64 (Float64bits f).
Proof.
  intros [He Hf]. unfold is_uint64, two64, Float64bits.
  assert (0 ≤ Z.shiftl (if f_sign f then 1 else 0) 63) by (apply Z.shiftl_nonneg; by destruct (f_sign f)).
  assert (0 ≤ Z.shiftl (f_exponent f) 52) by (apply Z.shiftl_nonneg; lia).
  split.
  - apply Z.lor_nonneg. split; [done|]. apply Z.lor_nonneg. lia.
  - assert (Hbits : ∀ a, 0 ≤ a → (∀ m, 64 ≤ m → Z.testbit a m = false) → a < 2 ^ 64).
    { intros a Ha Hhigh. destruct (Z.lt_ge_cases a (2 ^ 64)) as [|Hge]; [done|].
      destruct (Z.eq_dec a 0) as [->|Hne]; [lia|].
      assert (Hlog : 64 ≤ Z.log2 a) by (apply Z.log2_le_pow2; lia).
      specialize (Hhigh (Z.log2 a) Hlog).
      rewrite Z.bit_log2 in Hhigh by lia. done. }
    apply Hbits.
    + apply Z.lor_nonneg. split; [done|]. apply Z.lor_nonneg. lia.
    + intros m Hm. rewrite !Z.lor_spec, !Z.shiftl_spec by lia.
      rewrite (testbit_small (if f_sign f then 1 else 0) 1 (m - 63)) by (destruct (f_sign f); lia).
      rewrite (testbit_small (f_exponent f) 11 (m - 52)) by lia.
      rewrite (testbit_small (f_fraction f) 52 m) by lia.
      reflexivity.
Qed.

(** C7: a value of each kind, built by the kind's constructor and read back by
    the kind's accessor, comes back unchanged; an [int64] goes through
    [uint64(value)] and back, a [float64] through its IEEE-754 bit pattern, and
    what is stored in [numBits] is a 64-bit pattern. *)
Theorem constructor_accessor_round_trip (name s : string) (i u : Z) (f : float64) :
  is_int64 i → is_uint64 u → is_float64 f →
  Data_String (String_ name s) = Ok s ∧
  Data_Int64 (Int64 name i) = Ok i ∧
  Data_Uint64 (Uint64 name u) = Ok u ∧
  Data_Float64 (Float64 name f) = Ok f ∧
  is_uint64 (d_numBits (Int64 name i)) ∧
  is_uint64 (d_numBits (Float64 name f)) ∧
  Float64bits (Float64frombits (d_numBits (Float64 name f))) = d_numBits (Float64 name f).
Proof.
  intros Hi Hu Hf.
  unfold Data_String, Data_Int64, Data_Uint64, Data_Float64, checkType; simpl.
  rewrite int64_of_uint64_of_int64, Float64frombits_bits by done.
  repeat split; try done.
  - apply uint64_of_int64_range.
  - apply uint64_of_int64_range.
  - by apply Float64bits_range.
  - by apply Float64bits_range.
Qed.

(** C8: each kind-specific accessor returns the payload when the value has the
    accessor's kind and otherwise panics, returning no value, with the message
    that [checkType] formats from the actual kind and the expected kind. *)
Theorem accessor_kind_check (d : Data) :
  Data_String d =
    (if decide (d_valueType d = ValueTypeString) then Ok (d_string d)
     else Panic (mismatch_message (d_valueType d) ValueTypeString)) ∧
  Data_Int64 d =
    (if decide (d_valueType d = ValueTypeInt64) then Ok (int64_of_uint64 (d_numBits d))
     else Panic (mismatch_message (d_valueType d) ValueTypeInt64)) ∧
  Data_Uint64 d =
    (if decide (d_valueType d = ValueTypeUint64) then Ok (d_numBits d)
     else Panic (mismatch_message (d_valueType d) ValueTypeUint64)) ∧
  Data_Float64 d =
    (if decide (d_valueType d = ValueTypeFloat64) then Ok (Float64frombits (d_numBits d))
     else Panic (mismatch_message (d_valueType d) ValueTypeFloat64)) ∧
  (∀ have want, mismatch_message have want =
     "value type mismatch: " +:+ ValueType_String have +:+ " != " +:+ ValueType_String want).
Proof.
  unfold Data_String, Data_Int64, Data_Uint64, Data_Float64, checkType.
  repeat split; by case_decide.
Qed.

(** ** The text codec *)

Lemma append_assoc (a b c : string) : (a +:+ b) +:+ c = a +:+ (b +:+ c).
Proof. induction a as [|x a IH]; [done|]. exact (f_equal (String x) IH). Qed.

Lemma append_nil_r (a : string) : a +:+ "" = a.
Proof. induction a as [|x a IH]; [done|]. exact (f_equal (String x) IH). Qed.

Lemma write_datum_out_of_range (buf : string) (d : Data) :
  kind_in_range d = false → write_datum buf d = buf.
Proof.
  unfold kind_in_range, write_datum. intros H.
  apply negb_false_iff in H. by rewrite H.
Qed.

Lemma write_datum_in_range (buf : string) (d : Data) :
  kind_in_range d = true →
  write_datum buf d = buf +:+ ", " +:+ d_name d +:+ "=" +:+ value_text d.
Proof.
  unfold kind_in_range, write_datum, value_text. intros H.
  apply negb_true_iff in H. rewrite H.
  apply orb_false_iff in H as [Hunk Hmax].
  apply N.eqb_neq in Hunk. apply N.ltb_ge in Hmax.
  unfold valueTypeMaxValue, ValueTypeAny, ValueTypeUnknown in *.
  repeat (case_match; [by rewrite !append_assoc|]).
  repeat match goal with H : (_ =? _)%N = false |- _ => apply N.eqb_neq in H end.
  unfold ValueTypeString, ValueTypeInt64, ValueTypeUint64, ValueTypeFloat64, ValueTypeAny in *.
  lia.
Qed.

Lemma foldl_write_datum_filter (buf : string) (data : list Data) :
  foldl write_datum buf data = foldl write_datum buf (filter (λ d, kind_in_range d = true) data).
Proof.
  revert buf. induction data as [|d data IH]; intros buf; [done|].
  rewrite filter_cons. simpl. case_decide as Hd.
  - simpl. apply IH.
  - rewrite write_datum_out_of_range by by destruct (kind_in_range d). apply IH.
Qed.

(** C10: the text codec leaves out every datum whose kind is unknown or above
    the maximum: it writes no fragment for it, wherever it stands in the list,
    and the entry is the one of the list without it; for a datum of a kind in
    range it writes [", name=value"].  The encoding is a total function: it
    reads the fields and calls no accessor that could panic. *)
Theorem text_codec_skips_out_of_range (t : Time) (tags : list KV) (message : string) :
  (∀ buf d, kind_in_range d = false → write_datum buf d = buf) ∧
  (∀ buf d, kind_in_range d = true →
     write_datum buf d = buf +:+ ", " +:+ d_name d +:+ "=" +:+ value_text d) ∧
  (∀ before d after, kind_in_range d = false →
     text_encode t tags message (before ++ d :: after) =
     text_encode t tags message (before ++ after)) ∧
  (∀ data, text_encode t tags message data =
     text_encode t tags message (filter (λ d, kind_in_range d = true) data)) ∧
  kind_in_range Data_zero = false.
Proof.
  split_and!.
  - apply write_datum_out_of_range.
  - apply write_datum_in_range.
  - intros before d after Hd. unfold text_encode.
    rewrite !foldl_app. simpl. by rewrite write_datum_out_of_range.
  - intros data. unfold text_encode. by rewrite <- foldl_write_datum_filter.
  - done.
Qed.

(** ** The timestamp layout *)

(** Division and remainder by their equations.  The calendar does not depend
    on the time zone of the process, which is kept out of the proofs. *)
Ltac div_mod := try clear zone; Z.div_mod_to_equations.

Lemma lexc_pair (m q r q' r' : Z) :
  0 ≤ r < m → 0 ≤ r' < m →
  (q * m + r ?= q' * m + r') = lexc (q ?= q') (r ?= r').
Proof using Type.
  intros Hr Hr'. unfold lexc.
  destruct (Z.compare_spec q q') as [-> | Hlt | Hgt].
  - destruct (Z.compare_spec r r'); [apply Z.compare_eq_iff | apply Z.compare_lt_iff
                                    | apply Z.compare_gt_iff]; lia.
  - apply Z.compare_lt_iff. nia.
  - apply Z.compare_gt_iff. nia.
Qed.

Lemma lexc_divmod (m a b : Z) :
  0 < m → (a ?= b) = lexc (a / m ?= b / m) (a mod m ?= b mod m).
Proof using Type.
  intros Hm.
  rewrite (Z.div_mod a m) at 1 by lia. rewrite (Z.div_mod b m) at 1 by lia.
  rewrite (Z.mul_comm m (a / m)), (Z.mul_comm m (b / m)).
  apply lexc_pair; apply Z.mod_pos_bound; lia.
Qed.

(** *** Byte-wise comparison of fixed-width fields *)

Lemma string_compare_refl (s : string) : String.compare s s = Eq.
Proof using Type.
  pose proof (String.compare_antisym s s) as H.
  destruct (String.compare s s); simpl in H; congruence.
Qed.

Lemma string_compare_app (x x' r r' : string) :
  String.length x = String.length x' →
  String.compare (x +:+ r) (x' +:+ r') = lexc (String.compare x x') (String.compare r r').
Proof using Type.
  revert x'. induction x as [|c x IH]; intros [|c' x'] Hlen; simplify_eq/=; [done|].
  change (String c x +:+ r) with (String c (x +:+ r)).
  change (String c' x' +:+ r') with (String c' (x' +:+ r')).
  simpl. destruct (Ascii.compare c c'); try done. by apply IH.
Qed.

Lemma digit_compare (a b : Z) :
  0 ≤ a < 10 → 0 ≤ b < 10 → Ascii.compare (digit a) (digit b) = (a ?= b).
Proof using Type.
  intros Ha Hb. unfold Ascii.compare, digit.
  rewrite !N_ascii_embedding.
  - rewrite <- N2Z.inj_compare, !N2Z.inj_add, !Z2N.id by lia.
    apply Z.add_compare_mono_l.
  - lia.
  - lia.
Qed.

Lemma digits_length (w : nat) (n : Z) : String.length (digits w n) = w.
Proof using Type. revert n. induction w as [|w IH]; intros n; simpl; [done|]. by rewrite IH. Qed.

Lemma digits_compare (w : nat) (a b : Z) :
  0 ≤ a < 10 ^ Z.of_nat w → 0 ≤ b < 10 ^ Z.of_nat w →
  String.compare (digits w a) (digits w b) = (a ?= b).
Proof using Type.
  revert a b. induction w as [|w IH]; intros a b Ha Hb.
  - simpl in *. symmetry. apply Z.compare_eq_iff. lia.
  - cbn [digits String.compare].
    rewrite Nat2Z.inj_succ, Z.pow_succ_r in Ha, Hb by lia.
    assert (Hp : 0 < 10 ^ Z.of_nat w) by (apply Z.pow_pos_nonneg; lia).
    rewrite digit_compare.
    + rewrite IH by (apply Z.mod_pos_bound; lia).
      rewrite (lexc_divmod (10 ^ Z.of_nat w) a b) by done.
      unfold lexc. by destruct (_ ?= _).
    + split; [apply Z.div_pos; lia | apply Z.div_lt_upper_bound; lia].
    + split; [apply Z.div_pos; lia | apply Z.div_lt_upper_bound; lia].
Qed.

Lemma appendInt_digits (w : nat) (x : Z) :
  0 ≤ x < 10 ^ Z.of_nat w → appendInt x w = digits w x.
Proof using Type.
  intros Hx. unfold appendInt, padded.
  destruct (Z.ltb_spec x 0); [lia|].
  destruct (Z.ltb_spec x (10 ^ Z.of_nat w)); [done | lia].
Qed.

(** *** The calendar *)

Lemma days_before_year_succ (y : Z) :
  days_before_year (y + 1) = days_before_year y + 365 + (if is_leap y then 1 else 0).
Proof using Type.
  unfold days_before_year, is_leap.
  destruct (Z.eqb_spec (y mod 4) 0), (Z.eqb_spec (y mod 100) 0), (Z.eqb_spec (y mod 400) 0);
    simpl; div_mod; lia.
Qed.

Lemma days_before_year_mono (y y' : Z) :
  y ≤ y' → days_before_year y ≤ days_before_year y'.
Proof using Type.
  unfold days_before_year. intros H. div_mod. lia.
Qed.

Lemma year_of_days_spec (d : Z) :
  days_before_year (year_of_days d) ≤ d < days_before_year (year_of_days d + 1).
Proof using Type.
  unfold year_of_days.
  set (y := 400 * d / 146097).
  assert (Hy : 146097 * y ≤ 400 * d < 146097 * (y + 1)).
  { subst y. div_mod. lia. }
  clearbody y.
  destruct (Z.ltb_spec d (days_before_year y)) as [Hlt | Hge].
  - replace (y - 1 + 1) with y by lia. split; [|done].
    unfold days_before_year in *. div_mod. lia.
  - destruct (Z.leb_spec (days_before_year (y + 1)) d) as [Hle | Hgt]; [|lia].
    split; [done|].
    unfold days_before_year in *. div_mod. lia.
Qed.

Lemma days_before_month_mono (l : bool) (m m' : Z) :
  m ≤ m' → days_before_month l m ≤ days_before_month l m'.
Proof using Type.
  intros H. unfold days_before_month.
  repeat match goal with
         | |- context [if ?c then _ else _] =>
             lazymatch c with
             | (?a <=? ?b) => destruct (Z.leb_spec a b)
             | (?a =? ?b) => destruct (Z.eqb_spec a b)
             end
         end; destruct l; lia.
Qed.

Lemma month_of_yday_spec (l : bool) (yd : Z) :
  0 ≤ yd < 365 + (if l then 1 else 0) →
  1 ≤ month_of_yday l yd ≤ 12 ∧
  days_before_month l (month_of_yday l yd) ≤ yd < days_before_month l (month_of_yday l yd + 1) ∧
  yd - days_before_month l (month_of_yday l yd) < 31.
Proof using Type.
  intros H. unfold month_of_yday.
  repeat match goal with
         | |- context [if ?a <? ?b then _ else _] =>
             let E := fresh in destruct (Z.ltb_spec a b) as [E | E];
             [ unfold days_before_month in E |- *; simpl in E |- *; destruct l; lia
             | unfold days_before_month in E; simpl in E ]
         end.
  unfold days_before_month; simpl. destruct l; lia.
Qed.

Ltac cmp_cases :=
  repeat match goal with
         | |- context [?a ?= ?b] => destruct (Z.compare_spec a b)
         end.

(** The date of a day number, compared field by field, orders as the days. *)
Lemma civil_date_compare (d d' : Z) :
  let y := year_of_days d in
  let y' := year_of_days d' in
  let m := month_of_yday (is_leap y) (d - days_before_year y) in
  let m' := month_of_yday (is_leap y') (d' - days_before_year y') in
  (d ?= d') =
  lexc (y ?= y') (lexc (m ?= m')
       (d - days_before_year y - days_before_month (is_leap y) m + 1 ?=
        d' - days_before_year y' - days_before_month (is_leap y') m' + 1)).
Proof using Type.
  intros y y' m m'.
  pose proof (year_of_days_spec d) as Hy. pose proof (year_of_days_spec d') as Hy'.
  fold y in Hy. fold y' in Hy'.
  assert (Hyd : 0 ≤ d - days_before_year y < 365 + (if is_leap y then 1 else 0)).
  { rewrite days_before_year_succ in Hy. lia. }
  assert (Hyd' : 0 ≤ d' - days_before_year y' < 365 + (if is_leap y' then 1 else 0)).
  { rewrite days_before_year_succ in Hy'. lia. }
  pose proof (month_of_yday_spec _ _ Hyd) as (Hm1 & Hm2 & _).
  pose proof (month_of_yday_spec _ _ Hyd') as (Hm1' & Hm2' & _).
  fold m in Hm1, Hm2. fold m' in Hm1', Hm2'.
  unfold lexc.
  destruct (Z.compare_spec y y') as [Heq | Hlt | Hgt].
  - clearbody y y'. subst y'.
    destruct (Z.compare_spec m m') as [Hmeq | Hmlt | Hmgt].
    + clearbody m m'. subst m'. cmp_cases; first [reflexivity | lia].
    + pose proof (days_before_month_mono (is_leap y) (m + 1) m' ltac:(lia)).
      apply Z.compare_lt_iff. lia.
    + pose proof (days_before_month_mono (is_leap y) (m' + 1) m ltac:(lia)).
      apply Z.compare_gt_iff. lia.
  - pose proof (days_before_year_mono (y + 1) y' ltac:(lia)).
    apply Z.compare_lt_iff. lia.
  - pose proof (days_before_year_mono (y' + 1) y ltac:(lia)).
    apply Z.compare_gt_iff. lia.
Qed.

Lemma civil_of_bounds (t : Time) :
  in_layout_range t →
  let cv := civil_of t in
  0 ≤ c_year cv < 10 ^ 4 ∧ 0 ≤ c_month cv < 10 ^ 2 ∧ 0 ≤ c_day cv < 10 ^ 2 ∧
  0 ≤ c_hour cv < 10 ^ 2 ∧ 0 ≤ c_minute cv < 10 ^ 2 ∧ 0 ≤ c_second cv < 10 ^ 2 ∧
  0 ≤ t_nsec t / 1000 < 10 ^ 6.
Proof using Type.
  intros [Hns Hd]. unfold civil_of. cbn [c_year c_month c_day c_hour c_minute c_second].
  set (d := local_seconds t / 86400 + unix_epoch_days) in *.
  set (s := local_seconds t mod 86400).
  assert (Hs : 0 ≤ s < 86400) by (apply Z.mod_pos_bound; lia).
  clearbody s.
  pose proof (year_of_days_spec d) as Hy.
  set (y := year_of_days d) in *. clearbody y.
  assert (Hyr : 0 ≤ y < 10 ^ 4).
  { split.
    - destruct (Z.lt_ge_cases y 0) as [Hneg|]; [|done].
      pose proof (days_before_year_mono (y + 1) 0 ltac:(lia)). lia.
    - destruct (Z.lt_ge_cases y (10 ^ 4)) as [|Hbig]; [done|].
      pose proof (days_before_year_mono 10000 y ltac:(lia)). lia. }
  assert (Hyd : 0 ≤ d - days_before_year y < 365 + (if is_leap y then 1 else 0)).
  { rewrite days_before_year_succ in Hy. lia. }
  pose proof (month_of_yday_spec _ _ Hyd) as (Hm1 & Hm2 & Hm3).
  split_and!; try lia.
  - apply Z.div_pos; lia.
  - apply Z.div_lt_upper_bound; lia.
  - apply Z.div_pos; [|lia]. apply Z.mod_pos_bound. lia.
  - apply Z.div_lt_upper_bound; [lia|]. pose proof (Z.mod_pos_bound s 3600). lia.
  - apply Z.mod_pos_bound. lia.
  - pose proof (Z.mod_pos_bound s 60). lia.
  - apply Z.div_pos; lia.
  - apply Z.div_lt_upper_bound; lia.
Qed.

Lemma seconds_compare (s s' : Z) :
  (s ?= s') =
  lexc (s / 3600 ?= s' / 3600)
       (lexc (s mod 3600 / 60 ?= s' mod 3600 / 60) (s mod 60 ?= s' mod 60)).
Proof using Type.
  rewrite (lexc_divmod 3600 s s') by lia.
  rewrite (lexc_divmod 60 (s mod 3600) (s' mod 3600)) by lia.
  replace (s mod 3600 mod 60) with (s mod 60) by (div_mod; lia).
  replace (s' mod 3600 mod 60) with (s' mod 60) by (div_mod; lia).
  done.
Qed.

Lemma Format_TimeFormat_compare (a b : Time) :
  in_layout_range a → in_layout_range b → t_offset a = t_offset b →
  bytes_Compare (Format a TimeFormat) (Format b TimeFormat) = (micros a ?= micros b).
Proof using Type.
  intros Ha Hb Hoff.
  pose proof (civil_of_bounds a Ha) as (Ya & Ma & Da & ha & ma & sa & ua).
  pose proof (civil_of_bounds b Hb) as (Yb & Mb & Db & hb & mb & sb & ub).
  unfold bytes_Compare, Format, TimeFormat.
  cbn [foldr format_chunk].
  rewrite Hoff.
  repeat match goal with
         | H : 0 ≤ ?x < 10 ^ _ |- context [appendInt ?x ?n] =>
             rewrite (appendInt_digits n x) by exact H
         end.
  rewrite 12!string_compare_app by reflexivity.
  repeat match goal with
         | H : 0 ≤ ?x < 10 ^ _, H' : 0 ≤ ?y < 10 ^ _ |- context [String.compare (digits ?n ?x) (digits ?n ?y)] =>
             rewrite (digits_compare n x y) by first [exact H | exact H']
         end.
  rewrite !string_compare_refl.
  rewrite (string_compare_app "." ".") by reflexivity.
  rewrite string_compare_refl.
  change (10 ^ (9 - Z.of_nat 6)) with 1000.
  rewrite (digits_compare 6 _ _ ua ub).
  assert (Hm : (micros a ?= micros b) =
               lexc (local_seconds a ?= local_seconds b) (t_nsec a / 1000 ?= t_nsec b / 1000)).
  { rewrite <- (lexc_pair 1000000) by done.
    unfold micros, local_seconds. rewrite Hoff.
    cmp_cases; first [reflexivity | lia]. }
  rewrite Hm. clear Hm.
  rewrite (lexc_divmod 86400 (local_seconds a) (local_seconds b)) by done.
  assert (Hd : (local_seconds a / 86400 ?= local_seconds b / 86400) =
               (local_seconds a / 86400 + unix_epoch_days ?=
                local_seconds b / 86400 + unix_epoch_days)).
  { cmp_cases; first [reflexivity | lia]. }
  rewrite Hd. clear Hd.
  rewrite (civil_date_compare (local_seconds a / 86400 + unix_epoch_days)
                              (local_seconds b / 86400 + unix_epoch_days)).
  rewrite (seconds_compare (local_seconds a mod 86400) (local_seconds b mod 86400)).
  unfold civil_of. cbn [c_year c_month c_day c_hour c_minute c_second].
  unfold lexc.
  repeat match goal with |- context [Z.compare ?x ?y] => destruct (Z.compare x y) end;
    reflexivity.
Qed.


Lemma micros_instant (t : Time) :
  0 ≤ t_nsec t < 1000000000 → micros t = instant t / 1000.
Proof using Type.
  intros H. unfold micros, instant. div_mod. lia.
Qed.

Lemma same_offset_follows_time (a b : Time) :
  in_layout_range a → in_layout_range b → t_offset a = t_offset b →
  instant a ≤ instant b →
  bytes_Compare (Format a TimeFormat) (Format b TimeFormat) ≠ Gt.
Proof using Type.
  intros Ha Hb Hoff Hle. rewrite (Format_TimeFormat_compare a b Ha Hb Hoff).
  rewrite (micros_instant a (proj1 Ha)), (micros_instant b (proj1 Hb)).
  intros Hgt. apply Z.compare_gt_iff in Hgt.
  pose proof (Z.div_le_mono (instant a) (instant b) 1000 ltac:(lia) Hle) as Hdiv.
  by apply Z.lt_nge in Hgt.
Qed.

(** C6, as amended: for two timestamps of the layout's range (years 0000 to
    9999, local time) that are rendered with the same UTC offset, the byte-wise
    comparison of the rendered strings is the comparison of the instants
    truncated to the microsecond; so an earlier instant never renders as the
    greater string, and a smaller string means a strictly earlier instant. *)
Theorem TimeFormat_orders_same_offset (a b : Time) :
  in_layout_range a → in_layout_range b → t_offset a = t_offset b →
  bytes_Compare (Format a TimeFormat) (Format b TimeFormat) = (micros a ?= micros b) ∧
  layout_follows_time a b ∧
  (bytes_Compare (Format a TimeFormat) (Format b TimeFormat) = Lt → instant a < instant b).
Proof using Type.
  intros Ha Hb Hoff.
  pose proof (Format_TimeFormat_compare a b Ha Hb Hoff) as Hc.
  pose proof (micros_instant a (proj1 Ha)) as Hma.
  pose proof (micros_instant b (proj1 Hb)) as Hmb.
  split; [done|]. unfold layout_follows_time. rewrite Hc. split.
  - intros Hle Hgt. apply Z.compare_gt_iff in Hgt.
    rewrite Hma, Hmb in Hgt.
    pose proof (Z.div_le_mono (instant a) (instant b) 1000 ltac:(lia) Hle) as Hdiv.
    by apply Z.lt_nge in Hgt.
  - intros Hlt. apply Z.compare_lt_iff in Hlt.
    rewrite Hma, Hmb in Hlt.
    destruct (Z.lt_ge_cases (instant a) (instant b)) as [|Hge]; [done|].
    pose proof (Z.div_le_mono (instant b) (instant a) 1000 ltac:(lia) Hge) as Hdiv.
    by apply Z.lt_nge in Hlt.
Qed.

(** ** Context propagation *)

Lemma keeps_view_refl (s : option slice) : keeps_view s s.
Proof. destruct s; simpl; [lia|done]. Qed.

Lemma go_append_view {A} (zero : A) (h : list (list A)) (s : option slice) (x : A) :
  slice_wf h s →
  slice_view (go_append zero h s x).1 (Some (go_append zero h s x).2) = slice_view h s ++ [x].
Proof.
  intros Hwf. unfold go_append. case_decide as Hroom; simpl.
  - destruct s as [s|]; simpl in *; [|lia].
    destruct Hwf as (arr & Harr & Hcap & Hlen).
    rewrite list_lookup_alter_eq, Harr. simpl.
    rewrite (take_S_r _ _ x) by (apply list_lookup_insert_eq; lia).
    by rewrite take_insert_ge by lia.
  - rewrite lookup_app_r, Nat.sub_diag by done. simpl.
    assert (Hl : length (slice_view h s) = s_len (default (mkSlice 0 0 0) s)).
    { destruct s as [s|]; simpl in *; [|done].
      destruct Hwf as (arr & Harr & Hcap & Hlen).
      rewrite Harr. simpl. rewrite length_take. lia. }
    rewrite cons_middle, app_assoc. apply take_app_length'.
    rewrite length_app, Hl. simpl. lia.
Qed.

Lemma go_append_wf {A} (zero : A) (h : list (list A)) (s : option slice) (x : A) :
  slice_wf h s → slice_wf (go_append zero h s x).1 (Some (go_append zero h s x).2).
Proof.
  intros Hwf. unfold go_append. case_decide as Hroom; simpl.
  - destruct s as [s|]; simpl in *; [|lia].
    destruct Hwf as (arr & Harr & Hcap & Hlen).
    exists (<[s_len s := x]> arr). rewrite list_lookup_alter_eq, Harr, length_insert.
    split_and!; [done | done | lia].
  - eexists. rewrite lookup_app_r, Nat.sub_diag by done. split; [done|].
    assert (Hl : length (slice_view h s) = s_len (default (mkSlice 0 0 0) s)).
    { destruct s as [s|]; simpl in *; [|done].
      destruct Hwf as (arr & Harr & Hcap & Hlen).
      rewrite Harr. simpl. rewrite length_take. lia. }
    rewrite length_app, Hl. simpl. rewrite length_replicate.
    assert (s_len (default (mkSlice 0 0 0) s) ≤ s_cap (default (mkSlice 0 0 0) s))%nat.
    { destruct s as [s|]; simpl in *; [|done]. by destruct Hwf as (arr & Harr & Hcap & Hlen). }
    lia.
Qed.

Lemma go_append_frame {A} (zero : A) (h : list (list A)) (s o : option slice) (x : A) :
  slice_wf h s → slice_wf h o →
  slice_wf (go_append zero h s x).1 o ∧
  (keeps_view o s → slice_view (go_append zero h s x).1 o = slice_view h o).
Proof.
  intros Hs Ho. destruct o as [o|]; [|done]. simpl in Ho.
  destruct Ho as (arr & Harr & Hcap & Hlen).
  unfold go_append. case_decide as Hroom; simpl.
  - destruct s as [s|]; simpl in *; [|lia].
    destruct (decide (s_ptr o = s_ptr s)) as [Heq | Hne].
    + rewrite Heq, list_lookup_alter_eq, <- Heq, Harr. simpl. split.
      * exists (<[s_len s := x]> arr). by rewrite length_insert.
      * intros Hk. by rewrite take_insert_ge by auto.
    + rewrite list_lookup_alter_ne, Harr by done. eauto.
  - apply lookup_lt_Some in Harr as Hlt.
    rewrite lookup_app_l, Harr by done. eauto.
Qed.

(** The new slice of an [append] keeps clear of every slice that the old one
    kept clear of. *)
Lemma go_append_keeps {A} (zero : A) (h : list (list A)) (s o : option slice) (x : A) :
  slice_wf h o → keeps_view o s → keeps_view o (Some (go_append zero h s x).2).
Proof.
  intros Ho Hk. destruct o as [o|]; [|done]. simpl in Ho.
  destruct Ho as (arr & Harr & Hcap & Hlen).
  unfold go_append. case_decide as Hroom; simpl.
  - destruct s as [s|]; simpl in *; [|lia]. intros Heq. specialize (Hk Heq). lia.
  - apply lookup_lt_Some in Harr. lia.
Qed.

Lemma withDebuggingInitialized_arrays (st : Store) (ctx : Context) :
  let r := withDebuggingInitialized st ctx in
  codec_arrays r.1 = codec_arrays st ∧ tag_arrays r.1 = tag_arrays st ∧
  v_loggers r.2 = v_loggers ctx ∧ v_tags r.2 = v_tags ctx.
Proof. unfold withDebuggingInitialized. by repeat case_match. Qed.

Lemma attach_to_spec (st : Store) (ctx : Context) (a : attach) :
  ctx_wf st ctx →
  let r := attach_to st ctx a in
  loggers_of r.1 r.2 = attached_loggers a (loggers_of st ctx) ∧
  tags_of r.1 r.2 = attached_tags a (tags_of st ctx) ∧
  ctx_wf r.1 r.2.
Proof.
  intros [Hl Ht]. unfold loggers_of, tags_of, ctx_wf.
  destruct a as [src c | src tag | src k v]; simpl.
  - unfold WithLogger.
    pose proof (withDebuggingInitialized_arrays st ctx) as (Hc & Ha & Hvl & Hvt).
    destruct (withDebuggingInitialized st ctx) as [st1 ctx1]. simpl in *.
    pose proof (go_append_view nil_codec (codec_arrays st1) (v_loggers ctx1) c) as Hv.
    pose proof (go_append_wf nil_codec (codec_arrays st1) (v_loggers ctx1) c) as Hw.
    destruct (go_append nil_codec (codec_arrays st1) (v_loggers ctx1) c) as [h s]. simpl in *.
    rewrite Hc, Ha, Hvl, Hvt in *. auto.
  - unfold WithLogTag, with_tag.
    pose proof (go_append_view (mkKV "" "") (tag_arrays st) (v_tags ctx) (mkKV tag "")) as Hv.
    pose proof (go_append_wf (mkKV "" "") (tag_arrays st) (v_tags ctx) (mkKV tag "")) as Hw.
    destruct (go_append _ (tag_arrays st) (v_tags ctx) _) as [h s]. simpl in *. auto.
  - unfold WithLogTagPair, with_tag.
    pose proof (go_append_view (mkKV "" "") (tag_arrays st) (v_tags ctx) (mkKV k v)) as Hv.
    pose proof (go_append_wf (mkKV "" "") (tag_arrays st) (v_tags ctx) (mkKV k v)) as Hw.
    destruct (go_append _ (tag_arrays st) (v_tags ctx) _) as [h s]. simpl in *. auto.
Qed.

Lemma attach_to_frame (st : Store) (ctx o : Context) (a : attach) :
  ctx_wf st ctx → ctx_wf st o →
  let r := attach_to st ctx a in
  ctx_wf r.1 o ∧
  (keeps_view (v_loggers o) (v_loggers ctx) → loggers_of r.1 o = loggers_of st o) ∧
  (keeps_view (v_tags o) (v_tags ctx) → tags_of r.1 o = tags_of st o) ∧
  (keeps_view (v_loggers o) (v_loggers ctx) → keeps_view (v_loggers o) (v_loggers r.2)) ∧
  (keeps_view (v_tags o) (v_tags ctx) → keeps_view (v_tags o) (v_tags r.2)).
Proof.
  intros [Hl Ht] [Hol Hot]. unfold loggers_of, tags_of, ctx_wf.
  destruct a as [src c | src tag | src k v]; simpl.
  - unfold WithLogger.
    pose proof (withDebuggingInitialized_arrays st ctx) as (Hc & Ha & Hvl & Hvt).
    destruct (withDebuggingInitialized st ctx) as [st1 ctx1]. simpl in *.
    rewrite <- Hc in Hl, Hol. rewrite <- Hvl in Hl.
    pose proof (go_append_frame nil_codec _ _ _ c Hl Hol) as [Hw Hv].
    pose proof (go_append_keeps nil_codec _ (v_loggers ctx1) _ c Hol) as Hk.
    destruct (go_append nil_codec (codec_arrays st1) (v_loggers ctx1) c) as [h s]. simpl in *.
    rewrite Hc, Ha, Hvl, Hvt in *. auto.
  - unfold WithLogTag, with_tag.
    pose proof (go_append_frame (mkKV "" "") _ _ _ (mkKV tag "") Ht Hot) as [Hw Hv].
    pose proof (go_append_keeps (mkKV "" "") _ (v_tags ctx) _ (mkKV tag "") Hot) as Hk.
    destruct (go_append _ (tag_arrays st) (v_tags ctx) _) as [h s]. simpl in *. auto.
  - unfold WithLogTagPair, with_tag.
    pose proof (go_append_frame (mkKV "" "") _ _ _ (mkKV k v) Ht Hot) as [Hw Hv].
    pose proof (go_append_keeps (mkKV "" "") _ (v_tags ctx) _ (mkKV k v) Hot) as Hk.
    destruct (go_append _ (tag_arrays st) (v_tags ctx) _) as [h s]. simpl in *. auto.
Qed.

Lemma run_attach_ok (st : Store) (p : Context) (pool : list Context) (a : attach) :
  pool_ok st p pool →
  let r := run_attach (st, pool) a in
  pool_ok r.1 p r.2 ∧ loggers_of r.1 p = loggers_of st p ∧ tags_of r.1 p = tags_of st p.
Proof.
  intros [Hp Hpool]. unfold run_attach. simpl.
  destruct (pool !! attach_src a) as [X|] eqn:HX; simpl; [|done].
  pose proof (Forall_lookup_1 _ _ _ _ Hpool HX) as (HXwf & HXl & HXt).
  pose proof (attach_to_spec st X a HXwf) as (_ & _ & Hnew).
  pose proof (attach_to_frame st X p a HXwf Hp) as (Hpwf & Hvl & Hvt & Hkl & Hkt).
  assert (Hothers : ∀ Y, ctx_wf st Y → ctx_wf (attach_to st X a).1 Y).
  { intros Y HY. by pose proof (attach_to_frame st X Y a HXwf HY) as (? & _). }
  destruct (attach_to st X a) as [st' X']. simpl in *.
  split_and!; auto. split; [done|].
  apply Forall_app. split.
  - eapply Forall_impl; [exact Hpool|]. simpl. intros Y (HY & ? & ?). auto.
  - apply Forall_singleton. auto.
Qed.

Lemma run_attaches_ok (script : list attach) (st : Store) (p : Context) (pool : list Context) :
  pool_ok st p pool →
  let r := run_attaches st pool script in
  pool_ok r.1 p r.2 ∧ loggers_of r.1 p = loggers_of st p ∧ tags_of r.1 p = tags_of st p.
Proof.
  revert st pool. unfold run_attaches.
  induction script as [|a script IH]; intros st pool Hok; simpl; [done|].
  pose proof (run_attach_ok st p pool a Hok) as (Hok' & Hl & Ht).
  destruct (run_attach (st, pool) a) as [st' pool']. simpl in *.
  specialize (IH st' pool' Hok'). simpl in IH.
  destruct IH as (? & -> & ->). auto.
Qed.

(** C4: each attach operation returns a context whose list is the parent's
    list followed by the attached element, the other list being the parent's,
    and leaves both lists of the parent as they were; and the parent's lists stay
    as they were through any sequence of attach operations on the parent and on
    the contexts derived from it, such as two children of the one parent. *)
Theorem attach_appends_and_keeps_parent (st : Store) (ctx : Context) :
  ctx_wf st ctx →
  (∀ c, let r := WithLogger st ctx c in
        loggers_of r.1 r.2 = loggers_of st ctx ++ [c] ∧
        tags_of r.1 r.2 = tags_of st ctx ∧
        loggers_of r.1 ctx = loggers_of st ctx ∧ tags_of r.1 ctx = tags_of st ctx ∧
        ctx_wf r.1 r.2) ∧
  (∀ tag, let r := WithLogTag st ctx tag in
        loggers_of r.1 r.2 = loggers_of st ctx ∧
        tags_of r.1 r.2 = tags_of st ctx ++ [{| Key := tag; Value := "" |}] ∧
        loggers_of r.1 ctx = loggers_of st ctx ∧ tags_of r.1 ctx = tags_of st ctx ∧
        ctx_wf r.1 r.2) ∧
  (∀ k v, let r := WithLogTagPair st ctx k v in
        loggers_of r.1 r.2 = loggers_of st ctx ∧
        tags_of r.1 r.2 = tags_of st ctx ++ [{| Key := k; Value := v |}] ∧
        loggers_of r.1 ctx = loggers_of st ctx ∧ tags_of r.1 ctx = tags_of st ctx ∧
        ctx_wf r.1 r.2) ∧
  (∀ script, let r := run_attaches st [ctx] script in
        loggers_of r.1 ctx = loggers_of st ctx ∧ tags_of r.1 ctx = tags_of st ctx).
Proof.
  intros Hwf.
  assert (Hone : ∀ a, let r := attach_to st ctx a in
            loggers_of r.1 r.2 = attached_loggers a (loggers_of st ctx) ∧
            tags_of r.1 r.2 = attached_tags a (tags_of st ctx) ∧
            loggers_of r.1 ctx = loggers_of st ctx ∧ tags_of r.1 ctx = tags_of st ctx ∧
            ctx_wf r.1 r.2).
  { intros a.
    pose proof (attach_to_spec st ctx a Hwf) as (? & ? & ?).
    pose proof (attach_to_frame st ctx ctx a Hwf Hwf) as (_ & Hl & Ht & _).
    split_and!; auto using keeps_view_refl. }
  split_and!.
  - intros c. apply (Hone (AttachLogger 0 c)).
  - intros tag. apply (Hone (AttachTag 0 tag)).
  - intros k v. apply (Hone (AttachTagPair 0 k v)).
  - intros script.
    assert (Hok : pool_ok st ctx [ctx]).
    { split; [done|]. apply Forall_singleton. auto using keeps_view_refl. }
    by pose proof (run_attaches_ok script st ctx [ctx] Hok) as (_ & ? & ?).
Qed.

(** ** The dispatch engine *)

(** *** Counting threads *)

Lemma sum_list_with_insert {A} (f : A → nat) (l : list A) (i : nat) (x y : A) :
  l !! i = Some x →
  (sum_list_with f (<[i := y]> l) + f x = sum_list_with f l + f y)%nat.
Proof.
  revert i. induction l as [|z l IH]; intros [|i] Hi; simplify_eq/=; [lia|].
  specialize (IH i Hi). lia.
Qed.

Lemma sum_list_with_lookup {A} (f : A → nat) (l : list A) (i : nat) (x : A) :
  l !! i = Some x → (f x ≤ sum_list_with f l)%nat.
Proof.
  intros Hi. apply sum_list_with_in. by eapply list_elem_of_lookup_2.
Qed.

Lemma sum_list_with_lookup2 {A} (f : A → nat) (l : list A) (i j : nat) (x y : A) :
  l !! i = Some x → l !! j = Some y → i ≠ j → (f x + f y ≤ sum_list_with f l)%nat.
Proof.
  revert i j. induction l as [|z l IH]; intros [|i] [|j] Hi Hj Hne; simplify_eq/=.
  - pose proof (sum_list_with_lookup f l j y Hj). lia.
  - pose proof (sum_list_with_lookup f l i x Hi). lia.
  - specialize (IH i j Hi Hj ltac:(lia)). lia.
Qed.

Lemma sum_list_with_le {A} (f g : A → nat) (l : list A) :
  (∀ x, f x ≤ g x)%nat → (sum_list_with f l ≤ sum_list_with g l)%nat.
Proof.
  intros H. induction l as [|z l IH]; simpl; [done|]. specialize (H z). lia.
Qed.

Lemma sum_list_with_lt {A} (f g : A → nat) (l : list A) (i : nat) (x : A) :
  (∀ x, f x ≤ g x)%nat → l !! i = Some x → (f x < g x)%nat →
  (sum_list_with f l < sum_list_with g l)%nat.
Proof.
  intros H. revert i. induction l as [|z l IH]; intros [|i] Hi Hlt; simplify_eq/=.
  - pose proof (sum_list_with_le f g l H). lia.
  - specialize (IH i Hi Hlt). specialize (H z). lia.
Qed.

Lemma sum_list_with_zero {A} (f : A → nat) (l : list A) (i : nat) (x : A) :
  sum_list_with f l = 0%nat → l !! i = Some x → f x = 0%nat.
Proof.
  intros H0 Hi. pose proof (sum_list_with_lookup f l i x Hi). lia.
Qed.

(** *** The cases of a step *)

Ltac step_finish H :=
  simpl in H;
  repeat match type of H with
         | context [mbind _ ?x] => destruct x eqn:?; simpl in H
         | context [match ?x with _ => _ end] => destruct x eqn:?; simpl in H
         | context [if ?x then _ else _] => destruct x eqn:?; simpl in H
         end;
  try discriminate H;
  injection H as <-.

Ltac step_cases H :=
  unfold exec in H;
  destruct (st_panicked _) eqn:Hpanicked; [discriminate H|];
  let th := fresh "th" in
  destruct (st_threads _ !! _) as [th|] eqn:Hth; [|discriminate H];
  simpl in H;
  destruct th as [script|fid pc rest|pc rest|fid c pc|fid pc];
  [ unfold step_caller in H;
    destruct script as [|[ctx message data|] rest]; [discriminate H| |]
  | unfold step_log in H;
    destruct (st_frames _ !! fid) as [f|] eqn:Hf; [|discriminate H];
    simpl in H; destruct pc as [| | | | | | |[|c todo]|]
  | unfold step_sync in H; destruct pc as [| |tok|tok]
  | unfold step_codec in H;
    destruct (st_frames _ !! fid) as [f|] eqn:Hf; [|discriminate H];
    simpl in H; destruct pc as [|[b|]|b|b|wrote|wrote]
  | unfold step_watcher in H;
    destruct (st_frames _ !! fid) as [f|] eqn:Hf; [|discriminate H];
    simpl in H; destruct pc ];
  step_finish H.

Lemma sum_list_with_insert_app {A} (f : A → nat) (l : list A) (i : nat) (x y z : A) :
  l !! i = Some x →
  (sum_list_with f (<[i := y]> (l ++ [z])) + f x = sum_list_with f l + f y + f z)%nat.
Proof.
  intros Hi.
  pose proof (sum_list_with_insert f (l ++ [z]) i x y (lookup_app_l_Some _ _ _ _ Hi)) as H.
  rewrite sum_list_with_app in H. simpl in H. lia.
Qed.

(** The sums of the goal over the new threads, in terms of the old ones. *)
Ltac count_threads Hth :=
  repeat match goal with
         | |- context [sum_list_with ?f (<[?i := ?y]> (?l ++ [?z]))] =>
             let E := fresh "Hsum" in
             pose proof (sum_list_with_insert_app f l i _ y z Hth) as E;
             generalize dependent (sum_list_with f (<[i := y]> (l ++ [z]))); intros
         | |- context [sum_list_with ?f (<[?i := ?y]> ?l)] =>
             let E := fresh "Hsum" in
             pose proof (sum_list_with_insert f l i _ y Hth) as E;
             generalize dependent (sum_list_with f (<[i := y]> l)); intros
         end.

Lemma step_mutex (a : action) (s s' : state) :
  basic_inv s → act a s = Some s' →
  sum_list_with in_crit (st_threads s') = if st_mu s' then 1%nat else 0%nat.
Proof.
  intros [Hmu _ _ _ _ _] H. destruct a as [i|d]; simpl in H; [|by simplify_eq].
  step_cases H; simpl;
    pose proof (sum_list_with_lookup in_crit _ _ _ Hth) as Hcrit;
    count_threads Hth; simpl in *; destruct (st_mu s); simplify_eq; lia.
Qed.

Lemma crit_not_at_store (s : state) (i : nat) (th : thread) :
  basic_inv s → st_threads s !! i = Some th → in_crit th = 1%nat → at_store th = 0%nat →
  sum_list_with at_store (st_threads s) = 0%nat.
Proof.
  intros [Hmu _ _ _ _ _] Hth Hc Hs.
  assert (Hlt : (sum_list_with at_store (st_threads s) < sum_list_with in_crit (st_threads s))%nat).
  { apply (sum_list_with_lt _ _ _ i th); [|done|lia].
    intros [|? [] ?|[] ?| |]; simpl; lia. }
  destruct (st_mu s); lia.
Qed.

Lemma step_token (a : action) (s s' : state) :
  basic_inv s → act a s = Some s' →
  length (st_chans s') = (st_writeReady s' + 1 + sum_list_with at_store (st_threads s'))%nat.
Proof.
  intros Hinv H. pose proof (bi_token s Hinv) as Htok.
  pose proof (bi_threads s Hinv) as Hok.
  destruct a as [i|d]; simpl in H; [|by simplify_eq].
  step_cases H; simpl;
    pose proof (Forall_lookup_1 _ _ _ _ Hok Hth) as Hme; simpl in Hme;
    try (destruct Hme as (f0 & Hf0 & Hme); destruct_and?; simplify_eq);
    count_threads Hth; simpl in *;
    rewrite ?length_app, ?length_insert; simpl; lia.
Qed.

Lemma no_log_thread_beyond (s : state) (g : nat) :
  Forall (thread_ok s) (st_threads s) → (length (st_frames s) ≤ g)%nat →
  sum_list_with (log_thread g) (st_threads s) = 0%nat.
Proof.
  intros Hok Hg. induction Hok as [|th l Hth _ IH]; simpl; [done|].
  rewrite IH. destruct th as [|fid pc rest| | |]; simpl; try done.
  destruct Hth as (f & Hf & _). apply lookup_lt_Some in Hf.
  case_decide; lia.
Qed.

Lemma step_owner (a : action) (s s' : state) (g : nat) :
  basic_inv s → act a s = Some s' →
  (sum_list_with (log_thread g) (st_threads s') ≤ 1)%nat.
Proof.
  intros Hinv H. pose proof (bi_owner s Hinv g) as Hown.
  pose proof (bi_threads s Hinv) as Hok.
  destruct a as [i|d]; simpl in H; [|by simplify_eq].
  step_cases H; simpl; count_threads Hth; simpl in *; repeat case_decide; try lia.
  subst g. rewrite (no_log_thread_beyond s) in * by done. lia.
Qed.

Lemma instant_Now (s : state) : instant (Now s) = st_clock s.
Proof. unfold instant, Now. simpl. Z.div_mod_to_equations. lia. Qed.

Lemma frame_ok_mono (s s' : state) (f : frame) :
  (length (st_chans s) ≤ length (st_chans s'))%nat →
  st_clock s ≤ st_clock s' →
  (st_writeReady s ≤ st_writeReady s')%nat →
  frame_ok s f → frame_ok s' f.
Proof.
  intros Hch Hcl Hwr (H1 & H2 & H3). split_and!.
  - intros a Ha. specialize (H1 a Ha). lia.
  - intros n Hn. destruct (H2 n Hn) as [? ?]. split; [lia|done].
  - intros t Ht. destruct (H3 t Ht) as (? & n & ? & ?). split; [lia|]. exists n. split; [done|lia].
Qed.

Lemma step_frames (a : action) (s s' : state) :
  basic_inv s → act a s = Some s' → Forall (frame_ok s') (st_frames s').
Proof.
  intros Hinv H. pose proof (bi_frames s Hinv) as Hfr.
  pose proof (bi_threads s Hinv) as Hok. pose proof (bi_token s Hinv) as Htok.
  destruct a as [i|d]; simpl in H.
  2:{ simplify_eq. simpl. eapply Forall_impl; [done|]. intros f.
      apply frame_ok_mono; simpl; lia. }
  step_cases H; simpl;
    pose proof (Forall_lookup_1 _ _ _ _ Hok Hth) as Hme; simpl in Hme;
    try (destruct Hme as (f0 & Hf0 & Hme); destruct_and?; simplify_eq);
    try done;
    try pose proof (Forall_lookup_1 _ _ _ _ Hfr Hf) as (H1 & H2 & H3);
    first [apply Forall_insert | apply Forall_app_2 | idtac];
    try (eapply Forall_impl; [exact Hfr|]; intros ?; apply frame_ok_mono; simpl;
         rewrite ?length_app, ?length_insert; lia);
    try apply Forall_singleton;
    unfold frame_ok; simpl; rewrite ?length_app, ?length_insert, ?instant_Now; simpl.
  all: split_and?; try done; intros; simplify_eq; try lia; eauto with lia.
  all: apply Forall_singleton; split_and!; simpl; intros; simplify_eq.
  all: try (pose proof (crit_not_at_store s i _ Hinv Hth eq_refl eq_refl)).
  all: try (change (instant (Now s) ≤ st_clock s ∧
                    ∃ n, fr_nextWriteReady f = Some n ∧ (n ≤ st_writeReady s)%nat);
            rewrite instant_Now).
  all: try (by eauto); try lia; try (split; [lia|]; eauto with lia).
Qed.

(** The threads after a step: the one that moved, the others, the new ones. *)
Lemma lookup_threads_after {A} (l : list A) (i : nat) (x y : A) (news : list A) (j : nat) (z : A) :
  l !! i = Some x → (<[i := y]> (l ++ news)) !! j = Some z →
  (j = i ∧ z = y) ∨ (j ≠ i ∧ l !! j = Some z) ∨ ((length l ≤ j)%nat ∧ z ∈ news).
Proof.
  intros Hi Hj. apply lookup_lt_Some in Hi as Hlt.
  destruct (decide (j = i)) as [->|Hne].
  - rewrite list_lookup_insert_eq in Hj by (rewrite length_app; lia). left. by simplify_eq.
  - rewrite list_lookup_insert_ne in Hj by done.
    apply lookup_app_Some in Hj as [Hj | [Hge Hj]]; [by right; left|].
    right; right. split; [done|]. by eapply list_elem_of_lookup_2.
Qed.

Lemma lookup_threads_after' {A} (l : list A) (i : nat) (x y : A) (j : nat) (z : A) :
  l !! i = Some x → (<[i := y]> l) !! j = Some z →
  (j = i ∧ z = y) ∨ (j ≠ i ∧ l !! j = Some z).
Proof.
  intros Hi Hj. rewrite <- (app_nil_r l) in Hj.
  destruct (lookup_threads_after l i x y [] j z Hi Hj) as [?|[?|[_ Hin]]]; auto.
  by apply elem_of_nil in Hin.
Qed.

Lemma lookup_frame_after (F : list frame) (fid : nat) (f f' : frame) (g : nat) (h : frame) :
  F !! fid = Some f → F !! g = Some h →
  <[fid := f']> F !! g = Some (if decide (g = fid) then f' else h).
Proof.
  intros Hf Hg. case_decide as Heq.
  - subst. apply list_lookup_insert_eq. by eapply lookup_lt_Some.
  - by rewrite list_lookup_insert_ne.
Qed.

(** Two threads in the critical section are one thread. *)
Lemma mutex_excludes (s : state) (i j : nat) (th th' : thread) :
  basic_inv s → st_threads s !! i = Some th → st_threads s !! j = Some th' →
  in_crit th = 1%nat → in_crit th' = 1%nat → i = j.
Proof.
  intros [Hmu _ _ _ _ _] Hi Hj Hc Hc'. destruct (decide (i = j)) as [|Hne]; [done|].
  pose proof (sum_list_with_lookup2 in_crit _ _ _ _ _ Hi Hj Hne). destruct (st_mu s); lia.
Qed.

(** Two threads in [Log] on one frame are one thread. *)
Lemma owner_excludes (s : state) (i j fid : nat) (pc pc' : log_pc) (rest rest' : list cmd) :
  basic_inv s → st_threads s !! i = Some (TLog fid pc rest) →
  st_threads s !! j = Some (TLog fid pc' rest') → i = j.
Proof.
  intros Hinv Hi Hj. destruct (decide (i = j)) as [|Hne]; [done|].
  pose proof (sum_list_with_lookup2 (log_thread fid) _ _ _ _ _ Hi Hj Hne) as H.
  pose proof (bi_owner s Hinv fid). simpl in H. rewrite decide_True in H by done. lia.
Qed.

Lemma thread_ok_other (s s' : state) (th : thread) :
  thread_ok s th →
  (∀ g h, thread_frame th = Some g → st_frames s !! g = Some h →
     ∃ h', st_frames s' !! g = Some h' ∧ fr_writeReady h' = fr_writeReady h ∧
           fr_nextWriteReady h' = fr_nextWriteReady h ∧ fr_t h' = fr_t h) →
  (in_crit th = 1%nat → st_writeReady s' = st_writeReady s) →
  thread_ok s' th.
Proof.
  intros Hok Hfr Hwr.
  destruct th as [|fid pc rest| |fid c pc|fid pc]; simpl in *; try done.
  - destruct Hok as (f & Hf & Hc). destruct (Hfr fid f eq_refl Hf) as (f' & Hf' & E1 & E2 & E3).
    exists f'. split; [done|]. rewrite E1, E2, E3.
    destruct pc; try done; rewrite Hwr by done; done.
  - destruct Hok as (f & Hf & Hc). destruct (Hfr fid f eq_refl Hf) as (f' & Hf' & E1 & E2 & E3).
    exists f'. by rewrite E3.
  - destruct Hok as (f & Hf & Hc). destruct (Hfr fid f eq_refl Hf) as (f' & Hf' & E1 & E2 & E3).
    exists f'. by rewrite E3.
Qed.

Lemma step_threads (a : action) (s s' : state) :
  basic_inv s → act a s = Some s' → Forall (thread_ok s') (st_threads s').
Proof.
  intros Hinv H. pose proof (bi_threads s Hinv) as Hok.
  pose proof (bi_token s Hinv) as Htok.
  destruct a as [i|d]; simpl in H.
  2:{ simplify_eq. eapply Forall_impl; [exact Hok|]. by intros []. }
  step_cases H; apply Forall_lookup; intros j thj Hj; simpl in Hj;
    pose proof (Forall_lookup_1 _ _ _ _ Hok Hth) as Hme; simpl in Hme;
    try (destruct Hme as (f0 & Hf0 & Hme); destruct_and?; simplify_eq);
    first [ apply (lookup_threads_after _ _ _ _ _ _ _ Hth) in Hj as [[-> ->]|[[Hne Hj]|[Hge Hj]]]
          | apply (lookup_threads_after' _ _ _ _ _ _ Hth) in Hj as [[-> ->]|[Hne Hj]]
          | idtac ];
    try (apply list_elem_of_singleton in Hj as ->);
    try (pose proof (Forall_lookup_1 _ _ _ _ Hok Hj) as Hother).
  all: try exact Hother.
  all: try done.
  (* the thread that moved, and the new ones *)
  all: try (simpl; eexists; split;
            [ first [ exact Hf
                    | apply list_lookup_insert_eq; by eapply lookup_lt_Some
                    | by apply list_lookup_middle ]
            | simpl; by eauto ]).
  all: try (pose proof (crit_not_at_store s i _ Hinv Hth eq_refl eq_refl);
            simpl; eexists; split; [apply list_lookup_insert_eq; by eapply lookup_lt_Some|];
            simpl; split_and!; [done | f_equal; lia | done]).
  (* the other threads *)
  all: apply (thread_ok_other s); [exact Hother | | ].
  all: try (intros Hcrit; simpl; try done;
            by pose proof (mutex_excludes s i j _ _ Hinv Hth Hj eq_refl Hcrit)).
  all: intros g h Hg Hh; simpl.
  all: try (exists h; split; [by apply lookup_app_l_Some|done]).
  all: try (exists h; split; [exact Hh|done]).
  all: eexists; split; [by apply (lookup_frame_after _ _ _ _ _ _ Hf Hh)|].
  all: case_decide; [subst g; simplify_eq|done]; try done.
  all: destruct thj as [|fidj pcj restj| |fidj cj pcj|fidj pcj]; simplify_eq/=.
  all: try by pose proof (owner_excludes s i j _ _ _ _ _ Hinv Hth Hj).
  all: destruct Hother as (fo & Hfo & [t Ht]); simplify_eq.
Qed.

Lemma step_unique (a : action) (s s' : state) (g h : nat) (fg fh : frame) (n : nat) :
  basic_inv s → act a s = Some s' →
  st_frames s' !! g = Some fg → st_frames s' !! h = Some fh →
  fr_nextWriteReady fg = Some n → fr_nextWriteReady fh = Some n → g = h.
Proof.
  intros Hinv H. pose proof (bi_unique s Hinv) as Huniq.
  pose proof (bi_frames s Hinv) as Hfr.
  destruct a as [i|d]; simpl in H; [|simplify_eq; by eauto].
  step_cases H; simpl; intros Hg Hh Hng Hnh; try by eauto.
  all: try (apply (lookup_threads_after' _ _ _ _ _ _ Hf) in Hg as [[-> ->]|[Hneg Hg]];
            apply (lookup_threads_after' _ _ _ _ _ _ Hf) in Hh as [[-> ->]|[Hneh Hh]];
            simpl in *; try done; try by eauto).
  - apply lookup_app_Some in Hg as [Hg|[_ Hg]]; apply lookup_app_Some in Hh as [Hh|[_ Hh]];
      try by eauto.
    + apply list_lookup_singleton_Some in Hh as [_ <-]. done.
    + apply list_lookup_singleton_Some in Hg as [_ <-]. done.
    + apply list_lookup_singleton_Some in Hg as [_ <-]. done.
  - simplify_eq. pose proof (Forall_lookup_1 _ _ _ _ Hfr Hh) as (_ & H2 & _).
    destruct (H2 _ Hnh). lia.
  - simplify_eq. pose proof (Forall_lookup_1 _ _ _ _ Hfr Hg) as (_ & H2 & _).
    destruct (H2 _ Hng). lia.
Qed.

Lemma sum_callers (f : thread → nat) (scripts : list (list cmd)) :
  (∀ script, f (TCaller script) = 0%nat) →
  sum_list_with f (TCaller <$> scripts) = 0%nat.
Proof.
  intros Hf. induction scripts as [|x l IH]; [done|].
  rewrite fmap_cons. simpl. rewrite Hf, IH. done.
Qed.

Lemma basic_inv_init (now : Z) (scripts : list (list cmd)) : basic_inv (init now scripts).
Proof.
  split; simpl.
  - by apply sum_callers.
  - rewrite sum_callers by done. reflexivity.
  - apply Forall_fmap. by apply Forall_true.
  - done.
  - intros g. rewrite sum_callers by done. lia.
  - intros g h f f' n Hg. by rewrite lookup_nil in Hg.
Qed.

Lemma basic_inv_step (a : action) (s s' : state) :
  basic_inv s → act a s = Some s' → basic_inv s'.
Proof.
  intros Hinv H. split.
  - by eapply step_mutex.
  - by eapply step_token.
  - by eapply step_threads.
  - by eapply step_frames.
  - intros g. by eapply step_owner.
  - intros g h f f' n. by eapply step_unique.
Qed.

Lemma run_app (s : state) (l1 l2 : list action) :
  run s (l1 ++ l2) = s' ← run s l1; run s' l2.
Proof.
  revert s. induction l1 as [|a l1 IH]; intros s; simpl; [done|].
  destruct (act a s); simpl; [apply IH|done].
Qed.

(** What holds at the start and is kept by every step holds in every state
    that the process reaches. *)
Lemma run_invariant (P : state → Prop) (s : state) (schedule : list action) (s' : state) :
  (∀ a s s', P s → act a s = Some s' → P s') →
  P s → run s schedule = Some s' → P s'.
Proof.
  intros Hstep. revert s. induction schedule as [|a l IH]; intros s Hs H; simpl in H.
  - by simplify_eq.
  - destruct (act a s) as [s1|] eqn:Ha; simpl in H; [|done]. eauto.
Qed.

Lemma reach_basic_inv (scripts : list (list cmd)) (s : state) :
  reach scripts s → basic_inv s.
Proof.
  intros (now & schedule & H).
  eapply (run_invariant basic_inv); [|apply basic_inv_init|done].
  intros a s1 s2. apply basic_inv_step.
Qed.

(** *** Timestamps *)

Lemma step_stamps (a : action) (s s' : state) :
  basic_inv s → stamps_ordered s → act a s = Some s' → stamps_ordered s'.
Proof.
  intros Hinv Hst H. pose proof (bi_frames s Hinv) as Hfr.
  pose proof (bi_threads s Hinv) as Hok.
  destruct a as [i|d]; simpl in H; [|simplify_eq; by eauto].
  step_cases H; simpl; intros g h fg fh ng nh tg th' Hg Hh Hng Hnh Htg Hth' Hle;
    try by eauto.
  all: pose proof (Forall_lookup_1 _ _ _ _ Hok Hth) as Hme; simpl in Hme;
    try (destruct Hme as (f0 & Hf0 & Hme); destruct_and?; simplify_eq).
  all: try (apply (lookup_threads_after' _ _ _ _ _ _ Hf) in Hg as [[-> ->]|[Hneg Hg]];
            apply (lookup_threads_after' _ _ _ _ _ _ Hf) in Hh as [[-> ->]|[Hneh Hh]];
            simpl in *; simplify_eq; try done; try by eauto).
  - simpl in Hg, Hh.
    apply lookup_app_Some in Hg as [Hg|[_ Hg]]; apply lookup_app_Some in Hh as [Hh|[_ Hh]];
      try by eauto.
    + apply list_lookup_singleton_Some in Hh as [_ <-]. done.
    + apply list_lookup_singleton_Some in Hg as [_ <-]. done.
    + apply list_lookup_singleton_Some in Hg as [_ <-]. done.
  - pose proof (Forall_lookup_1 _ _ _ _ Hfr Hh) as (_ & _ & H3).
    destruct (H3 _ Hth') as (_ & k & Hk & Hkle). simplify_eq.
    assert (nh = st_writeReady s) as -> by lia.
    by pose proof (bi_unique s Hinv _ _ _ _ _ Hf Hh Hng Hnh).
  - pose proof (Forall_lookup_1 _ _ _ _ Hfr Hg) as (_ & _ & H3).
    destruct (H3 _ Htg) as (Hclock & _). rewrite instant_Now. done.
Qed.

Lemma reach_stamps_ordered (scripts : list (list cmd)) (s : state) :
  reach scripts s → stamps_ordered s.
Proof.
  intros (now & schedule & H).
  assert (basic_inv s ∧ stamps_ordered s) as [_ ?]; [|done].
  eapply (run_invariant (λ s, basic_inv s ∧ stamps_ordered s)); [| |done].
  - intros a s1 s2 [Hb Hs] Ha. split; [by eapply basic_inv_step|by eapply step_stamps].
  - split; [apply basic_inv_init|]. intros g h fg fh n m tg th Hg. by destruct g.
Qed.

(** *** The wait groups *)

Lemma sum_beyond (w : thread → nat) (s : state) (g : nat) :
  (∀ th, thread_frame th ≠ Some g → w th = 0%nat) →
  Forall (thread_ok s) (st_threads s) → (length (st_frames s) ≤ g)%nat →
  sum_list_with w (st_threads s) = 0%nat.
Proof.
  intros Hw Hok Hg. induction Hok as [|th l Hth _ IH]; simpl; [done|].
  rewrite IH, Hw; [done|].
  destruct th as [|fid pc rest| |fid c pc|fid pc]; simpl in *; try done;
    destruct Hth as (f & Hf & _); apply lookup_lt_Some in Hf; intros ?; simplify_eq; lia.
Qed.

(** The frame at [g] after a step that writes the frame at [fid]. *)
Ltac frame_after Hf Hg :=
  apply (lookup_threads_after' _ _ _ _ _ _ Hf) in Hg as [[-> ->]|[? Hg]].

Lemma weight_off_frame (g : nat) (th : thread) :
  thread_frame th ≠ Some g →
  pending_encodes g th = 0%nat ∧ pending_writes g th = 0%nat ∧ spawning g th = 0%nat ∧
  ∀ P f, attached P g f th = 0%nat.
Proof.
  intros Hne. destruct th as [|fid pc rest| |fid c pc|fid pc]; simpl in *; try done;
    unfold on_frame; split_and!; intros; repeat case_decide; simplify_eq; try done;
    by destruct pc.
Qed.

Lemma step_encodes (a : action) (s s' : state) (g : nat) (f' : frame) :
  basic_inv s → count_inv s → act a s = Some s' →
  st_frames s' !! g = Some f' →
  fr_encodesDone f' = sum_list_with (pending_encodes g) (st_threads s').
Proof.
  intros Hinv Hci H. pose proof (ci_encodes s Hci) as Hold.
  pose proof (bi_threads s Hinv) as Hok.
  destruct a as [i|d]; simpl in H; [|simplify_eq; by eauto].
  step_cases H; simpl; intros Hg; try by eauto.
  all: try frame_after Hf Hg.
  all: try (apply lookup_app_Some in Hg as [Hg|[Hge Hg]];
            [|apply list_lookup_singleton_Some in Hg as [Hidx <-];
              pose proof (sum_beyond (pending_encodes g) s g
                            (λ th0 Hth0, ltac:(by destruct (weight_off_frame g th0 Hth0)
                                                    as (? & ? & ? & ?))) Hok Hge) as Hzero]).
  all: try (specialize (Hold _ _ Hg)).
  all: try (pose proof (Hold _ _ Hf) as Hold').
  all: count_threads Hth; simpl in *; unfold on_frame in *; repeat case_decide; simplify_eq;
    first [lia | apply lookup_lt_Some in Hg; lia].
Qed.

Lemma step_writes (a : action) (s s' : state) (g : nat) (f' : frame) :
  basic_inv s → count_inv s → act a s = Some s' →
  st_frames s' !! g = Some f' →
  fr_writesDone f' = sum_list_with (pending_writes g) (st_threads s').
Proof.
  intros Hinv Hci H. pose proof (ci_writes s Hci) as Hold.
  pose proof (bi_threads s Hinv) as Hok.
  destruct a as [i|d]; simpl in H; [|simplify_eq; by eauto].
  step_cases H; simpl; intros Hg; try by eauto.
  all: try frame_after Hf Hg.
  all: try (apply lookup_app_Some in Hg as [Hg|[Hge Hg]];
            [|apply list_lookup_singleton_Some in Hg as [Hidx <-];
              pose proof (sum_beyond (pending_writes g) s g
                            (λ th0 Hth0, ltac:(by destruct (weight_off_frame g th0 Hth0)
                                                    as (? & ? & ? & ?))) Hok Hge) as Hzero]).
  all: try (specialize (Hold _ _ Hg)).
  all: try (pose proof (Hold _ _ Hf) as Hold').
  all: count_threads Hth; simpl in *; unfold on_frame in *; repeat case_decide; simplify_eq;
    first [lia | apply lookup_lt_Some in Hg; lia].
Qed.

Lemma step_spawning (a : action) (s s' : state) (g : nat) (f' : frame) :
  basic_inv s → count_inv s → act a s = Some s' →
  st_frames s' !! g = Some f' →
  sum_list_with (spawning g) (st_threads s') = 1%nat.
Proof.
  intros Hinv Hci H. pose proof (ci_spawning s Hci) as Hold.
  pose proof (bi_threads s Hinv) as Hok.
  destruct a as [i|d]; simpl in H; [|simplify_eq; by eauto].
  step_cases H; simpl; intros Hg; try by eauto.
  all: try frame_after Hf Hg.
  all: try (apply lookup_app_Some in Hg as [Hg|[Hge Hg]];
            [|apply list_lookup_singleton_Some in Hg as [Hidx <-];
              pose proof (sum_beyond (spawning g) s g
                            (λ th0 Hth0, ltac:(by destruct (weight_off_frame g th0 Hth0)
                                                    as (? & ? & ? & ?))) Hok Hge) as Hzero]).
  all: try (specialize (Hold _ _ Hg)).
  all: try (pose proof (Hold _ _ Hf) as Hold').
  all: count_threads Hth; simpl in *; unfold on_frame in *; repeat case_decide; simplify_eq;
    first [lia | apply lookup_lt_Some in Hg; lia].
Qed.

Lemma step_attached (a : action) (s s' : state) (P : Codec → bool) (g : nat) (f' : frame) :
  basic_inv s → count_inv s → act a s = Some s' →
  st_frames s' !! g = Some f' →
  sum_list_with (attached P g (fr_loggers f')) (st_threads s') =
  count_codecs P (fr_loggers f').
Proof.
  intros Hinv Hci H. pose proof (ci_attached s Hci P) as Hold.
  pose proof (bi_threads s Hinv) as Hok.
  destruct a as [i|d]; simpl in H; [|simplify_eq; by eauto].
  step_cases H; simpl; intros Hg; try by eauto.
  all: try frame_after Hf Hg.
  all: try (apply lookup_app_Some in Hg as [Hg|[Hge Hg]];
            [|pose proof (sum_beyond (attached P g (fr_loggers f')) s g
                            (λ th0 Hth0, ltac:(by destruct (weight_off_frame g th0 Hth0)
                                                    as (? & ? & ? & ?))) Hok Hge) as Hzero;
              apply list_lookup_singleton_Some in Hg as [Hidx <-]]).
  all: try (specialize (Hold _ _ Hg)).
  all: try (pose proof (Hold _ _ Hf) as Hold').
  all: count_threads Hth; simpl in *; unfold on_frame in *; repeat case_decide; simplify_eq;
    first [lia | apply lookup_lt_Some in Hg; lia].
Qed.

Lemma count_inv_init (now : Z) (scripts : list (list cmd)) : count_inv (init now scripts).
Proof. split; intros; by destruct g. Qed.

Lemma count_inv_step (a : action) (s s' : state) :
  basic_inv s → count_inv s → act a s = Some s' → count_inv s'.
Proof.
  intros Hinv Hci H. split.
  - intros g f. by eapply step_encodes.
  - intros g f. by eapply step_writes.
  - intros P g f. by eapply step_attached.
  - intros g f. by eapply step_spawning.
Qed.

Lemma reach_count_inv (scripts : list (list cmd)) (s : state) :
  reach scripts s → basic_inv s ∧ count_inv s.
Proof.
  intros (now & schedule & H).
  eapply (run_invariant (λ s, basic_inv s ∧ count_inv s)); [| |done].
  - intros a s1 s2 [Hb Hc] Ha. split; [by eapply basic_inv_step|by eapply count_inv_step].
  - split; [apply basic_inv_init|apply count_inv_init].
Qed.
(** *** [Log] and its goroutines *)

Lemma sum_list_with_ext_lookup {A} (f g : A → nat) (l : list A) :
  (∀ j x, l !! j = Some x → f x = g x) → sum_list_with f l = sum_list_with g l.
Proof.
  induction l as [|x l IH]; intros H; simpl; [done|].
  rewrite (H 0%nat x eq_refl), IH; [done|]. intros j y Hj. by apply (H (S j)).
Qed.

Lemma sum_list_with_all_zero {A} (f : A → nat) (l : list A) :
  (∀ j x, l !! j = Some x → f x = 0%nat) → sum_list_with f l = 0%nat.
Proof.
  intros H. rewrite (sum_list_with_ext_lookup f (λ _, 0%nat)) by done.
  clear H. by induction l.
Qed.

Lemma step_handed_over (g : nat) (a : action) (s s' : state) :
  handed_over g s → act a s = Some s' → handed_over g s'.
Proof.
  intros (Hinv & Hci & Hlt & Hlog & Hpend) H.
  split_and!; [by eapply basic_inv_step | by eapply count_inv_step | | |].
  all: destruct a as [i|d]; simpl in H; [|by simplify_eq].
  - step_cases H; simpl; rewrite ?length_app, ?length_insert; lia.
  - step_cases H; simpl; count_threads Hth; simpl in *; unfold on_frame in *;
      repeat case_decide; simplify_eq; lia.
  - step_cases H; simpl;
      pose proof (sum_list_with_lookup (log_thread g) _ _ _ Hth) as Hme;
      count_threads Hth; simpl in *; unfold on_frame in *;
      repeat case_decide; simplify_eq; lia.
Qed.

(** C1: [Log], waiting at [encodesDone.Wait()], has started one goroutine for
    every attached codec; it returns exactly when each of them has called
    [encodeDone], whatever the state of their writes, and changes nothing but
    its own thread; once it has returned, no goroutine of the call is ever
    again at the encoding step, the one step that reads [Log]'s arguments. *)
Theorem Log_returns_after_encodeDone (scripts : list (list cmd)) (s : state)
    (i fid : nat) (rest : list cmd) (f : frame) :
  reach scripts s →
  st_threads s !! i = Some (TLog fid PWait rest) →
  st_frames s !! fid = Some f →
  (∀ P, sum_list_with (goroutine_of P fid) (st_threads s) = count_codecs P (fr_loggers f)) ∧
  (is_Some (exec i s) ↔ st_panicked s = false ∧ encodes_done s fid) ∧
  (∀ s', exec i s = Some s' →
     s' = set_thread i (TCaller rest) s ∧
     ∀ schedule s'', run s' schedule = Some s'' → encodes_done s'' fid).
Proof.
  intros Hreach Hth Hf. destruct (reach_count_inv _ _ Hreach) as [Hinv Hci].
  assert (Honly : ∀ j pc rest', st_threads s !! j = Some (TLog fid pc rest') →
                                pc = PWait).
  { intros j pc rest' Hj. pose proof (owner_excludes s i j _ _ _ _ _ Hinv Hth Hj).
    by simplify_eq. }
  assert (Hdone : fr_encodesDone f = 0%nat ↔ encodes_done s fid).
  { rewrite (ci_encodes s Hci fid f Hf). split.
    - intros Hz j c pc Hj. pose proof (sum_list_with_zero _ _ _ _ Hz Hj) as Hw.
      simpl in Hw. unfold on_frame in Hw. rewrite decide_True in Hw by done.
      by destruct (before_encodeDone pc).
    - intros Hall. apply sum_list_with_all_zero. intros j th Hj.
      destruct th as [|g pc rest'| |g c pc|]; simpl; try done; unfold on_frame.
      + destruct pc; try done. case_decide; [subst g|done].
        by pose proof (Honly _ _ _ Hj).
      + case_decide; [subst g|done]. by rewrite (Hall _ _ _ Hj). }
  split_and!.
  - intros P. rewrite <- (ci_attached s Hci P fid f Hf).
    apply sum_list_with_ext_lookup. intros j th Hj.
    destruct th as [|g pc rest'| |g c pc|]; simpl; try done. unfold on_frame.
    case_decide; [subst g|done]. by rewrite (Honly _ _ _ Hj).
  - unfold exec. rewrite Hth. simpl. unfold step_log. rewrite Hf. simpl.
    destruct (st_panicked s); [split; [by intros [? ?]|by intros [? _]]|].
    rewrite <- Hdone. case_decide as Hz; split.
    + by intros _.
    + intros _. by eexists.
    + by intros [? ?].
    + by intros [_ ?].
  - intros s' Hexec. assert (Hs' : s' = set_thread i (TCaller rest) s ∧ fr_encodesDone f = 0%nat).
    { unfold exec in Hexec. rewrite Hth in Hexec. simpl in Hexec.
      unfold step_log in Hexec. rewrite Hf in Hexec. simpl in Hexec.
      destruct (st_panicked s); [done|]. case_decide; by simplify_eq. }
    destruct Hs' as [-> Hzero]. split; [done|].
    intros schedule s'' Hrun.
    assert (Hho : handed_over fid s'').
    { eapply (run_invariant (handed_over fid)); [|..|exact Hrun].
      - intros a s1 s2. apply step_handed_over.
      - assert (Hstep : act (Run i) s = Some (set_thread i (TCaller rest) s)) by done.
        split_and!.
        + by eapply basic_inv_step.
        + by eapply count_inv_step.
        + simpl. by eapply lookup_lt_Some.
        + pose proof (bi_owner s Hinv fid). simpl. count_threads Hth. simpl in *.
          rewrite decide_True in * by done. lia.
        + simpl. count_threads Hth. simpl in *.
          rewrite <- (ci_encodes s Hci fid f Hf) in *. lia. }
    destruct Hho as (_ & _ & _ & _ & Hz).
    intros j c pc Hj. pose proof (sum_list_with_zero _ _ _ _ Hz Hj) as Hw.
    simpl in Hw. unfold on_frame in Hw. rewrite decide_True in Hw by done.
    by destruct (before_encodeDone pc).
Qed.

(** C5: [Log] on a context without loggers returns at its first step, and the
    step changes nothing in the state but the caller's place in its script: the
    mutex, the pending channel, the channels, the frames, the writers, the clock
    and the other threads are as before, and no thread is added. *)
Theorem Log_without_loggers_is_noop (s : state) (i : nat) (ctx : LogCtx)
    (message : string) (data : list Data) (rest : list cmd) :
  st_panicked s = false →
  st_threads s !! i = Some (TCaller (CLog ctx message data :: rest)) →
  lc_loggers ctx = None →
  ∃ s', exec i s = Some s' ∧
    st_threads s' = <[i := TCaller rest]> (st_threads s) ∧
    length (st_threads s') = length (st_threads s) ∧
    (∀ j, j ≠ i → st_threads s' !! j = st_threads s !! j) ∧
    st_mu s' = st_mu s ∧ st_writeReady s' = st_writeReady s ∧
    st_chans s' = st_chans s ∧ st_frames s' = st_frames s ∧
    st_sinks s' = st_sinks s ∧ st_clock s' = st_clock s ∧
    st_panicked s' = false.
Proof.
  intros Hp Hth Hnone. exists (set_thread i (TCaller rest) s).
  split_and!; try done.
  - unfold exec. rewrite Hp, Hth. simpl. by rewrite Hnone.
  - simpl. apply length_insert.
  - intros j Hj. simpl. by apply list_lookup_insert_ne.
Qed.

Lemma crit_holds_mutex (s : state) (i : nat) (th : thread) :
  basic_inv s → st_threads s !! i = Some th → in_crit th = 1%nat → st_mu s = true.
Proof.
  intros [Hmu _ _ _ _ _] Hth Hc.
  pose proof (sum_list_with_lookup in_crit _ _ _ Hth). destruct (st_mu s); [done|lia].
Qed.

(** C3: [Log] reads the clock while it holds the mutex, after it has installed
    its new channel as the pending one and before it unlocks; and of two calls
    the one that installed the later channel has the later timestamp, or the
    same, the clock never going back. *)
Theorem timestamp_taken_in_critical_section (scripts : list (list cmd)) (s : state) :
  reach scripts s →
  (∀ i fid rest, st_threads s !! i = Some (TLog fid PNow rest) →
     st_mu s = true ∧
     (∀ j th, st_threads s !! j = Some th → in_crit th = 1%nat → j = i) ∧
     ∃ f, st_frames s !! fid = Some f ∧
          fr_nextWriteReady f = Some (st_writeReady s) ∧ fr_t f = None ∧
          (st_panicked s = false →
           exec i s = Some (set_thread i (TLog fid PUnlock rest)
                              (set_frame fid (with_t (Now s) f) s)))) ∧
  (∀ i fid rest, st_threads s !! i = Some (TLog fid PUnlock rest) →
     st_mu s = true ∧ ∃ f, st_frames s !! fid = Some f ∧ is_Some (fr_t f)) ∧
  stamps_ordered s.
Proof.
  intros Hreach. pose proof (reach_basic_inv _ _ Hreach) as Hinv.
  pose proof (bi_threads s Hinv) as Hok.
  split_and!.
  - intros i fid rest Hth.
    pose proof (Forall_lookup_1 _ _ _ _ Hok Hth) as (f & Hf & Hn & Ht).
    split_and!.
    + by eapply crit_holds_mutex.
    + intros j th Hj Hc. symmetry. by eapply mutex_excludes.
    + exists f. split_and!; try done. intros Hp.
      unfold exec. rewrite Hp, Hth. simpl. unfold step_log. by rewrite Hf.
  - intros i fid rest Hth.
    pose proof (Forall_lookup_1 _ _ _ _ Hok Hth) as (f & Hf & Ht).
    split; [by eapply crit_holds_mutex|eauto].
  - by eapply reach_stamps_ordered.
Qed.

(** *** The order of the writes *)

Lemma step_closed_mono (a : action) (s s' : state) (ch : nat) :
  act a s = Some s' → closed s ch → closed s' ch.
Proof.
  intros H Hc. unfold closed in *.
  destruct a as [i|d]; simpl in H; [|by simplify_eq].
  step_cases H; simpl; try done.
  - by apply lookup_app_l_Some.
  - destruct (decide (ch = n)) as [->|Hne].
    + apply list_lookup_insert_eq. by eapply lookup_lt_Some.
    + by rewrite list_lookup_insert_ne.
Qed.

(** A step keeps the frames, their arguments and their assigned variables. *)
Lemma step_frame_grows (a : action) (s s' : state) (g : nat) (fg : frame) :
  basic_inv s → act a s = Some s' → st_frames s !! g = Some fg →
  ∃ f', st_frames s' !! g = Some f' ∧
        fr_loggers f' = fr_loggers fg ∧
        (∀ x, fr_writeReady fg = Some x → fr_writeReady f' = Some x) ∧
        (∀ x, fr_nextWriteReady fg = Some x → fr_nextWriteReady f' = Some x) ∧
        (∀ x, fr_t fg = Some x → fr_t f' = Some x).
Proof.
  intros Hinv H Hg. pose proof (bi_threads s Hinv) as Hok.
  destruct a as [i|d]; simpl in H; [|simplify_eq; by eauto 10].
  step_cases H; simpl; try by eauto 10.
  all: pose proof (Forall_lookup_1 _ _ _ _ Hok Hth) as Hme; simpl in Hme;
    try (destruct Hme as (f0 & Hf0 & Hme); destruct_and?; simplify_eq).
  all: try (eexists; split; [by apply lookup_app_l_Some|done]).
  all: eexists; (split; [by apply (lookup_frame_after _ _ _ _ _ _ Hf Hg)|]).
  all: case_decide; simplify_eq; simpl; split_and!; try done; intros; congruence.
Qed.

Lemma step_no_fail_back (a : action) (s s' : state) :
  act a s = Some s' → no_encode_failed s' → no_encode_failed s.
Proof.
  intros H Hnf j fid' c' pc' Hj.
  destruct a as [i|d]; simpl in H; [|simplify_eq; by eauto].
  destruct (decide (j = i)) as [->|Hne].
  - step_cases H; simplify_eq; try done; try by eauto.
    all: try (eapply (Hnf i); simpl; apply list_lookup_insert_eq; by eapply lookup_lt_Some).
    all: specialize (Hnf i fid' c'); simpl in Hnf;
      rewrite list_lookup_insert_eq in Hnf by (by eapply lookup_lt_Some);
      by specialize (Hnf _ eq_refl).
  - apply (Hnf j fid' c' pc'). apply lookup_lt_Some in Hj as Hlt.
    step_cases H; simpl; try done;
      rewrite list_lookup_insert_ne by done; try done; by apply lookup_app_l_Some.
Qed.

(** The thread at [j] after a step of thread [i]: the one that moved, another
    one, or a new one. *)
Ltac thread_after Hth Hj :=
  simpl in Hj;
  lazymatch type of Hj with
  | <[_ := _]> (_ ++ _) !! _ = Some _ =>
      apply (lookup_threads_after _ _ _ _ _ _ _ Hth) in Hj as [[-> Hj]|[[? Hj]|[? Hj]]];
      [| |apply list_elem_of_singleton in Hj]
  | <[_ := _]> _ !! _ = Some _ =>
      apply (lookup_threads_after' _ _ _ _ _ _ Hth) in Hj as [[-> Hj]|[? Hj]]
  | _ => idtac
  end.

Lemma gate_transfer (a : action) (s s' : state) (g : nat) :
  basic_inv s → act a s = Some s' →
  (∃ fg x, st_frames s !! g = Some fg ∧ fr_writeReady fg = Some x ∧ closed s x) →
  ∃ fg x, st_frames s' !! g = Some fg ∧ fr_writeReady fg = Some x ∧ closed s' x.
Proof.
  intros Hinv H (fg & x & Hg & Hx & Hc).
  destruct (step_frame_grows a s s' g fg Hinv H Hg) as (f' & Hg' & _ & Hw & _).
  exists f', x. split_and!; [done|by apply Hw|by eapply step_closed_mono].
Qed.

Lemma step_codec_gate (a : action) (s s' : state) (j g : nat) (cj : Codec) (pcj : codec_pc) :
  basic_inv s → order_inv s → act a s = Some s' →
  st_threads s' !! j = Some (TCodec g cj pcj) → passed_gate pcj = true →
  ∃ fg x, st_frames s' !! g = Some fg ∧ fr_writeReady fg = Some x ∧ closed s' x.
Proof.
  intros Hinv Hoi H Hj Hpass. pose proof H as Hact.
  apply (gate_transfer a s s' g Hinv Hact).
  pose proof (oi_codec s Hoi) as Hold.
  destruct a as [i|d]; simpl in H; [|simplify_eq; by eauto].
  step_cases H; thread_after Hth Hj; simplify_eq; try done; by eauto.
Qed.

(** A watcher of a call excludes a thread of the call that has go statements
    ahead, and a second watcher. *)
Lemma watcher_excludes (s : state) (i j g : nat) (pcw : watch_pc) (th : thread) (fg : frame) :
  count_inv s → st_frames s !! g = Some fg →
  st_threads s !! j = Some (TWatcher g pcw) → st_threads s !! i = Some th →
  i ≠ j → spawning g th = 0%nat.
Proof.
  intros Hci Hg Hj Hi Hne.
  pose proof (sum_list_with_lookup2 (spawning g) _ _ _ _ _ Hi Hj Hne) as H.
  rewrite (ci_spawning s Hci g fg Hg) in H. simpl in H. unfold on_frame in H.
  rewrite decide_True in H by done. lia.
Qed.

(** The counter [writesDone] of a call that has its watcher stays at zero. *)
Lemma step_writesDone_zero (a : action) (s s' : state) (j g : nat) (pcw : watch_pc)
    (fg fg' : frame) :
  count_inv s → act a s = Some s' →
  st_threads s !! j = Some (TWatcher g pcw) →
  st_frames s !! g = Some fg → fr_writesDone fg = 0%nat →
  st_frames s' !! g = Some fg' → fr_writesDone fg' = 0%nat.
Proof.
  intros Hci H Hj Hg Hz Hg'.
  destruct a as [i|d]; simpl in H; [|simplify_eq; simpl in Hg'; by simplify_eq].
  destruct (decide (i = j)) as [->|Hne].
  { step_cases H; simplify_eq; simpl in Hg'; by simplify_eq. }
  step_cases H; simpl in Hg'; simplify_eq; try done.
  all: try (apply lookup_app_Some in Hg' as [Hg'|[Hge Hg']];
            [by simplify_eq|apply lookup_lt_Some in Hg; lia]).
  all: rewrite (lookup_frame_after _ _ _ _ _ _ Hf Hg) in Hg'; case_decide; simplify_eq;
    simpl; try done; try congruence.
  pose proof (watcher_excludes s i j _ _ _ _ Hci Hf Hj Hth Hne) as Hex.
  simpl in Hex. unfold on_frame in Hex. by rewrite decide_True in Hex.
Qed.

Lemma step_watch (a : action) (s s' : state) (j g : nat) (pcw : watch_pc) :
  basic_inv s → count_inv s → order_inv s → act a s = Some s' →
  st_threads s' !! j = Some (TWatcher g pcw) → pcw ≠ WWait →
  ∃ fg, st_frames s' !! g = Some fg ∧ fr_writesDone fg = 0%nat ∧
        (pcw = WFinished → ∃ x, fr_nextWriteReady fg = Some x ∧ closed s' x).
Proof.
  intros Hinv Hci Hoi H Hj Hpc. pose proof H as Hact.
  pose proof (oi_watch s Hoi) as Hold.
  assert (Hkeep : ∀ j0 pc0, st_threads s !! j0 = Some (TWatcher g pc0) → pc0 ≠ WWait →
            ∃ fg, st_frames s' !! g = Some fg ∧ fr_writesDone fg = 0%nat ∧
                  (pc0 = WFinished → ∃ x, fr_nextWriteReady fg = Some x ∧ closed s' x)).
  { intros j0 pc0 Hj0 Hpc0. destruct (Hold _ _ _ Hj0 Hpc0) as (fg & Hg & Hz & Hfin).
    destruct (step_frame_grows a s s' g fg Hinv Hact Hg) as (f' & Hg' & _ & _ & Hn & _).
    exists f'. split_and!; [done|by eapply step_writesDone_zero|].
    intros Hx. destruct (Hfin Hx) as (x & ? & ?). exists x.
    split; [by apply Hn|by eapply step_closed_mono]. }
  destruct a as [i|d]; simpl in H; [|simplify_eq; by eauto].
  step_cases H; thread_after Hth Hj; simplify_eq; try done; try by eauto.
  - exists f. split_and!; [done|done|done].
  - destruct (Hkeep _ _ Hth ltac:(done)) as (fg & Hg & Hz & _). simpl in Hg. simplify_eq.
    exists f. split_and!; [done|done|]. intros _. eexists. split; [done|].
    unfold closed. simpl. apply list_lookup_insert_eq. by eapply lookup_lt_Some.
Qed.

(** A channel that is closed after a step was closed before, or the step is the
    [close] of a watcher. *)
Lemma step_closed_back (a : action) (s s' : state) (ch : nat) :
  act a s = Some s' → closed s' ch →
  closed s ch ∨
  ∃ i g fg, st_threads s !! i = Some (TWatcher g WClose) ∧
            st_frames s !! g = Some fg ∧ fr_nextWriteReady fg = Some ch ∧
            st_threads s' !! i = Some (TWatcher g WFinished) ∧
            st_frames s' !! g = Some fg.
Proof.
  intros H Hc. unfold closed in *.
  destruct a as [i|d]; simpl in H; [|simplify_eq; by left].
  step_cases H; simpl in Hc; try by left.
  - apply lookup_app_Some in Hc as [Hc|[_ Hc]]; [by left|].
    by apply list_lookup_singleton_Some in Hc as [_ ?].
  - destruct (decide (ch = n)) as [->|Hne].
    + right. exists i, fid, f. simpl. split_and!; try done.
      apply list_lookup_insert_eq. by eapply lookup_lt_Some.
    + left. by rewrite list_lookup_insert_ne in Hc.
Qed.

(** A watcher that has closed its channel has ended. *)
Lemma step_watcher_stays (a : action) (s s' : state) (j g : nat) :
  act a s = Some s' → st_threads s !! j = Some (TWatcher g WFinished) →
  st_threads s' !! j = Some (TWatcher g WFinished).
Proof.
  intros H Hj. destruct a as [i|d]; simpl in H; [|by simplify_eq].
  destruct (decide (i = j)) as [->|Hne].
  { step_cases H; simplify_eq. }
  step_cases H; simpl; try done; rewrite list_lookup_insert_ne by done; try done;
    by apply lookup_app_l_Some.
Qed.

Lemma step_closed (a : action) (s s' : state) (k : nat) :
  basic_inv s → order_inv s → act a s = Some s' → closed s' (S k) →
  ∃ g fg j, st_frames s' !! g = Some fg ∧ fr_nextWriteReady fg = Some (S k) ∧
            st_threads s' !! j = Some (TWatcher g WFinished).
Proof.
  intros Hinv Hoi H Hc.
  destruct (step_closed_back a s s' (S k) H Hc) as [Hold|(i & g & fg & _ & _ & Hn & Hi & Hg)].
  - destruct (oi_closed s Hoi k Hold) as (g & fg & j & Hg & Hn & Hj).
    destruct (step_frame_grows a s s' g fg Hinv H Hg) as (f' & Hg' & _ & _ & Hn' & _).
    exists g, f', j. split_and!; [done|by apply Hn'|by eapply step_watcher_stays].
  - by exists g, fg, i.
Qed.

(** The writers after a step: as before, or one has the entry of a goroutine
    that was at its write. *)
Lemma step_sink (a : action) (s s' : state) (w : nat) :
  act a s = Some s' →
  (sink s' w = sink s w ∧
   ∀ i fid c b, a = Run i → st_threads s !! i = Some (TCodec fid c (CWrite b)) →
                codec_writer c ≠ w) ∨
  ∃ i fid c b fg ch t,
    a = Run i ∧
    st_threads s !! i = Some (TCodec fid c (CWrite b)) ∧ codec_writer c = w ∧
    st_frames s !! fid = Some fg ∧ fr_writeReady fg = Some ch ∧ fr_t fg = Some t ∧
    sink s' w = sink s w ++ [{| en_call := fid; en_gate := ch; en_time := t; en_bytes := b |}].
Proof.
  intros H. destruct a as [i|d]; simpl in H; [|simplify_eq; left; split; [done|congruence]].
  step_cases H; try (left; split; [done|intros; simplify_eq]).
  destruct (decide (codec_writer c = w)) as [<-|Hne].
  - right. exists i, fid, c, b, f, n, t. split_and!; try done.
    unfold sink. simpl. by rewrite lookup_insert_eq.
  - left. split; [|intros; by simplify_eq].
    unfold sink. simpl. by rewrite lookup_insert_ne.
Qed.

Lemma step_sink_entries (a : action) (s s' : state) (w : nat) (e : entry) :
  basic_inv s → order_inv s → act a s = Some s' → e ∈ sink s' w →
  ∃ fg, st_frames s' !! en_call e = Some fg ∧ fr_writeReady fg = Some (en_gate e) ∧
        fr_t fg = Some (en_time e) ∧ closed s' (en_gate e).
Proof.
  intros Hinv Hoi H He.
  assert (∃ fg, st_frames s !! en_call e = Some fg ∧ fr_writeReady fg = Some (en_gate e) ∧
                fr_t fg = Some (en_time e) ∧ closed s (en_gate e)) as (fg & Hg & Hw & Ht & Hc).
  { destruct (step_sink a s s' w H) as [[Heq _]|(i & fid & c & b & fg & ch & t & _ & Hi & _ &
                                                 Hg & Hw & Ht & Heq)];
      rewrite Heq in He; [by apply (oi_sink s Hoi w)|].
    apply elem_of_app in He as [He|He]; [by apply (oi_sink s Hoi w)|].
    apply list_elem_of_singleton in He as ->. simpl.
    destruct (oi_codec s Hoi _ _ _ _ Hi eq_refl) as (f0 & x & Hg0 & Hw0 & Hc).
    exists fg. split_and!; try done. by simplify_eq. }
  destruct (step_frame_grows a s s' _ fg Hinv H Hg) as (f' & Hg' & _ & Hw' & _ & Ht').
  exists f'. split_and!; [done|by apply Hw'|by apply Ht'|by eapply step_closed_mono].
Qed.

Lemma step_count (a : action) (s s' : state) (w g : nat) :
  order_inv s → act a s = Some s' →
  sum_list_with (entry_of g) (sink s' w) = sum_list_with (wrote_on w g) (st_threads s').
Proof.
  intros Hoi H. pose proof (oi_count s Hoi w g) as Hold.
  destruct (step_sink a s s' w H) as [[-> Hw]|(i0 & fid0 & c0 & b0 & fg & ch & t0 & -> & Hi & Hw &
                                              _ & _ & _ & ->)].
  - destruct a as [i|d]; simpl in H; [|by simplify_eq].
    specialize (Hw i).
    step_cases H; simpl; try done.
    all: count_threads Hth; simpl in *; unfold on_frame in *;
      try specialize (Hw _ _ _ eq_refl eq_refl);
      repeat case_decide; simplify_eq; lia.
  - rewrite sum_list_with_app. simpl in *. unfold entry_of at 2. simpl.
    step_cases H; simplify_eq. simpl.
    count_threads Hth; simpl in *; unfold on_frame in *;
      repeat case_decide; simplify_eq; lia.
Qed.

Lemma step_loggers (a : action) (s s' : state) :
  order_inv s → act a s = Some s' → Forall (λ f, fr_loggers f ≠ []) (st_frames s').
Proof.
  intros Hoi H. pose proof (oi_loggers s Hoi) as Hold.
  pose proof (oi_scripts s Hoi) as Hscripts.
  destruct a as [i|d]; simpl in H; [|by simplify_eq].
  step_cases H; simpl; try done.
  all: try (apply Forall_insert; [done|]; simpl; by eapply (Forall_lookup_1 _ _ _ _ Hold)).
  apply Forall_app. split; [done|]. apply Forall_singleton. simpl.
  pose proof (Forall_lookup_1 _ _ _ _ Hscripts Hth) as Hs. simpl in Hs.
  apply Forall_cons in Hs as [Hs _]. simpl in Hs. congruence.
Qed.

Lemma step_scripts (a : action) (s s' : state) :
  order_inv s → act a s = Some s' →
  Forall (λ th, Forall cmd_ok (script_of th)) (st_threads s').
Proof.
  intros Hoi H. pose proof (oi_scripts s Hoi) as Hold.
  destruct a as [i|d]; simpl in H; [|by simplify_eq].
  step_cases H; simpl; try done.
  all: pose proof (Forall_lookup_1 _ _ _ _ Hold Hth) as Hs; simpl in Hs;
    try apply Forall_cons in Hs as [_ Hs].
  all: try (apply Forall_insert; [|done]).
  all: try (apply Forall_app; split; [done|]; by apply Forall_singleton).
  all: try done.
Qed.

(** *** What the invariants give in a state *)

Lemma sum_list_with_pos {A} (f : A → nat) (l : list A) :
  (0 < sum_list_with f l)%nat → ∃ i x, l !! i = Some x ∧ (0 < f x)%nat.
Proof.
  induction l as [|y l IH]; simpl; [lia|]. intros Hpos.
  destruct (decide (0 < f y)%nat) as [Hy|Hy].
  - by exists 0%nat, y.
  - destruct IH as (i & x & Hi & Hx); [lia|]. by exists (S i), x.
Qed.

Lemma count_codecs_all (l : list Codec) : count_codecs (λ _, true) l = length l.
Proof. unfold count_codecs. induction l as [|c l IH]; simpl in *; [done|by f_equal]. Qed.

(** When the watcher of a call has seen the counter [writesDone] at zero, all
    goroutines of the call have ended, and there is one. *)
Lemma watcher_sees_finished (s : state) (j g : nat) (pcw : watch_pc) :
  basic_inv s → count_inv s → order_inv s →
  st_threads s !! j = Some (TWatcher g pcw) → pcw ≠ WWait →
  (∀ i cj pcj, st_threads s !! i = Some (TCodec g cj pcj) → finished pcj = true) ∧
  ∃ i cj pcj, st_threads s !! i = Some (TCodec g cj pcj).
Proof.
  intros Hinv Hci Hoi Hj Hpc.
  destruct (oi_watch s Hoi _ _ _ Hj Hpc) as (fg & Hg & Hz & _).
  rewrite (ci_writes s Hci g fg Hg) in Hz. split.
  - intros i cj pcj Hi. pose proof (sum_list_with_zero _ _ _ _ Hz Hi) as Hw.
    simpl in Hw. unfold on_frame in Hw. rewrite decide_True in Hw by done.
    by destruct (finished pcj).
  - pose proof (ci_attached s Hci (λ _, true) g fg Hg) as Hat.
    rewrite count_codecs_all in Hat.
    pose proof (Forall_lookup_1 _ _ _ _ (oi_loggers s Hoi) Hg) as Hne. simpl in Hne.
    destruct (sum_list_with_pos (attached (λ _, true) g (fr_loggers fg)) (st_threads s))
      as (i & th & Hi & Hpos); [destruct (fr_loggers fg); [done|simpl in Hat; lia]|].
    destruct th as [|fid pc rest| |fid cj pcj|]; simpl in Hpos; try lia;
      unfold on_frame in Hpos; case_decide; try lia; subst fid.
    + destruct (decide (i = j)) as [->|Hij]; [by simplify_eq|].
      pose proof (watcher_excludes s i j _ _ _ _ Hci Hg Hj Hi Hij) as Hex.
      simpl in Hex. unfold on_frame in Hex. rewrite decide_True in Hex by done.
      destruct pc; try done. lia.
    + by exists i, cj, pcj.
Qed.

(** Without a failed encoding, a channel of the chain is closed after the one
    before it. *)
Lemma closed_prev (s : state) (k : nat) :
  basic_inv s → count_inv s → order_inv s → no_encode_failed s →
  closed s (S k) → closed s k.
Proof.
  intros Hinv Hci Hoi Hnf Hc.
  destruct (oi_closed s Hoi k Hc) as (g & fg & j & Hg & Hn & Hj).
  destruct (watcher_sees_finished s j g _ Hinv Hci Hoi Hj ltac:(done))
    as (Hfin & i & cj & pcj & Hi).
  specialize (Hfin _ _ _ Hi). specialize (Hnf _ _ _ _ Hi).
  destruct (oi_codec s Hoi _ _ _ _ Hi) as (f0 & x & Hg0 & Hx & Hcx).
  { destruct pcj as [| | | | |[]]; done. }
  simplify_eq.
  destruct (Forall_lookup_1 _ _ _ _ (bi_frames s Hinv) Hg) as (_ & Hnext & _).
  destruct (Hnext _ Hn) as (_ & x' & Hx' & ?). by simplify_eq.
Qed.

Lemma closed_below (s : state) (k m : nat) :
  basic_inv s → count_inv s → order_inv s → no_encode_failed s →
  closed s m → (k ≤ m)%nat → closed s k.
Proof.
  intros Hinv Hci Hoi Hnf Hc Hle. induction Hle as [|m Hle IH]; [done|].
  apply IH. by apply closed_prev.
Qed.

(** A goroutine that has not ended keeps the channel of its call open. *)
Lemma pending_keeps_open (s : state) (i g : nat) (cj : Codec) (pcj : codec_pc) (fg : frame)
    (x : nat) :
  basic_inv s → count_inv s → order_inv s →
  st_threads s !! i = Some (TCodec g cj pcj) → finished pcj = false →
  st_frames s !! g = Some fg → fr_writeReady fg = Some x → ¬ closed s (S x).
Proof.
  intros Hinv Hci Hoi Hi Hfin Hg Hx Hc.
  destruct (oi_closed s Hoi x Hc) as (g' & fg' & j & Hg' & Hn' & Hj).
  pose proof (Forall_lookup_1 _ _ _ _ (bi_threads s Hinv) Hi) as (f0 & Hf0 & [t Ht]).
  simplify_eq.
  destruct (Forall_lookup_1 _ _ _ _ (bi_frames s Hinv) Hg) as (_ & Hnext & Htime).
  destruct (Htime _ Ht) as (_ & n & Hn & _).
  destruct (Hnext _ Hn) as (_ & x' & Hx' & ->). simplify_eq.
  pose proof (bi_unique s Hinv _ _ _ _ _ Hg Hg' Hn Hn') as <-.
  destruct (watcher_sees_finished s j g _ Hinv Hci Hoi Hj ltac:(done)) as (Hall & _).
  specialize (Hall _ _ _ Hi). congruence.
Qed.

Lemma step_sorted (a : action) (s s' : state) (w : nat) :
  basic_inv s → count_inv s → order_inv s → act a s = Some s' →
  no_encode_failed s' → StronglySorted gate_le (sink s' w).
Proof.
  intros Hinv Hci Hoi H Hnf'.
  pose proof (step_no_fail_back a s s' H Hnf') as Hnf.
  pose proof (oi_sorted s Hoi Hnf w) as Hold.
  destruct (step_sink a s s' w H) as [[-> _]|(i & fid & cj & b & fg & ch & t & _ & Hi & _ &
                                           Hg & Hw & _ & ->)]; [done|].
  apply StronglySorted_app. split_and!; [|done|repeat constructor].
  intros e1 e2 He1 ->%list_elem_of_singleton. unfold gate_le. simpl.
  destruct (oi_sink s Hoi w e1 He1) as (_ & _ & _ & _ & Hc).
  destruct (decide (en_gate e1 ≤ ch)%nat) as [|Hgt]; [done|].
  destruct (pending_keeps_open s i fid cj (CWrite b) fg ch Hinv Hci Hoi Hi eq_refl Hg Hw).
  apply (closed_below s (S ch) (en_gate e1) Hinv Hci Hoi Hnf Hc). lia.
Qed.

Lemma order_inv_init (now : Z) (scripts : list (list cmd)) :
  Forall (Forall cmd_ok) scripts → order_inv (init now scripts).
Proof.
  intros Hok. split; simpl.
  - done.
  - intros j fid c pc Hj. apply list_lookup_fmap_Some in Hj as (? & ? & ?). done.
  - intros j fid pc Hj. apply list_lookup_fmap_Some in Hj as (? & ? & ?). done.
  - intros k Hk. unfold closed in Hk. simpl in Hk. done.
  - intros w e He. unfold sink in He. simpl in He. rewrite lookup_empty in He.
    by apply elem_of_nil in He.
  - intros w g. unfold sink. simpl. rewrite lookup_empty. simpl.
    symmetry. by apply sum_callers.
  - done.
  - by apply Forall_fmap.
  - intros _ w. unfold sink. simpl. rewrite lookup_empty. constructor.
Qed.

Lemma order_inv_step (a : action) (s s' : state) :
  basic_inv s → count_inv s → order_inv s → act a s = Some s' → order_inv s'.
Proof.
  intros Hinv Hci Hoi H. split.
  - eapply step_closed_mono; [done|]. by apply oi_zero.
  - intros j fid c pc. by eapply step_codec_gate.
  - intros j fid pc. by eapply step_watch.
  - intros k. by eapply step_closed.
  - intros w e. by eapply step_sink_entries.
  - intros w g. by eapply step_count.
  - by eapply step_loggers.
  - by eapply step_scripts.
  - intros Hnf w. by eapply step_sorted.
Qed.

Lemma reach_order_inv (scripts : list (list cmd)) (s : state) :
  Forall (Forall cmd_ok) scripts → reach scripts s →
  basic_inv s ∧ count_inv s ∧ order_inv s.
Proof.
  intros Hok (now & schedule & H).
  eapply (run_invariant (λ s, basic_inv s ∧ count_inv s ∧ order_inv s)); [| |done].
  - intros a s1 s2 (Hb & Hc & Ho) Ha.
    split_and!; [by eapply basic_inv_step|by eapply count_inv_step|by eapply order_inv_step].
  - split_and!; [apply basic_inv_init|apply count_inv_init|by apply order_inv_init].
Qed.

(** Once the channel of a call is closed, and no encoding of the call has
    failed, every codec of the call has written its entry. *)
Lemma closed_call_written (s : state) (g : nat) (fg : frame) (k : nat) :
  basic_inv s → count_inv s → order_inv s → no_encode_failed s →
  st_frames s !! g = Some fg → fr_nextWriteReady fg = Some k → closed s k →
  fully_written s g fg.
Proof.
  intros Hinv Hci Hoi Hnf Hg Hk Hc w.
  destruct (Forall_lookup_1 _ _ _ _ (bi_frames s Hinv) Hg) as (_ & Hnext & _).
  destruct (Hnext _ Hk) as (_ & x & Hx & ->).
  destruct (oi_closed s Hoi x Hc) as (g' & fg' & j & Hg' & Hk' & Hj).
  pose proof (bi_unique s Hinv _ _ _ _ _ Hg Hg' Hk Hk') as <-.
  destruct (watcher_sees_finished s j g _ Hinv Hci Hoi Hj ltac:(done)) as (Hall & _).
  rewrite (oi_count s Hoi w g), <- (ci_attached s Hci (writes_to w) g fg Hg).
  apply sum_list_with_ext_lookup. intros i th Hi.
  destruct th as [|fid pc rest| |fid cj pcj|]; simpl; try done;
    unfold on_frame; case_decide; try done; subst fid.
  - destruct (decide (i = j)) as [->|Hij]; [by simplify_eq|].
    pose proof (watcher_excludes s i j _ _ _ _ Hci Hg Hj Hi Hij) as Hex.
    simpl in Hex. unfold on_frame in Hex. rewrite decide_True in Hex by done.
    by destruct pc.
  - specialize (Hall _ _ _ Hi). specialize (Hnf _ _ _ _ Hi).
    unfold writes_to. destruct pcj as [| | | | |[]]; try done.
    simpl. by case_decide; case_bool_decide.
Qed.

Lemma StronglySorted_impl_elem {A} (R R' : A → A → Prop) (l : list A) :
  (∀ x y, x ∈ l → y ∈ l → R x y → R' x y) →
  StronglySorted R l → StronglySorted R' l.
Proof.
  intros Himpl Hs. induction Hs as [|x l Hs IH Hall]; constructor.
  - apply IH. intros y z Hy Hz. apply Himpl; by right.
  - apply Forall_forall. intros y Hy. apply Himpl; [by left|by right|].
    by eapply Forall_forall in Hall.
Qed.

(** The entries of a writer are in the order of their calls' timestamps. *)
Lemma gate_le_entry_le (s : state) (w : nat) (e1 e2 : entry) :
  basic_inv s → stamps_ordered s → order_inv s →
  e1 ∈ sink s w → e2 ∈ sink s w → gate_le e1 e2 → entry_le e1 e2.
Proof.
  intros Hinv Hst Hoi He1 He2 Hle.
  destruct (oi_sink s Hoi w e1 He1) as (f1 & Hf1 & Hw1 & Ht1 & _).
  destruct (oi_sink s Hoi w e2 He2) as (f2 & Hf2 & Hw2 & Ht2 & _).
  destruct (Forall_lookup_1 _ _ _ _ (bi_frames s Hinv) Hf1) as (_ & Hnext1 & Htime1).
  destruct (Forall_lookup_1 _ _ _ _ (bi_frames s Hinv) Hf2) as (_ & Hnext2 & Htime2).
  destruct (Htime1 _ Ht1) as (_ & n1 & Hn1 & _).
  destruct (Htime2 _ Ht2) as (_ & n2 & Hn2 & _).
  destruct (Hnext1 _ Hn1) as (_ & x1 & Hx1 & ->).
  destruct (Hnext2 _ Hn2) as (_ & x2 & Hx2 & ->).
  simplify_eq. unfold gate_le in Hle.
  assert (instant (en_time e1) ≤ instant (en_time e2)) as Hinst.
  { apply (Hst _ _ _ _ _ _ _ _ Hf1 Hf2 Hn1 Hn2 Ht1 Ht2). lia. }
  split_and!; [done|done|].
  intros (Ha & Hb & Hoff). by apply same_offset_follows_time.
Qed.

(** C2, as amended: in an execution of callers whose contexts have loggers,
    as long as no encoding has failed, every writer has its entries in the
    order in which their calls swapped the token, with timestamps that do not
    decrease and, where the timestamps have one UTC offset and years 0000 to
    9999, rendered timestamps that do not decrease byte-wise; and when [Sync]
    returns, every call that swapped the token before [Sync] read it has one
    entry per codec in that codec's writer, whichever contexts the calls
    were made on. *)
Theorem Sync_returns_after_ordered_writes (scripts : list (list cmd)) (s : state) :
  Forall (Forall cmd_ok) scripts → reach scripts s → no_encode_failed s →
  (∀ w, StronglySorted entry_le (sink s w)) ∧
  (∀ i tok rest s',
     st_threads s !! i = Some (TSync (SWait tok) rest) → act (Run i) s = Some s' →
     st_threads s' !! i = Some (TCaller rest) ∧
     ∀ g f, st_frames s' !! g = Some f → created_before tok f → fully_written s' g f).
Proof.
  intros Hok Hreach Hnf.
  destruct (reach_order_inv scripts s Hok Hreach) as (Hinv & Hci & Hoi).
  pose proof (reach_stamps_ordered scripts s Hreach) as Hst.
  split.
  - intros w. apply (StronglySorted_impl_elem gate_le); [|by apply oi_sorted].
    intros e1 e2. by apply gate_le_entry_le.
  - intros i tok rest s' Hi H. simpl in H. unfold exec in H. rewrite Hi in H.
    destruct (st_panicked s); [done|]. simpl in H.
    destruct (st_chans s !! tok) as [[|]|] eqn:Hc; simplify_eq.
    split.
    { simpl. apply list_lookup_insert_eq. by eapply lookup_lt_Some. }
    intros g f Hg (n & Hn & Hle). simpl in Hg.
    pose proof (closed_call_written s g f n Hinv Hci Hoi Hnf Hg Hn) as Hw.
    apply Hw. by apply (closed_below s n tok).
Qed.

(** ** Boxed values and the JSON codec's map *)

Lemma kind_in_range_cases (d : Data) :
  kind_in_range d = true ↔
  d_valueType d = ValueTypeString ∨ d_valueType d = ValueTypeInt64 ∨
  d_valueType d = ValueTypeUint64 ∨ d_valueType d = ValueTypeFloat64 ∨
  d_valueType d = ValueTypeAny.
Proof.
  unfold kind_in_range, Data_Type, valueTypeMaxValue, ValueTypeUnknown, ValueTypeString,
    ValueTypeInt64, ValueTypeUint64, ValueTypeFloat64, ValueTypeAny.
  rewrite negb_true_iff, orb_false_iff, N.eqb_neq, N.ltb_ge. lia.
Qed.

Lemma Data_Value_in_range (d : Data) :
  kind_in_range d = true → ∃ v, Data_Value d = Ok v.
Proof.
  intros H%kind_in_range_cases. unfold Data_Value.
  repeat case_decide; repeat case_match; eauto.
  by destruct H as [?|[?|[?|[?|?]]]].
Qed.

Lemma Data_Value_out_of_range (d : Data) :
  kind_in_range d = false → Data_Value d = Panic "no data".
Proof.
  intros H. unfold Data_Value.
  repeat case_decide; try done;
    assert (kind_in_range d = true) by (apply kind_in_range_cases; auto); congruence.
Qed.

(** [Value] returns what the constructor of the datum was given: the string,
    the integer, the float, and for [Any] the boxed value itself or, when it
    has a [String] method, the string that the method returns. *)
Theorem Value_of_constructed (name s : string) (i u : Z) (f : float64) :
  is_int64 i → is_float64 f →
  Data_Value (String_ name s) = Ok (BString s) ∧
  Data_Value (Int64 name i) = Ok (BInt64 i) ∧
  Data_Value (Uint64 name u) = Ok (BUint64 u) ∧
  Data_Value (Float64 name f) = Ok (BFloat64 f) ∧
  Data_Value (Any name None) = Ok (BAny None) ∧
  (∀ v, Data_Value (Any name (Some v)) =
        Ok (match as_Stringer v with Some str => BString str | None => BAny (Some v) end)) ∧
  Forall (λ d, Data_Name d = name ∧ kind_in_range d = true)
    [String_ name s; Int64 name i; Uint64 name u; Float64 name f; Any name None].
Proof.
  intros Hi Hf. split_and!.
  - done.
  - unfold Data_Value. simpl. by rewrite int64_of_uint64_of_int64.
  - done.
  - unfold Data_Value. simpl. by rewrite Float64frombits_bits.
  - done.
  - intros v. unfold Data_Value. simpl. by destruct (as_Stringer v).
  - repeat constructor.
Qed.

(** [Value] panics with ["no data"] exactly on a datum whose kind is unknown
    or above the maximum, the zero [Data] among them; the text codec leaves
    such a datum out. *)
Theorem Value_panics_out_of_range (d : Data) :
  (kind_in_range d = false ↔ Data_Value d = Panic "no data") ∧
  (kind_in_range d = true ↔ ∃ v, Data_Value d = Ok v) ∧
  Data_Value Data_zero = Panic "no data" ∧
  (∀ buf, kind_in_range d = false → write_datum buf d = buf).
Proof.
  split_and!.
  - split; [apply Data_Value_out_of_range|]. intros H.
    destruct (kind_in_range d) eqn:Hd; [|done].
    destruct (Data_Value_in_range d Hd) as [v Hv]. congruence.
  - split; [apply Data_Value_in_range|]. intros [v Hv].
    destruct (kind_in_range d) eqn:Hd; [done|].
    rewrite Data_Value_out_of_range in Hv by done. done.
  - done.
  - intros buf. apply write_datum_out_of_range.
Qed.

Lemma last_named_cons (name : string) (d : Data) (data : list Data) :
  last_named name (d :: data) =
  match last_named name data with
  | Some d' => Some d'
  | None => if decide (Data_Name d = name) then Some d else None
  end.
Proof.
  unfold last_named. rewrite filter_cons. case_decide.
  - rewrite last_cons. by destruct (last _).
  - by destruct (last _).
Qed.

Lemma mapData_from_spec (data : list Data) (r : gmap string boxed) :
  Forall (λ d, kind_in_range d = true) data →
  ∃ m, mapData_from r data = Ok m ∧
       ∀ name, m !! name = match last_named name data with
                           | Some d => returned (Data_Value d)
                           | None => r !! name
                           end.
Proof.
  intros Hall. revert r. induction Hall as [|d data Hd Hall IH]; intros r.
  - by exists r.
  - destruct (Data_Value_in_range d Hd) as [v Hv]. simpl. rewrite Hv. simpl.
    destruct (IH (<[Data_Name d := v]> r)) as (m & Hm & Hlook).
    exists m. split; [done|]. intros name. rewrite Hlook, last_named_cons.
    destruct (last_named name data); [done|].
    case_decide as Hname.
    + subst name. by rewrite lookup_insert_eq, Hv.
    + by rewrite lookup_insert_ne.
Qed.

Lemma mapData_from_panics (data : list Data) (r : gmap string boxed) :
  Exists (λ d, kind_in_range d = false) data → mapData_from r data = Panic "no data".
Proof.
  intros Hex. revert r. induction data as [|d data IH]; intros r.
  - by apply Exists_nil in Hex.
  - simpl. destruct (kind_in_range d) eqn:Hd.
    + destruct (Data_Value_in_range d Hd) as [v ->]. simpl. apply IH.
      apply Exists_cons in Hex as [Hex|Hex]; [congruence|done].
    + by rewrite Data_Value_out_of_range.
Qed.

(** [mapData] maps every name of the list to the value of the last datum
    with that name, and has no other key; it panics with ["no data"] as soon
    as one datum of the list has a kind out of range. *)
Theorem mapData_keeps_last_of_a_name (data : list Data) :
  (Forall (λ d, kind_in_range d = true) data →
   ∃ m, mapData data = Ok m ∧
        ∀ name, m !! name = d ← last_named name data; returned (Data_Value d)) ∧
  (Exists (λ d, kind_in_range d = false) data → mapData data = Panic "no data").
Proof.
  split.
  - intros Hall. destruct (mapData_from_spec data ∅ Hall) as (m & Hm & Hlook).
    exists m. split; [done|]. intros name. rewrite Hlook.
    destruct (last_named name data); [done|]. by rewrite lookup_empty.
  - apply mapData_from_panics.
Qed.

(** ** The line of the text codec *)

Lemma join_cons (sep x : string) (l : list string) :
  join sep (x :: l) = if decide (l = []) then x else x +:+ sep +:+ join sep l.
Proof. by destruct l. Qed.

Lemma write_tags_join (tags : list KV) (buf : string) (i n : nat) :
  n = (i + length tags)%nat →
  write_tags buf i n tags = buf +:+ join ", " (mapKV tags).
Proof.
  revert buf i. induction tags as [|tag rest IH]; intros buf i Hn.
  - simpl. by rewrite append_nil_r.
  - cbn [write_tags]. subst n. rewrite (IH _ (S i)) by (simpl; lia).
    unfold mapKV. rewrite fmap_cons, join_cons. fold (mapKV rest).
    destruct rest as [|tag' rest].
    + simpl. rewrite decide_True by lia. rewrite append_nil_r.
      case_decide; [done|]. by rewrite !append_assoc.
    + rewrite decide_False by (simpl in *; lia). rewrite (decide_False (P := _ = [])) by done.
      case_decide; by rewrite !append_assoc.
Qed.

Lemma foldl_write_datum_fragments (data : list Data) (buf : string) :
  Forall (λ d, kind_in_range d = true) data →
  foldl write_datum buf data = buf +:+ concat_strings (fragment <$> data).
Proof.
  intros Hall. revert buf. induction Hall as [|d data Hd Hall IH]; intros buf.
  - simpl. by rewrite append_nil_r.
  - simpl. rewrite IH, write_datum_in_range by done.
    unfold fragment. by rewrite !append_assoc.
Qed.

Lemma text_entry_closed_form_tags (t : Time) (tags : list KV) (message : string)
    (data : list Data) :
  text_encode t tags message data =
    foldl write_datum
      (Format t TimeFormat +:+ " [" +:+ join ", " (mapKV tags) +:+ "] " +:+ message) data
    +:+ newline.
Proof.
  unfold text_encode. rewrite write_tags_join by done. by rewrite !append_assoc.
Qed.

(** The entry of the text codec is the timestamp, the tags between brackets
    and separated by [", "] (a key alone, or [key=value]; the same strings as
    the JSON codec's [mapKV] makes), the message, one [", name=value"] for every
    datum of a kind in range in the order of the list, and a newline; without
    tags the brackets are empty. *)
Theorem text_entry_closed_form (t : Time) (tags : list KV) (message : string)
    (data : list Data) :
  text_encode t tags message data =
    Format t TimeFormat +:+ " [" +:+ join ", " (mapKV tags) +:+ "] " +:+ message +:+
    concat_strings (fragment <$> filter (λ d, kind_in_range d = true) data) +:+ newline.
Proof.
  unfold text_encode. rewrite foldl_write_datum_filter.
  rewrite foldl_write_datum_fragments.
  - rewrite write_tags_join by done. by rewrite !append_assoc.
  - apply Forall_forall. intros d Hd. by apply list_elem_of_filter in Hd as [Hd _].
Qed.

(** A tag pair with a value reads, in both codecs, as the single tag made of
    the key, [=] and the value: the two cannot be told apart in an entry. *)
Theorem tag_pair_reads_as_single_tag (k v : string) :
  v ≠ "" →
  mapKV [{| Key := k; Value := v |}] = mapKV [{| Key := k +:+ "=" +:+ v; Value := "" |}] ∧
  mapKV [{| Key := k; Value := v |}] = [k +:+ "=" +:+ v] ∧
  ∀ t before after message data,
    text_encode t (before ++ {| Key := k; Value := v |} :: after) message data =
    text_encode t (before ++ {| Key := k +:+ "=" +:+ v; Value := "" |} :: after) message data.
Proof.
  intros Hv.
  assert (Hone : ∀ kv, mapKV [kv] = [if decide (Value kv = "") then Key kv
                                     else Key kv +:+ "=" +:+ Value kv]) by done.
  assert (Hpair : mapKV [{| Key := k; Value := v |}] = [k +:+ "=" +:+ v]).
  { rewrite Hone. cbn [Key Value]. by rewrite decide_False. }
  assert (Hsingle : mapKV [{| Key := k +:+ "=" +:+ v; Value := "" |}] = [k +:+ "=" +:+ v]).
  { rewrite Hone. cbn [Key Value]. by rewrite decide_True. }
  split_and!; [congruence|done|].
  intros t before after message data. rewrite !text_entry_closed_form_tags.
  assert (Happ : ∀ l1 kv l2, mapKV (l1 ++ kv :: l2) = mapKV l1 ++ mapKV [kv] ++ mapKV l2).
  { intros l1 kv l2. unfold mapKV. by rewrite fmap_app, fmap_cons. }
  by rewrite !Happ, Hpair, Hsingle.
Qed.

(** ** Two children of one context *)

Lemma go_append_twice {A} (zero : A) (h : list (list A)) (s : option slice) (x y : A) :
  slice_wf h s →
  let r1 := go_append zero h s x in
  let r2 := go_append zero r1.1 s y in
  slice_view r2.1 (Some r1.2) = slice_view h s ++ [if spare_capacity s then y else x].
Proof.
  intros Hwf r1 r2.
  destruct (spare_capacity s) eqn:Hspare.
  - destruct s as [s|]; [|done]. simpl in Hspare. apply bool_decide_eq_true in Hspare.
    destruct Hwf as (arr & Harr & Hcap & Hlen).
    subst r1 r2. unfold go_append. simpl. rewrite !decide_True by done. simpl.
    rewrite !list_lookup_alter_eq, Harr. simpl.
    rewrite (take_S_r _ _ y) by (apply list_lookup_insert_eq; rewrite length_insert; lia).
    by rewrite !take_insert_ge by lia.
  - assert (Hfull : ¬ (s_len (default (mkSlice 0 0 0) s) < s_cap (default (mkSlice 0 0 0) s))%nat).
    { destruct s as [s|]; simpl in *; [|lia]. by apply bool_decide_eq_false in Hspare. }
    destruct (go_append_frame zero h s s x Hwf Hwf) as [Hwf1 _]. fold r1 in Hwf1.
    pose proof (go_append_wf zero h s x Hwf) as Hnew. fold r1 in Hnew.
    destruct (go_append_frame zero r1.1 s (Some r1.2) y Hwf1 Hnew) as [_ Hview].
    fold r2 in Hview. rewrite Hview.
    + apply go_append_view. done.
    + destruct s as [s|]; [|done]. simpl. intros Hptr.
      destruct Hwf as (arr & Harr & _). apply lookup_lt_Some in Harr.
      subst r1. unfold go_append in Hptr. rewrite decide_False in Hptr by done.
      simpl in Hptr. lia.
Qed.

(** Two children derived from one context: each is returned with the
    parent's list and its own element, and the parent keeps its list; but
    when the parent's slice has a free slot in its array, the second [append]
    writes the slot of the first, and the first child then has the second
    child's element.  Without a free slot the first child keeps its own. *)
Theorem second_child_overwrites_first (st : Store) (ctx : Context) :
  ctx_wf st ctx →
  (∀ a b, let r1 := WithLogTag st ctx a in
          let r2 := WithLogTag r1.1 ctx b in
          tags_of r1.1 r1.2 = tags_of st ctx ++ [{| Key := a; Value := "" |}] ∧
          tags_of r2.1 r2.2 = tags_of st ctx ++ [{| Key := b; Value := "" |}] ∧
          tags_of r2.1 ctx = tags_of st ctx ∧
          tags_of r2.1 r1.2 =
            tags_of st ctx ++
              [{| Key := if spare_capacity (v_tags ctx) then b else a; Value := "" |}]) ∧
  (∀ c d, let r1 := WithLogger st ctx c in
          let r2 := WithLogger r1.1 ctx d in
          loggers_of r1.1 r1.2 = loggers_of st ctx ++ [c] ∧
          loggers_of r2.1 r2.2 = loggers_of st ctx ++ [d] ∧
          loggers_of r2.1 ctx = loggers_of st ctx ∧
          loggers_of r2.1 r1.2 =
            loggers_of st ctx ++ [if spare_capacity (v_loggers ctx) then d else c]).
Proof.
  intros [Hl Ht]. split.
  - intros a b r1 r2.
    pose proof (go_append_view (mkKV "" "") (tag_arrays st) (v_tags ctx) (mkKV a "") Ht) as H1.
    pose proof (go_append_frame (mkKV "" "") (tag_arrays st) (v_tags ctx) (v_tags ctx)
                  (mkKV a "") Ht Ht) as [Hwf1 Hsame1].
    pose proof (go_append_twice (mkKV "" "") (tag_arrays st) (v_tags ctx) (mkKV a "")
                  (mkKV b "") Ht) as H12.
    subst r1 r2. unfold WithLogTag, with_tag, tags_of in *.
    destruct (go_append (mkKV "" "") (tag_arrays st) (v_tags ctx) (mkKV a "")) as [h1 s1] eqn:E1.
    simpl in *.
    pose proof (go_append_view (mkKV "" "") h1 (v_tags ctx) (mkKV b "") Hwf1) as H2.
    pose proof (go_append_frame (mkKV "" "") h1 (v_tags ctx) (v_tags ctx)
                  (mkKV b "") Hwf1 Hwf1) as [_ Hsame2].
    destruct (go_append (mkKV "" "") h1 (v_tags ctx) (mkKV b "")) as [h2 s2] eqn:E2.
    simpl in *.
    rewrite Hsame1 in H2, Hsame2 by apply keeps_view_refl.
    rewrite Hsame2 by apply keeps_view_refl.
    split_and!; [done|done|done|]. rewrite H12. by destruct (spare_capacity _).
  - intros c d r1 r2.
    subst r1 r2. unfold WithLogger, loggers_of.
    pose proof (withDebuggingInitialized_arrays st ctx) as (Ha0 & _ & Hv0 & _).
    destruct (withDebuggingInitialized st ctx) as [st0 ctx0]. simpl in Ha0, Hv0.
    rewrite Ha0, Hv0.
    pose proof (go_append_view nil_codec (codec_arrays st) (v_loggers ctx) c Hl) as H1.
    pose proof (go_append_frame nil_codec (codec_arrays st) (v_loggers ctx) (v_loggers ctx)
                  c Hl Hl) as [Hwf1 Hsame1].
    pose proof (go_append_twice nil_codec (codec_arrays st) (v_loggers ctx) c d Hl) as H12.
    destruct (go_append nil_codec (codec_arrays st) (v_loggers ctx) c) as [h1 s1] eqn:E1.
    simpl in *.
    match goal with
    | |- context [withDebuggingInitialized ?st1 ctx] =>
        pose proof (withDebuggingInitialized_arrays st1 ctx) as (Ha1 & _ & Hv1 & _);
        destruct (withDebuggingInitialized st1 ctx) as [st1' ctx1']
    end.
    simpl in Ha1, Hv1. rewrite Ha1, Hv1.
    pose proof (go_append_view nil_codec h1 (v_loggers ctx) d Hwf1) as H2.
    pose proof (go_append_frame nil_codec h1 (v_loggers ctx) (v_loggers ctx)
                  d Hwf1 Hwf1) as [_ Hsame2].
    destruct (go_append nil_codec h1 (v_loggers ctx) d) as [h2 s2] eqn:E2.
    simpl in *.
    rewrite Hsame1 in H2, Hsame2 by apply keeps_view_refl.
    rewrite Hsame2 by apply keeps_view_refl.
    split_and!; [done|done|done|]. rewrite H12. by destruct (spare_capacity _).
Qed.

(** ** The value under [loggerKey{}] *)

Lemma attach_to_loggers_len (st : Store) (X : Context) (a : attach) :
  (∀ s, v_loggers X = Some s → (0 < s_len s)%nat) →
  ∀ s, v_loggers (attach_to st X a).2 = Some s → (0 < s_len s)%nat.
Proof.
  intros HX s. destruct a as [src c | src tag | src k v]; simpl.
  - unfold WithLogger. destruct (withDebuggingInitialized st X) as [st1 X1].
    unfold go_append. case_decide; simpl; intros ?; simplify_eq; simpl; lia.
  - unfold WithLogTag, with_tag. destruct (go_append _ _ _ _). simpl. apply HX.
  - unfold WithLogTagPair, with_tag. destruct (go_append _ _ _ _). simpl. apply HX.
Qed.

Lemma loggers_slice_ok_has (st : Store) (X : Context) :
  loggers_slice_ok st X → has_loggers st X.
Proof.
  intros [[Hwf _] Hlen]. unfold has_loggers, loggers_of.
  destruct (v_loggers X) as [s|]; [|done].
  specialize (Hlen s eq_refl). destruct Hwf as (arr & Harr & Hcap & Hle).
  simpl. rewrite Harr. simpl. intros Hnil.
  apply (f_equal length) in Hnil. rewrite length_take in Hnil. simpl in Hnil. lia.
Qed.

Lemma run_attach_loggers (st : Store) (pool : list Context) (a : attach) :
  Forall (loggers_slice_ok st) pool →
  Forall (loggers_slice_ok (run_attach (st, pool) a).1) (run_attach (st, pool) a).2.
Proof.
  intros Hpool. unfold run_attach. simpl.
  destruct (pool !! attach_src a) as [X|] eqn:HX; simpl; [|done].
  pose proof (Forall_lookup_1 _ _ _ _ Hpool HX) as [HXwf HXlen].
  pose proof (attach_to_spec st X a HXwf) as (_ & _ & Hnew).
  pose proof (attach_to_loggers_len st X a HXlen) as Hlen.
  assert (Hothers : ∀ Y, ctx_wf st Y → ctx_wf (attach_to st X a).1 Y).
  { intros Y HY. by pose proof (attach_to_frame st X Y a HXwf HY) as (? & _). }
  destruct (attach_to st X a) as [st' X']. simpl in *.
  apply Forall_app. split.
  - eapply Forall_impl; [exact Hpool|]. intros Y [HY HYlen]. split; auto.
  - apply Forall_singleton. by split.
Qed.

(** Whatever contexts are derived from [context.Background()] by the three
    attach operations, in any order and from any of the contexts made so far:
    a context has a value under [loggerKey{}] exactly when a logger is
    attached to it, and the list is then not empty.  So [Log]'s test of the
    value for nil is the test for an attached logger, and [Log] never gets an
    empty list. *)
Theorem loggers_value_is_nil_or_not_empty (st : Store) (script : list attach) :
  let r := run_attaches st [Background] script in
  Forall (has_loggers r.1) r.2 ∧
  (∀ X, X ∈ r.2 → v_loggers X = None ↔ loggers_of r.1 X = []).
Proof.
  assert (Hall : Forall (loggers_slice_ok (run_attaches st [Background] script).1)
                        (run_attaches st [Background] script).2).
  { unfold run_attaches.
    assert (Forall (loggers_slice_ok st) [Background]) as Hinit.
    { apply Forall_singleton. by split. }
    revert Hinit. generalize [Background]. revert st.
    induction script as [|a script IH]; intros st pool Hpool; simpl; [done|].
    pose proof (run_attach_loggers st pool a Hpool) as Hstep.
    destruct (run_attach (st, pool) a) as [st' pool']. by apply IH. }
  cbv zeta. split.
  - eapply Forall_impl; [exact Hall|]. apply loggers_slice_ok_has.
  - intros X HX. eapply Forall_forall in Hall; [|done].
    apply loggers_slice_ok_has in Hall. unfold has_loggers in Hall.
    destruct (v_loggers X); split; done.
Qed.

(** ** Debugging *)

Lemma WithLogger_cells (st : Store) (ctx : Context) (c : codec) :
  debug_cells (WithLogger st ctx c).1 = debug_cells (withDebuggingInitialized st ctx).1 ∧
  v_debug (WithLogger st ctx c).2 = v_debug (withDebuggingInitialized st ctx).2.
Proof.
  unfold WithLogger. destruct (withDebuggingInitialized st ctx) as [st0 ctx0].
  by destruct (go_append _ _ _ _).
Qed.

Lemma with_tag_cells (st : Store) (ctx : Context) (kv : KV) :
  debug_cells (with_tag st ctx kv).1 = debug_cells st ∧
  v_debug (with_tag st ctx kv).2 = v_debug ctx.
Proof. unfold with_tag. by destruct (go_append _ _ _ _). Qed.

(** [SetDebuggingEnabled] and what [debuggingEnabled] reads afterwards, in a
    build without the tag [release]: on a context with a [debugValue] the
    flag reads as it was set, the last write standing, and the contexts with
    another [debugValue] read what they read before; on a context without
    one, which is every context that no [WithLogger] has been applied to, the
    call changes nothing, the flag reads false, and a logger attached later
    starts with debugging off.  The lists of loggers and tags are never
    touched. *)
Theorem SetDebuggingEnabled_then_read (st : Store) (ctx : Context) (enabled : bool) :
  release = false → debug_wf st ctx →
  let st' := SetDebuggingEnabled st ctx enabled in
  (is_Some (v_debug ctx) → debuggingEnabled st' ctx = enabled) ∧
  (v_debug ctx = None →
     st' = st ∧ debuggingEnabled st' ctx = false ∧
     ∀ c, let r := WithLogger st' ctx c in debuggingEnabled r.1 r.2 = false) ∧
  (∀ b, SetDebuggingEnabled st' ctx b = SetDebuggingEnabled st ctx b) ∧
  (∀ o, v_debug o ≠ v_debug ctx → debuggingEnabled st' o = debuggingEnabled st o) ∧
  (∀ o, v_debug o = v_debug ctx → debuggingEnabled st' o = debuggingEnabled st' ctx) ∧
  (∀ o, loggers_of st' o = loggers_of st o ∧ tags_of st' o = tags_of st o).
Proof.
  intros Hrel Hwf st'. subst st'.
  unfold SetDebuggingEnabled, setDebuggingEnabled, debuggingEnabled. rewrite Hrel.
  split_and!.
  - intros [p Hp]. rewrite Hp. unfold debugValue_isEnabled, debugValue_setEnabled. simpl.
    rewrite list_lookup_insert_eq by by apply Hwf. done.
  - intros Hnone. rewrite Hnone. split_and!; [done|done|].
    intros c. cbv zeta. destruct (WithLogger_cells st ctx c) as [Hcells Hptr].
    unfold debugValue_isEnabled. rewrite Hptr, Hcells. unfold withDebuggingInitialized.
    rewrite Hrel, Hnone. simpl.
    by rewrite lookup_app_r, Nat.sub_diag by done.
  - intros b. destruct (v_debug ctx) as [p|]; [|done].
    unfold debugValue_setEnabled. simpl. by rewrite list_insert_insert_eq.
  - intros o Hne. destruct (v_debug o) as [q|]; [|done].
    destruct (v_debug ctx) as [p|]; [|done].
    unfold debugValue_isEnabled, debugValue_setEnabled. simpl.
    rewrite list_lookup_insert_ne by congruence. done.
  - intros o ->. done.
  - intros o. by destruct (v_debug ctx).
Qed.

(** The [debugValue] of a derived context, in a build without the tag
    [release]: [WithLogTag] and [WithLogTagPair] hand on the parent's pointer,
    or none; [WithLogger] hands on the parent's and makes a new one, switched
    off, when the parent has none.  So the contexts derived from a context
    that has a [debugValue] share it with it: switching one of them switches
    the parent and the others.  Two loggers attached to a context that has
    none get two, and switching one leaves the other as it was. *)
Theorem derived_contexts_share_debugValue (st : Store) (ctx : Context) :
  release = false → debug_wf st ctx →
  (∀ kv, let r := with_tag st ctx kv in
     v_debug r.2 = v_debug ctx ∧ debug_cells r.1 = debug_cells st) ∧
  (∀ c, let r := WithLogger st ctx c in
     debug_wf r.1 r.2 ∧ debug_wf r.1 ctx ∧ is_Some (v_debug r.2) ∧
     debuggingEnabled r.1 ctx = debuggingEnabled st ctx ∧
     (is_Some (v_debug ctx) → v_debug r.2 = v_debug ctx ∧ debug_cells r.1 = debug_cells st) ∧
     (v_debug ctx = None → debuggingEnabled r.1 r.2 = false)) ∧
  (∀ c b, is_Some (v_debug ctx) →
     let r := WithLogger st ctx c in
     debuggingEnabled (SetDebuggingEnabled r.1 r.2 b) ctx = b ∧
     debuggingEnabled (SetDebuggingEnabled r.1 ctx b) r.2 = b) ∧
  (∀ c d b, v_debug ctx = None →
     let r1 := WithLogger st ctx c in
     let r2 := WithLogger r1.1 ctx d in
     v_debug r1.2 ≠ v_debug r2.2 ∧
     debuggingEnabled (SetDebuggingEnabled r2.1 r2.2 b) r1.2 = debuggingEnabled r2.1 r1.2 ∧
     debuggingEnabled (SetDebuggingEnabled r2.1 r1.2 b) r2.2 = debuggingEnabled r2.1 r2.2 ∧
     debuggingEnabled (SetDebuggingEnabled r2.1 r1.2 b) r1.2 = b ∧
     debuggingEnabled (SetDebuggingEnabled r2.1 r1.2 b) ctx = false).
Proof.
  intros Hrel Hwf.
  assert (Hlogger : ∀ st0 c,
    debug_cells (WithLogger st0 ctx c).1 =
      match v_debug ctx with
      | Some _ => debug_cells st0
      | None => debug_cells st0 ++ [false]
      end ∧
    v_debug (WithLogger st0 ctx c).2 =
      match v_debug ctx with
      | Some p => Some p
      | None => Some (length (debug_cells st0))
      end).
  { intros st0 c. destruct (WithLogger_cells st0 ctx c) as [-> ->].
    unfold withDebuggingInitialized. rewrite Hrel. by destruct (v_debug ctx) eqn:Hp. }
  unfold SetDebuggingEnabled, setDebuggingEnabled, debuggingEnabled, debugValue_isEnabled,
    debugValue_setEnabled. rewrite Hrel. split_and!.
  - intros kv. cbv zeta. destruct (with_tag_cells st ctx kv). done.
  - intros c. cbv zeta. destruct (Hlogger st c) as [Hcells Hptr]. rewrite Hcells, Hptr.
    unfold debug_wf in *. rewrite Hcells, Hptr.
    destruct (v_debug ctx) as [p|] eqn:Hp.
    + specialize (Hwf p eq_refl).
      split_and!; try done; eauto; intros q ?; by simplify_eq.
    + split_and!; try done; eauto.
      * intros q ?. simplify_eq. rewrite length_app. simpl. lia.
      * intros _. by rewrite lookup_app_r, Nat.sub_diag.
  - intros c b [p Hp]. cbv zeta. destruct (Hlogger st c) as [Hcells Hptr].
    rewrite Hptr, Hp. simpl. rewrite Hcells, Hp.
    rewrite list_lookup_insert_eq by by apply Hwf. done.
  - intros c d b Hnone. cbv zeta.
    destruct (Hlogger st c) as [Hcells1 Hptr1].
    destruct (Hlogger (WithLogger st ctx c).1 d) as [Hcells2 Hptr2].
    rewrite Hptr2, Hptr1, Hnone. simpl. rewrite Hcells2, Hnone, Hcells1, Hnone.
    rewrite !length_app. simpl.
    split_and!.
    + intros ?. simplify_eq. lia.
    + rewrite list_lookup_insert_ne by lia. done.
    + rewrite list_lookup_insert_ne by lia. done.
    + rewrite list_lookup_insert_eq by (rewrite !length_app; simpl; lia). done.
    + done.
Qed.

(** [Debug] logs, with the tag ["debug"] after the tags of the context and to
    the loggers of the context, exactly when the build is without the tag
    [release] and debugging is switched on globally or for the context; the
    context keeps its tags.  Otherwise it makes no call of [Log] and no
    context. *)
Theorem Debug_logs_when_enabled (globalDebugging : bool) (st : Store) (ctx : Context) :
  ctx_wf st ctx →
  (is_Some (Debug globalDebugging st ctx) ↔
   release = false ∧ (globalDebugging = true ∨ debuggingEnabled st ctx = true)) ∧
  (∀ r, Debug globalDebugging st ctx = Some r →
     tags_of r.1 r.2 = tags_of st ctx ++ [{| Key := "debug"; Value := "" |}] ∧
     loggers_of r.1 r.2 = loggers_of st ctx ∧
     tags_of r.1 ctx = tags_of st ctx ∧ loggers_of r.1 ctx = loggers_of st ctx ∧
     v_debug r.2 = v_debug ctx ∧ debug_cells r.1 = debug_cells st) ∧
  (release = true →
     ∀ enabled c, Debug (SetGlobalDebuggingEnabled globalDebugging enabled)
                    (SetDebuggingEnabled st ctx enabled) ctx = None ∧
                  SetDebuggingEnabled st ctx enabled = st ∧
                  debug_cells (WithLogger st ctx c).1 = debug_cells st ∧
                  v_debug (WithLogger st ctx c).2 = v_debug ctx).
Proof.
  intros Hwf. unfold Debug, debug. split_and!.
  - destruct release; [split; [by intros [? ?]|by intros [? _]]|].
    destruct globalDebugging; simpl.
    + split; eauto.
    + destruct (debuggingEnabled st ctx); split; try (by intros [? ?]); eauto.
      intros [_ [?|?]]; done.
  - intros r Hr. destruct release; [done|].
    destruct (globalDebugging || debuggingEnabled st ctx); [|done]. simplify_eq.
    pose proof (attach_to_spec st ctx (AttachTag 0 "debug") Hwf) as (Hl & Ht & _).
    pose proof (attach_to_frame st ctx ctx (AttachTag 0 "debug") Hwf Hwf)
      as (_ & Hl' & Ht' & _).
    simpl in *. destruct (with_tag_cells st ctx {| Key := "debug"; Value := "" |}).
    split_and!; try done.
    + apply Ht', keeps_view_refl.
    + apply Hl', keeps_view_refl.
  - intros Hrel enabled c. unfold SetDebuggingEnabled, setDebuggingEnabled.
    rewrite Hrel. split_and!; try done.
    + destruct (WithLogger_cells st ctx c) as [-> _].
      unfold withDebuggingInitialized. by rewrite Hrel.
    + destruct (WithLogger_cells st ctx c) as [_ ->].
      unfold withDebuggingInitialized. by rewrite Hrel.
Qed.

(** ** More on the dispatch engine *)

(** *** The arguments of a call stay as they are *)

Lemma same_args_refl (f : frame) : same_args f f.
Proof. by split_and!. Qed.

Lemma encode_same_args (c : Codec) (f f' : frame) (t : Time) :
  same_args f f' → encode c f' t = encode c f t.
Proof. intros (_ & Ht & Hm & Hd). unfold encode. by rewrite Ht, Hm, Hd. Qed.

Lemma step_frame_args (a : action) (s s' : state) (g : nat) (fg : frame) :
  basic_inv s → act a s = Some s' → st_frames s !! g = Some fg →
  ∃ f', st_frames s' !! g = Some f' ∧ same_args fg f' ∧
        (∀ x, fr_nextWriteReady fg = Some x → fr_nextWriteReady f' = Some x) ∧
        (∀ x, fr_t fg = Some x → fr_t f' = Some x).
Proof.
  intros Hinv H Hg. pose proof (bi_threads s Hinv) as Hok.
  destruct a as [i|d]; simpl in H; [|simplify_eq; exists fg; by split_and!].
  step_cases H; simpl; try (exists fg; by split_and!).
  all: pose proof (Forall_lookup_1 _ _ _ _ Hok Hth) as Hme; simpl in Hme;
    try (destruct Hme as (f0 & Hf0 & Hme); destruct_and?; simplify_eq).
  all: try (exists fg; split; [by apply lookup_app_l_Some|by split_and!]).
  all: eexists; (split; [by apply (lookup_frame_after _ _ _ _ _ _ Hf Hg)|]).
  all: case_decide; simplify_eq; simpl; unfold same_args; split_and!; try done;
    intros; congruence.
Qed.

Lemma step_chans (a : action) (s s' : state) :
  act a s = Some s' →
  length (st_chans s') = length (st_chans s) ∨
  ∃ i fid rest f, st_threads s !! i = Some (TLog fid PMake rest) ∧
    st_frames s !! fid = Some f ∧
    length (st_chans s') = S (length (st_chans s)) ∧
    st_frames s' !! fid = Some (with_nextWriteReady (length (st_chans s)) f).
Proof.
  intros H. destruct a as [i|d]; simpl in H; [|simplify_eq; by left].
  step_cases H; simpl; try by left.
  - right. exists i, fid, rest, f. split_and!; try done.
    + rewrite length_app. simpl. lia.
    + apply list_lookup_insert_eq. by eapply lookup_lt_Some.
  - left. by rewrite length_insert.
Qed.

Lemma step_chans_mono (a : action) (s s' : state) :
  act a s = Some s' → (length (st_chans s) ≤ length (st_chans s'))%nat.
Proof. intros H. destruct (step_chans a s s' H) as [->|(? & ? & ? & ? & _ & _ & -> & _)]; lia. Qed.

(** *** Channels, tokens and encoded entries *)

Lemma step_ei_chan (a : action) (s s' : state) (k : nat) :
  basic_inv s → engine_inv s → act a s = Some s' →
  (S k < length (st_chans s'))%nat →
  ∃ g f, st_frames s' !! g = Some f ∧ fr_nextWriteReady f = Some (S k).
Proof.
  intros Hinv Hei H Hk.
  assert (Hold : (S k < length (st_chans s))%nat →
                 ∃ g f, st_frames s' !! g = Some f ∧ fr_nextWriteReady f = Some (S k)).
  { intros Hlt. destruct (ei_chan s Hei k Hlt) as (g & f & Hg & Hn).
    destruct (step_frame_grows a s s' g f Hinv H Hg) as (f' & Hg' & _ & _ & Hn' & _).
    exists g, f'. split; [done|by apply Hn']. }
  destruct (step_chans a s s' H) as [Hlen|(i & fid & rest & f & _ & _ & Hlen & Hf')].
  - apply Hold. lia.
  - destruct (decide (S k < length (st_chans s))%nat) as [|Hge]; [by apply Hold|].
    exists fid, (with_nextWriteReady (length (st_chans s)) f).
    split; [done|]. simpl. f_equal. lia.
Qed.

Lemma step_ei_sync (a : action) (s s' : state) (j : nat) (th' : thread) (tk : nat) :
  basic_inv s → engine_inv s → act a s = Some s' →
  st_threads s' !! j = Some th' → sync_token th' = Some tk →
  (tk < length (st_chans s'))%nat.
Proof.
  intros Hinv Hei H Hj Htok. pose proof (step_chans_mono a s s' H) as Hmono.
  pose proof (ei_sync s Hei) as Hold. pose proof (bi_token s Hinv) as Htoken.
  assert (Hkeep : ∀ j0 th0, st_threads s !! j0 = Some th0 → sync_token th0 = Some tk →
                    (tk < length (st_chans s'))%nat).
  { intros j0 th0 Hj0 Ht0. specialize (Hold _ _ _ Hj0 Ht0). lia. }
  destruct a as [i|d]; simpl in H; [|simplify_eq; by eauto].
  step_cases H; thread_after Hth Hj; simplify_eq; try done; try by eauto.
  simpl in *. simplify_eq. lia.
Qed.

Lemma step_ei_spawn (a : action) (s s' : state) (j g : nat) (todo' : list Codec)
    (rest' : list cmd) :
  basic_inv s → engine_inv s → act a s = Some s' →
  st_threads s' !! j = Some (TLog g (PSpawn todo') rest') →
  ∃ fg, st_frames s' !! g = Some fg ∧ todo' ⊆ fr_loggers fg.
Proof.
  intros Hinv Hei H Hj. pose proof H as Hact.
  assert (Hkeep : ∀ fg0, st_frames s !! g = Some fg0 → todo' ⊆ fr_loggers fg0 →
                    ∃ fg, st_frames s' !! g = Some fg ∧ todo' ⊆ fr_loggers fg).
  { intros fg0 Hg Hsub.
    destruct (step_frame_grows a s s' g fg0 Hinv Hact Hg) as (f' & Hg' & Hl & _).
    exists f'. split; [done|by rewrite Hl]. }
  pose proof (ei_spawn s Hei) as Hold.
  destruct a as [i|d]; simpl in H; [|simplify_eq; by eauto].
  step_cases H; thread_after Hth Hj; simplify_eq; try done;
    try (destruct (Hold _ _ _ _ Hj) as (fg0 & Hg0 & Hsub0); by eauto).
  - by eapply Hkeep.
  - destruct (Hold _ _ _ _ Hth) as (fg0 & Hg0 & Hsub0).
    eapply Hkeep; [done|]. intros x Hx. apply Hsub0. by right.
Qed.

Lemma step_ei_codec (a : action) (s s' : state) (j g : nat) (cj : Codec) (pcj : codec_pc) :
  basic_inv s → engine_inv s → act a s = Some s' →
  st_threads s' !! j = Some (TCodec g cj pcj) →
  ∃ fg tg, st_frames s' !! g = Some fg ∧ fr_t fg = Some tg ∧ cj ∈ fr_loggers fg ∧
           ∀ b, holds_bytes pcj = Some b → encode cj fg tg = Ok (Some b).
Proof.
  intros Hinv Hei H Hj. pose proof H as Hact.
  assert (Hkeep : ∀ pc0 fg0 tg, st_frames s !! g = Some fg0 → fr_t fg0 = Some tg →
                    cj ∈ fr_loggers fg0 →
                    (∀ b, holds_bytes pc0 = Some b → encode cj fg0 tg = Ok (Some b)) →
                    (∀ b, holds_bytes pcj = Some b → holds_bytes pc0 = Some b) →
                    ∃ fg tg, st_frames s' !! g = Some fg ∧ fr_t fg = Some tg ∧
                             cj ∈ fr_loggers fg ∧
                             ∀ b, holds_bytes pcj = Some b → encode cj fg tg = Ok (Some b)).
  { intros pc0 fg0 tg Hg Ht Hin Hb Hpc.
    destruct (step_frame_args a s s' g fg0 Hinv Hact Hg) as (f' & Hg' & Hargs & _ & Ht').
    exists f', tg. split_and!; [done|by apply Ht'| |].
    - destruct Hargs as (-> & _). done.
    - intros b Hbytes. rewrite (encode_same_args cj fg0 f' tg Hargs). by apply Hb, Hpc. }
  pose proof (ei_codec s Hei) as Hold. pose proof (ei_spawn s Hei) as Hspawn.
  pose proof (bi_threads s Hinv) as Hok.
  assert (Hsame : ∀ j0, st_threads s !! j0 = Some (TCodec g cj pcj) →
                    ∃ fg tg, st_frames s' !! g = Some fg ∧ fr_t fg = Some tg ∧
                             cj ∈ fr_loggers fg ∧
                             ∀ b, holds_bytes pcj = Some b → encode cj fg tg = Ok (Some b)).
  { intros j0 Hj0. destruct (Hold _ _ _ _ Hj0) as (fg0 & tg & Hg & Ht & Hin & Hb).
    by eapply (Hkeep pcj). }
  destruct a as [i|d]; simpl in H; [|simplify_eq; by eauto].
  step_cases H; thread_after Hth Hj; simplify_eq; try done; try by eauto.
  all: try (destruct (Hold _ _ _ _ Hth) as (fg0 & tg & Hg & Ht & Hin & Hb);
            eapply (Hkeep _ fg0 tg); [done|done|done|exact Hb|];
            simpl; by intros).
  - destruct (Hspawn _ _ _ _ Hth) as (fg0 & Hg0 & Hsub).
    pose proof (Forall_lookup_1 _ _ _ _ Hok Hth) as (f0 & Hf0 & [tg Htg]). simplify_eq.
    eapply (Hkeep CEncode f tg); [done|done|apply Hsub; by left|done|done].
  - destruct (Hold _ _ _ _ Hth) as (fg0 & tg & Hg & Ht & Hin & _). simplify_eq.
    eexists _, _. split_and!; [done|done|done|].
    intros b0 Hbytes.
    match goal with
    | E : encode _ _ _ = Ok ?o |- _ => destruct o; simpl in Hbytes; by simplify_eq
    end.
Qed.

Lemma step_ei_entry (a : action) (s s' : state) (w : nat) (e : entry) :
  basic_inv s → engine_inv s → act a s = Some s' → e ∈ sink s' w →
  ∃ fg cj, st_frames s' !! en_call e = Some fg ∧ fr_t fg = Some (en_time e) ∧
           cj ∈ fr_loggers fg ∧ codec_writer cj = w ∧
           encode cj fg (en_time e) = Ok (Some (en_bytes e)).
Proof.
  intros Hinv Hei H He.
  assert (∃ fg cj, st_frames s !! en_call e = Some fg ∧ fr_t fg = Some (en_time e) ∧
                   cj ∈ fr_loggers fg ∧ codec_writer cj = w ∧
                   encode cj fg (en_time e) = Ok (Some (en_bytes e)))
    as (fg & cj & Hg & Ht & Hin & Hw & Henc).
  { destruct (step_sink a s s' w H) as [[Heq _]|(i & fid & c & b & fg & ch & t & _ & Hi & Hw &
                                                 Hg & _ & Ht & Heq)];
      rewrite Heq in He; [by apply (ei_entry s Hei w)|].
    apply elem_of_app in He as [He|He]; [by apply (ei_entry s Hei w)|].
    apply list_elem_of_singleton in He as ->. simpl.
    destruct (ei_codec s Hei _ _ _ _ Hi) as (f0 & t0 & Hg0 & Ht0 & Hin & Hb).
    simplify_eq. exists fg, c. split_and!; try done. by apply Hb. }
  destruct (step_frame_args a s s' _ fg Hinv H Hg) as (f' & Hg' & Hargs & _ & Ht').
  exists f', cj. split_and!; [done|by apply Ht'| |done|].
  - destruct Hargs as (-> & _). done.
  - by rewrite (encode_same_args cj fg f' _ Hargs).
Qed.

Lemma engine_inv_init (now : Z) (scripts : list (list cmd)) : engine_inv (init now scripts).
Proof.
  split; simpl.
  - intros k Hk. lia.
  - intros i th tok Hi Htok. apply list_lookup_fmap_Some in Hi as (? & ? & ?).
    by simplify_eq.
  - intros i fid todo rest Hi. apply list_lookup_fmap_Some in Hi as (? & ? & ?). done.
  - intros i fid c pc Hi. apply list_lookup_fmap_Some in Hi as (? & ? & ?). done.
  - intros w e He. unfold sink in He. simpl in He. rewrite lookup_empty in He.
    by apply elem_of_nil in He.
Qed.

Lemma engine_inv_step (a : action) (s s' : state) :
  basic_inv s → engine_inv s → act a s = Some s' → engine_inv s'.
Proof.
  intros Hinv Hei H. split.
  - intros k. by eapply step_ei_chan.
  - intros i th tok. by eapply step_ei_sync.
  - intros i fid todo rest. by eapply step_ei_spawn.
  - intros i fid c pc. by eapply step_ei_codec.
  - intros w e. by eapply step_ei_entry.
Qed.

Lemma reach_engine_inv (scripts : list (list cmd)) (s : state) :
  reach scripts s → basic_inv s ∧ count_inv s ∧ engine_inv s.
Proof.
  intros (now & schedule & H).
  eapply (run_invariant (λ s, basic_inv s ∧ count_inv s ∧ engine_inv s)); [| |done].
  - intros a s1 s2 (Hb & Hc & He) Ha.
    split_and!; [by eapply basic_inv_step|by eapply count_inv_step|by eapply engine_inv_step].
  - split_and!; [apply basic_inv_init|apply count_inv_init|apply engine_inv_init].
Qed.

(** *** The data of the calls *)

Lemma data_inv_step (a : action) (s s' : state) :
  data_inv s → act a s = Some s' → data_inv s'.
Proof.
  intros [Hfr Hsc] H.
  destruct a as [i|d]; simpl in H; [|by simplify_eq].
  split.
  - step_cases H; simpl; try done.
    all: try (apply Forall_insert; [done|]; simpl; by eapply (Forall_lookup_1 _ _ _ _ Hfr)).
    apply Forall_app. split; [done|]. apply Forall_singleton. simpl.
    pose proof (Forall_lookup_1 _ _ _ _ Hsc Hth) as Hs. simpl in Hs.
    by apply Forall_cons in Hs as [Hs _].
  - step_cases H; simpl; try done.
    all: pose proof (Forall_lookup_1 _ _ _ _ Hsc Hth) as Hs; simpl in Hs;
      try apply Forall_cons in Hs as [_ Hs].
    all: try (apply Forall_insert; [|done]).
    all: try (apply Forall_app; split; [done|]; by apply Forall_singleton).
    all: try done.
Qed.

Lemma data_inv_init (now : Z) (scripts : list (list cmd)) :
  Forall (Forall cmd_data_ok) scripts → data_inv (init now scripts).
Proof. intros H. split; simpl; [done|by apply Forall_fmap]. Qed.

Lemma sum_list_with_le_lookup {A} (f g : A → nat) (l : list A) :
  (∀ j x, l !! j = Some x → (f x ≤ g x)%nat) → (sum_list_with f l ≤ sum_list_with g l)%nat.
Proof.
  induction l as [|x l IH]; intros H; simpl; [done|].
  pose proof (H 0%nat x eq_refl). specialize (IH (λ j y Hj, H (S j) y Hj)). lia.
Qed.

(** *** The mutex *)

(** In every state of the engine at most one thread is between the [Lock] and
    the [Unlock] of [globalLogSyncer.mu], in [Log] or in [Sync], and the
    mutex is held exactly when one is. *)
Theorem mutex_is_exclusive (scripts : list (list cmd)) (s : state) :
  reach scripts s →
  (∀ i j th th', st_threads s !! i = Some th → st_threads s !! j = Some th' →
                 in_crit th = 1%nat → in_crit th' = 1%nat → i = j) ∧
  (st_mu s = true ↔ ∃ i th, st_threads s !! i = Some th ∧ in_crit th = 1%nat).
Proof.
  intros Hreach. pose proof (reach_basic_inv _ _ Hreach) as Hinv. split.
  - intros i j th th'. by apply mutex_excludes.
  - split.
    + intros Hmu. pose proof (bi_mutex s Hinv) as Hsum. rewrite Hmu in Hsum.
      destruct (sum_list_with_pos in_crit (st_threads s)) as (i & th & Hi & Hpos); [lia|].
      exists i, th. split; [done|].
      destruct th as [|fid pc rest|pc rest| |]; simpl in *; try lia; destruct pc; simpl in *; lia.
    + intros (i & th & Hi & Hc). by eapply crit_holds_mutex.
Qed.

(** *** What the writers hold *)

(** Every entry of a writer is what a codec of its call, one that writes to
    this writer, encoded from the arguments of the call and from the timestamp
    that the call took under the mutex; for the text codec that is the line of
    [text_encode].  No codec of a call has more than one entry. *)
Theorem entries_are_encodings_of_their_calls (scripts : list (list cmd)) (s : state) :
  Forall (Forall cmd_ok) scripts → reach scripts s →
  (∀ w e, e ∈ sink s w →
     ∃ f c, st_frames s !! en_call e = Some f ∧ fr_t f = Some (en_time e) ∧
            c ∈ fr_loggers f ∧ codec_writer c = w ∧
            encode c f (en_time e) = Ok (Some (en_bytes e)) ∧
            (c = TextCodec w →
             en_bytes e = text_encode (en_time e) (fr_tags f) (fr_message f) (fr_data f))) ∧
  (∀ w g f, st_frames s !! g = Some f →
     (sum_list_with (entry_of g) (sink s w) ≤ count_codecs (writes_to w) (fr_loggers f))%nat).
Proof.
  intros Hok Hreach.
  destruct (reach_engine_inv _ _ Hreach) as (Hinv & Hci & Hei).
  destruct (reach_order_inv _ _ Hok Hreach) as (_ & _ & Hoi).
  split.
  - intros w e He.
    destruct (ei_entry s Hei w e He) as (f & c & Hf & Ht & Hin & Hw & Henc).
    exists f, c. split_and!; try done.
    intros ->. simpl in Henc. by simplify_eq.
  - intros w g f Hg.
    rewrite (oi_count s Hoi w g), <- (ci_attached s Hci (writes_to w) g f Hg).
    apply sum_list_with_le_lookup. intros i th Hi.
    destruct th as [|fid pc rest| |fid c pc|]; simpl; try lia; unfold on_frame.
    case_decide; [|lia]. unfold writes_to. case_decide; case_bool_decide; try done; simpl.
    destruct (has_written pc); simpl; lia.
Qed.

(** *** The chain of channels *)

Lemma reach_closed_zero (scripts : list (list cmd)) (s : state) :
  reach scripts s → closed s 0.
Proof.
  intros (now & schedule & H).
  eapply (run_invariant (λ s, closed s 0)); [| |done].
  - intros a s1 s2 Hc Ha. by eapply step_closed_mono.
  - done.
Qed.

(** When a call has its watcher, the goroutines of its codecs are all
    started. *)
Lemma watcher_means_all_started (s : state) (j g : nat) (pcw : watch_pc) (fg : frame)
    (P : Codec → bool) :
  count_inv s → st_threads s !! j = Some (TWatcher g pcw) → st_frames s !! g = Some fg →
  sum_list_with (goroutine_of P g) (st_threads s) = count_codecs P (fr_loggers fg).
Proof.
  intros Hci Hj Hg. rewrite <- (ci_attached s Hci P g fg Hg).
  apply sum_list_with_ext_lookup. intros i th Hi.
  destruct th as [|fid pc rest| |fid c pc|]; simpl; try done.
  unfold on_frame. case_decide; [subst fid|done].
  destruct (decide (i = j)) as [->|Hij]; [by simplify_eq|].
  pose proof (watcher_excludes s i j _ _ _ _ Hci Hg Hj Hi Hij) as Hex.
  simpl in Hex. unfold on_frame in Hex. rewrite decide_True in Hex by done.
  by destruct pc.
Qed.

(** The channels after the first are the channels of the calls, one each, in
    the order of the token swaps: a call waits on the channel of the call
    that swapped the token just before it, the first call on the channel
    that [init] has closed. *)
Theorem calls_are_chained (scripts : list (list cmd)) (s : state) :
  reach scripts s →
  closed s 0 ∧
  (∀ g f n, st_frames s !! g = Some f → fr_nextWriteReady f = Some n →
     (0 < n < length (st_chans s))%nat ∧ fr_writeReady f = Some (n - 1)%nat) ∧
  (∀ g h f f' n, st_frames s !! g = Some f → st_frames s !! h = Some f' →
     fr_nextWriteReady f = Some n → fr_nextWriteReady f' = Some n → g = h) ∧
  (∀ k, (0 < k < length (st_chans s))%nat →
     ∃ g f, st_frames s !! g = Some f ∧ fr_nextWriteReady f = Some k) ∧
  (st_writeReady s < length (st_chans s))%nat.
Proof.
  intros Hreach. destruct (reach_engine_inv _ _ Hreach) as (Hinv & Hci & Hei).
  split_and!.
  - by eapply reach_closed_zero.
  - intros g f n Hg Hn.
    destruct (Forall_lookup_1 _ _ _ _ (bi_frames s Hinv) Hg) as (_ & Hnext & _).
    destruct (Hnext _ Hn) as (Hlt & x & Hx & ->). split; [lia|].
    rewrite Hx. f_equal. lia.
  - apply (bi_unique s Hinv).
  - intros [|k] Hk; [lia|]. apply (ei_chan s Hei). lia.
  - pose proof (bi_token s Hinv). lia.
Qed.

(** An entry is written only when the call that swapped the token just
    before the entry's call is through: its channel is closed, its watcher
    has ended, and the goroutines of its codecs, which are all started, have
    all returned, with or without a write. *)
Theorem write_waits_for_previous_call (scripts : list (list cmd)) (s : state) :
  Forall (Forall cmd_ok) scripts → reach scripts s →
  ∀ w e, e ∈ sink s w →
    closed s (en_gate e) ∧
    (∃ f, st_frames s !! en_call e = Some f ∧ fr_writeReady f = Some (en_gate e) ∧
          fr_nextWriteReady f = Some (S (en_gate e))) ∧
    ∀ g fg, st_frames s !! g = Some fg → fr_nextWriteReady fg = Some (en_gate e) →
      (∃ j, st_threads s !! j = Some (TWatcher g WFinished)) ∧
      (∀ j c pc, st_threads s !! j = Some (TCodec g c pc) → finished pc = true) ∧
      (∀ P, sum_list_with (goroutine_of P g) (st_threads s) = count_codecs P (fr_loggers fg)).
Proof.
  intros Hok Hreach w e He.
  destruct (reach_order_inv _ _ Hok Hreach) as (Hinv & Hci & Hoi).
  destruct (oi_sink s Hoi w e He) as (f & Hf & Hw & Ht & Hc).
  split_and!; [done| |].
  - exists f. split_and!; [done|done|].
    destruct (Forall_lookup_1 _ _ _ _ (bi_frames s Hinv) Hf) as (_ & Hnext & Htime).
    destruct (Htime _ Ht) as (_ & n & Hn & _).
    destruct (Hnext _ Hn) as (_ & x & Hx & ->). by simplify_eq.
  - intros g fg Hg Hn.
    destruct (Forall_lookup_1 _ _ _ _ (bi_frames s Hinv) Hg) as (_ & Hnext & _).
    destruct (Hnext _ Hn) as (_ & x & Hx & Heq). rewrite Heq in Hc, Hn.
    destruct (oi_closed s Hoi x Hc) as (g' & fg' & j & Hg' & Hn' & Hj).
    pose proof (bi_unique s Hinv _ _ _ _ _ Hg Hg' Hn Hn') as <-.
    destruct (watcher_sees_finished s j g _ Hinv Hci Hoi Hj ltac:(done)) as (Hall & _).
    split_and!; [by exists j|done|].
    intros P. by eapply watcher_means_all_started.
Qed.

(** ** The engine neither panics nor comes to rest too early *)

Lemma encode_returns (c : Codec) (f : frame) (t : Time) :
  Forall (λ d, kind_in_range d = true) (fr_data f) → ∃ b, encode c f t = Ok b.
Proof.
  intros Hall. destruct c as [w|w]; simpl; [eauto|].
  unfold json_encode, mapData.
  destruct (mapData_from_spec (fr_data f) ∅ Hall) as (m & -> & _). simpl. eauto.
Qed.

Lemma encode_panics (w : nat) (f : frame) (t : Time) :
  Exists (λ d, kind_in_range d = false) (fr_data f) →
  encode (JSONCodec w) f t = Panic "no data".
Proof.
  intros Hex. simpl. unfold json_encode, mapData.
  by rewrite mapData_from_panics.
Qed.

(** A datum of a kind out of range, the zero [Data] for one, in a call with a
    JSON codec: the goroutine of the codec panics in [mapData], which stops the
    process with nothing written; no thread takes a step after it.  The text
    codec encodes the same call, leaving the datum out. *)
Theorem invalid_datum_panics_in_JSON_codec (s : state) (i fid w : nat) (f : frame)
    (t : Time) :
  st_panicked s = false →
  st_threads s !! i = Some (TCodec fid (JSONCodec w) CEncode) →
  st_frames s !! fid = Some f → fr_t f = Some t →
  Exists (λ d, kind_in_range d = false) (fr_data f) →
  exec i s = Some (panic s) ∧ at_rest (panic s) ∧ st_sinks (panic s) = st_sinks s ∧
  ∀ w', encode (TextCodec w') f t =
        Ok (Some (text_encode t (fr_tags f) (fr_message f)
                    (filter (λ d, kind_in_range d = true) (fr_data f)))).
Proof.
  intros Hnp Hi Hf Ht Hex. split_and!.
  - pose proof (encode_panics w f t Hex) as Hp. simpl in Hp.
    unfold exec. rewrite Hnp, Hi. simpl. unfold step_codec. rewrite Hf. simpl.
    rewrite Ht. simpl. by rewrite Hp.
  - intros j. done.
  - done.
  - intros w'. simpl. unfold text_encode. by rewrite <- foldl_write_datum_filter.
Qed.

(** A watcher that is to close its channel finds it open. *)
Lemma watcher_finds_channel_open (s : state) (i g : nat) (fg : frame) (k : nat) :
  basic_inv s → count_inv s → order_inv s →
  st_threads s !! i = Some (TWatcher g WClose) → st_frames s !! g = Some fg →
  fr_nextWriteReady fg = Some k → ¬ closed s k.
Proof.
  intros Hinv Hci Hoi Hi Hg Hk Hc.
  destruct (Forall_lookup_1 _ _ _ _ (bi_frames s Hinv) Hg) as (_ & Hnext & _).
  destruct (Hnext _ Hk) as (_ & x & Hx & ->).
  destruct (oi_closed s Hoi x Hc) as (g' & fg' & j & Hg' & Hk' & Hj).
  pose proof (bi_unique s Hinv _ _ _ _ _ Hg Hg' Hk Hk') as <-.
  destruct (decide (j = i)) as [->|Hne]; [by simplify_eq|].
  pose proof (watcher_excludes s j i _ _ _ _ Hci Hg Hi Hj Hne) as Hex.
  simpl in Hex. unfold on_frame in Hex. by rewrite decide_True in Hex.
Qed.

Lemma step_no_panic (a : action) (s s' : state) :
  basic_inv s → count_inv s → order_inv s → data_inv s →
  st_panicked s = false → act a s = Some s' → st_panicked s' = false.
Proof.
  intros Hinv Hci Hoi Hdi Hnp H.
  destruct a as [i|d]; simpl in H; [|by simplify_eq].
  step_cases H; simpl; try done.
  - pose proof (Forall_lookup_1 _ _ _ _ (di_frames s Hdi) Hf) as Hdata. simpl in Hdata.
    destruct (encode_returns c f t Hdata) as [b0 Hb0]. congruence.
  - pose proof (ci_encodes s Hci fid f Hf) as Hsum.
    pose proof (sum_list_with_lookup (pending_encodes fid) _ _ _ Hth) as Hle.
    simpl in Hle. unfold on_frame in Hle. rewrite decide_True in Hle by done.
    simpl in Hle. exfalso. lia.
  - pose proof (ci_encodes s Hci fid f Hf) as Hsum.
    pose proof (sum_list_with_lookup (pending_encodes fid) _ _ _ Hth) as Hle.
    simpl in Hle. unfold on_frame in Hle. rewrite decide_True in Hle by done.
    simpl in Hle. exfalso. lia.
  - pose proof (ci_writes s Hci fid f Hf) as Hsum.
    pose proof (sum_list_with_lookup (pending_writes fid) _ _ _ Hth) as Hle.
    simpl in Hle. unfold on_frame in Hle. rewrite decide_True in Hle by done.
    simpl in Hle. exfalso. lia.
  - by destruct (watcher_finds_channel_open s i fid f n Hinv Hci Hoi Hth Hf).
Qed.

Lemma reach_safe (scripts : list (list cmd)) (s : state) :
  Forall (Forall cmd_ok) scripts → Forall (Forall cmd_data_ok) scripts →
  reach scripts s →
  (basic_inv s ∧ count_inv s ∧ order_inv s ∧ data_inv s) ∧ st_panicked s = false.
Proof.
  intros Hok Hdata (now & schedule & H).
  eapply (run_invariant (λ s, (basic_inv s ∧ count_inv s ∧ order_inv s ∧ data_inv s) ∧
                              st_panicked s = false)); [| |done].
  - intros a s1 s2 [(Hb & Hc & Ho & Hd) Hnp] Ha. split; [split_and!|].
    + by eapply basic_inv_step.
    + by eapply count_inv_step.
    + by eapply order_inv_step.
    + by eapply data_inv_step.
    + by eapply step_no_panic.
  - split; [split_and!|done].
    + apply basic_inv_init.
    + apply count_inv_init.
    + by apply order_inv_init.
    + by apply data_inv_init.
Qed.

(** With contexts that [WithLogger] has made and data that the constructors
    have made, the process never panics: no encoding panics, no counter of a
    [WaitGroup] goes below zero, and no channel is closed twice. *)
Theorem engine_never_panics (scripts : list (list cmd)) (s : state) :
  Forall (Forall cmd_ok) scripts → Forall (Forall cmd_data_ok) scripts →
  reach scripts s → st_panicked s = false.
Proof. intros Hok Hdata Hreach. by destruct (reach_safe scripts s Hok Hdata Hreach). Qed.

(** *** Rest *)

Lemma frame_with_time (s : state) (g : nat) (fg : frame) :
  basic_inv s → st_frames s !! g = Some fg → is_Some (fr_t fg) →
  ∃ x, fr_writeReady fg = Some x ∧ fr_nextWriteReady fg = Some (S x) ∧
       (S x < length (st_chans s))%nat.
Proof.
  intros Hinv Hg [t Ht].
  destruct (Forall_lookup_1 _ _ _ _ (bi_frames s Hinv) Hg) as (_ & Hnext & Htime).
  destruct (Htime _ Ht) as (_ & n & Hn & _).
  destruct (Hnext _ Hn) as (Hlt & x & Hx & ->). by exists x.
Qed.

Lemma crit_enabled (s : state) (i : nat) (th : thread) :
  basic_inv s → st_panicked s = false → st_threads s !! i = Some th →
  in_crit th = 1%nat → is_Some (exec i s).
Proof.
  intros Hinv Hnp Hi Hc. unfold exec. rewrite Hnp, Hi. simpl.
  pose proof (Forall_lookup_1 _ _ _ _ (bi_threads s Hinv) Hi) as Hok.
  destruct th as [|fid pc rest|pc rest| |]; simpl in Hc; try done.
  - destruct Hok as (f & Hf & Hpc). unfold step_log. rewrite Hf. simpl.
    destruct pc; try done; try by eauto.
    destruct Hpc as (_ & -> & _). simpl. eauto.
  - destruct pc; try done; simpl; eauto.
Qed.

Lemma rest_mutex_free (s : state) :
  basic_inv s → st_panicked s = false → at_rest s → st_mu s = false.
Proof.
  intros Hinv Hnp Hrest. destruct (st_mu s) eqn:Hmu; [|done].
  pose proof (bi_mutex s Hinv) as Hsum. rewrite Hmu in Hsum.
  destruct (sum_list_with_pos in_crit (st_threads s)) as (i & th & Hi & Hpos); [lia|].
  assert (in_crit th = 1%nat) as Hc.
  { destruct th as [|fid pc rest|pc rest| |]; simpl in *; try lia; destruct pc; simpl in *; lia. }
  destruct (crit_enabled s i th Hinv Hnp Hi Hc) as [s' Hs']. by rewrite Hrest in Hs'.
Qed.

Lemma rest_waits (s : state) (i : nat) (th : thread) :
  basic_inv s → st_panicked s = false → st_mu s = false →
  st_threads s !! i = Some th → exec i s = None → waits s th.
Proof.
  intros Hinv Hnp Hmu Hi H. unfold exec in H. rewrite Hnp, Hi in H. simpl in H.
  pose proof (Forall_lookup_1 _ _ _ _ (bi_threads s Hinv) Hi) as Hok.
  destruct th as [script|fid pc rest|pc rest|fid c pc|fid pc]; simpl in *.
  - destruct script as [|[ctx message data|] script]; [done| |done].
    simpl in H. by destruct (lc_loggers ctx).
  - destruct Hok as (f & Hf & Hpc). unfold step_log in H. rewrite Hf in H. simpl in H.
    destruct pc as [| | | | | | |[|c todo]|]; try done.
    + by rewrite Hmu in H.
    + destruct Hpc as (_ & Hn & _). by rewrite Hn in H.
    + split; [done|]. exists f. split; [done|]. by case_decide.
  - unfold step_sync in H. destruct pc as [| |tok|tok]; try done.
    + by rewrite Hmu in H.
    + exists tok. split; [done|]. unfold closed. intros Hc. by rewrite Hc in H.
  - destruct Hok as (f & Hf & Ht). unfold step_codec in H. rewrite Hf in H. simpl in H.
    destruct (frame_with_time s fid f Hinv Hf Ht) as (x & Hx & _).
    destruct Ht as [t Ht].
    destruct pc as [|o|b|b|wrote|wrote]; [| | | | |by left].
    + rewrite Ht in H. simpl in H. by destruct (encode c f t).
    + by destruct (fr_encodesDone f), o.
    + right. exists b, f, x. split_and!; [done|done|done|].
      rewrite Hx in H. simpl in H. unfold closed. intros Hc. by rewrite Hc in H.
    + by rewrite Hx, Ht in H.
    + by destruct (fr_writesDone f).
  - destruct Hok as (f & Hf & Ht). unfold step_watcher in H. rewrite Hf in H. simpl in H.
    destruct (frame_with_time s fid f Hinv Hf Ht) as (x & _ & Hn & Hlt).
    destruct pc; [| |by left].
    + right. split; [done|]. exists f. split; [done|]. by case_decide.
    + rewrite Hn in H. simpl in H.
      destruct (lookup_lt_is_Some_2 (st_chans s) (S x) Hlt) as [[|] Hb];
        by rewrite Hb in H.
Qed.

(** A counter of a [WaitGroup] that is not zero has a thread of the call that
    can take a step, unless a goroutine of the call waits for its channel. *)
Lemma rest_no_encode_pending (s : state) (g : nat) (fg : frame) :
  basic_inv s → count_inv s → st_panicked s = false → st_mu s = false → at_rest s →
  st_frames s !! g = Some fg → fr_encodesDone fg = 0%nat.
Proof.
  intros Hinv Hci Hnp Hmu Hrest Hg.
  destruct (decide (fr_encodesDone fg = 0%nat)) as [|Hne]; [done|].
  rewrite (ci_encodes s Hci g fg Hg) in Hne.
  destruct (sum_list_with_pos (pending_encodes g) (st_threads s)) as (i & th & Hi & Hpos);
    [lia|].
  pose proof (rest_waits s i th Hinv Hnp Hmu Hi (Hrest i)) as Hw.
  destruct th as [|fid pc rest| |fid c pc|]; simpl in Hpos, Hw; try lia.
  - destruct Hw as [-> _]. simpl in Hpos. lia.
  - unfold on_frame in Hpos. case_decide; [|lia].
    destruct Hw as [Hfin|(b & f & x & -> & _)]; [|simpl in Hpos; lia].
    destruct pc; simpl in *; done || lia.
Qed.

Lemma rest_pending_write_waits (s : state) (g : nat) (fg : frame) :
  basic_inv s → count_inv s → st_panicked s = false → st_mu s = false → at_rest s →
  st_frames s !! g = Some fg → fr_writesDone fg ≠ 0%nat →
  ∃ x, fr_writeReady fg = Some x ∧ ¬ closed s x.
Proof.
  intros Hinv Hci Hnp Hmu Hrest Hg Hne.
  rewrite (ci_writes s Hci g fg Hg) in Hne.
  destruct (sum_list_with_pos (pending_writes g) (st_threads s)) as (i & th & Hi & Hpos);
    [lia|].
  pose proof (rest_waits s i th Hinv Hnp Hmu Hi (Hrest i)) as Hw.
  destruct th as [|fid pc rest| |fid c pc|]; simpl in Hpos, Hw; try lia.
  - destruct Hw as [-> _]. simpl in Hpos. lia.
  - unfold on_frame in Hpos. case_decide; [subst fid|lia].
    destruct Hw as [Hfin|(b & f & x & -> & Hf & Hx & Hc)].
    + rewrite Hfin in Hpos. simpl in Hpos. lia.
    + simplify_eq. by exists x.
Qed.

Lemma rest_all_closed (s : state) (k : nat) :
  basic_inv s → count_inv s → order_inv s → engine_inv s →
  st_panicked s = false → at_rest s →
  (k < length (st_chans s))%nat → closed s k.
Proof.
  intros Hinv Hci Hoi Hei Hnp Hrest.
  pose proof (rest_mutex_free s Hinv Hnp Hrest) as Hmu.
  induction k as [|k IH]; intros Hk; [by apply oi_zero|].
  destruct (ei_chan s Hei k Hk) as (g & fg & Hg & Hn).
  destruct (Forall_lookup_1 _ _ _ _ (bi_frames s Hinv) Hg) as (_ & Hnext & _).
  destruct (Hnext _ Hn) as (_ & x & Hx & Heq). simplify_eq.
  pose proof (ci_spawning s Hci g fg Hg) as Hsp.
  destruct (sum_list_with_pos (spawning g) (st_threads s)) as (i & th & Hi & Hpos); [lia|].
  pose proof (rest_waits s i th Hinv Hnp Hmu Hi (Hrest i)) as Hw.
  destruct th as [|fid pc rest| |fid c pc|fid pc]; simpl in Hpos, Hw; try lia.
  - destruct Hw as [-> _]. unfold on_frame in Hpos. case_decide; simpl in Hpos; lia.
  - unfold on_frame in Hpos. case_decide; [subst fid|lia].
    destruct Hw as [->|[-> (f & Hf & Hne)]].
    + destruct (oi_watch s Hoi _ _ _ Hi ltac:(done)) as (f & Hf & _ & Hfin).
      destruct (Hfin eq_refl) as (n & Hn' & Hc). by simplify_eq.
    + assert (f = fg) as -> by congruence.
      destruct (rest_pending_write_waits s g fg Hinv Hci Hnp Hmu Hrest Hg Hne)
        as (x' & Hx' & Hopen).
      rewrite Hx in Hx'. simplify_eq. destruct Hopen. apply IH. lia.
Qed.

Lemma rest_all_ended (s : state) :
  basic_inv s → count_inv s → order_inv s → engine_inv s →
  st_panicked s = false → at_rest s →
  Forall (λ th, ended th = true) (st_threads s) ∧
  Forall (λ b, b = true) (st_chans s) ∧
  st_mu s = false.
Proof.
  intros Hinv Hci Hoi Hei Hnp Hrest.
  pose proof (rest_mutex_free s Hinv Hnp Hrest) as Hmu.
  assert (Hclosed : ∀ k, (k < length (st_chans s))%nat → closed s k).
  { intros k. by apply rest_all_closed. }
  split_and!; [| |done].
  - apply Forall_lookup. intros i th Hi.
    pose proof (rest_waits s i th Hinv Hnp Hmu Hi (Hrest i)) as Hw.
    destruct th as [script|fid pc rest|pc rest|fid c pc|fid pc]; simpl in Hw.
    + by subst script.
    + destruct Hw as (-> & f & Hf & Hne).
      by rewrite (rest_no_encode_pending s fid f Hinv Hci Hnp Hmu Hrest Hf) in Hne.
    + destruct Hw as (tok & -> & Hopen). destruct Hopen. apply Hclosed.
      by apply (ei_sync s Hei i _ tok Hi).
    + destruct Hw as [Hfin|(b & f & x & -> & Hf & Hx & Hopen)].
      * by destruct pc.
      * destruct Hopen. apply Hclosed.
        destruct (Forall_lookup_1 _ _ _ _ (bi_frames s Hinv) Hf) as (Hready & _).
        by apply Hready.
    + destruct Hw as [->|[-> (f & Hf & Hne)]]; [done|].
      destruct (rest_pending_write_waits s fid f Hinv Hci Hnp Hmu Hrest Hf Hne)
        as (x & Hx & Hopen).
      destruct Hopen. apply Hclosed.
      destruct (Forall_lookup_1 _ _ _ _ (bi_frames s Hinv) Hf) as (Hready & _).
      by apply Hready.
  - apply Forall_lookup. intros k b Hk.
    pose proof (Hclosed k (lookup_lt_Some _ _ _ Hk)) as Hc. unfold closed in Hc. congruence.
Qed.

(** The engine does not come to rest before its work is done: in a state in
    which the process has not panicked and no thread can take a step, every
    caller is through its script, every goroutine has returned, and every
    channel is closed.  So no [Log] and no [Sync] waits for ever on another
    thread. *)
Theorem engine_rests_only_when_done (scripts : list (list cmd)) (s : state) :
  Forall (Forall cmd_ok) scripts → reach scripts s →
  st_panicked s = false → at_rest s →
  Forall (λ th, ended th = true) (st_threads s) ∧
  Forall (λ b, b = true) (st_chans s) ∧
  st_mu s = false.
Proof.
  intros Hok Hreach Hnp Hrest.
  destruct (reach_order_inv _ _ Hok Hreach) as (Hinv & Hci & Hoi).
  destruct (reach_engine_inv _ _ Hreach) as (_ & _ & Hei).
  by apply rest_all_ended.
Qed.

(** ** Encodings that fail *)

Lemma fail_inv_step (a : action) (s s' : state) :
  basic_inv s → fail_inv s → act a s = Some s' → fail_inv s'.
Proof.
  intros Hinv Hold H j g cj pcj Hj Hfail. pose proof H as Hact.
  assert (Hkeep : ∀ fg0 tg, st_frames s !! g = Some fg0 → fr_t fg0 = Some tg →
                    encode cj fg0 tg = Ok None →
                    ∃ fg tg, st_frames s' !! g = Some fg ∧ fr_t fg = Some tg ∧
                             encode cj fg tg = Ok None).
  { intros fg0 tg Hg Ht Henc.
    destruct (step_frame_args a s s' g fg0 Hinv Hact Hg) as (f' & Hg' & Hargs & _ & Ht').
    exists f', tg. split_and!; [done|by apply Ht'|].
    by rewrite (encode_same_args cj fg0 f' tg Hargs). }
  assert (Hsame : ∀ j0 pc0, st_threads s !! j0 = Some (TCodec g cj pc0) → failed pc0 = true →
                    ∃ fg tg, st_frames s' !! g = Some fg ∧ fr_t fg = Some tg ∧
                             encode cj fg tg = Ok None).
  { intros j0 pc0 Hj0 Hf0. destruct (Hold _ _ _ _ Hj0 Hf0) as (fg0 & tg & Hg & Ht & Henc).
    by eapply Hkeep. }
  destruct a as [i|d]; simpl in H; [|simplify_eq; by eauto].
  step_cases H; thread_after Hth Hj; simplify_eq; try done; try by eauto.
  all: try (eapply (Hsame i); [done|]; done).
  eexists _, _. split_and!; [done|done|].
  match goal with
  | E : encode _ _ _ = Ok ?o |- _ => destruct o; [done|exact E]
  end.
Qed.

Lemma reach_fail_inv (scripts : list (list cmd)) (s : state) :
  reach scripts s → fail_inv s.
Proof.
  intros (now & schedule & H).
  apply (run_invariant (λ s, basic_inv s ∧ fail_inv s) _ _ _) in H as [_ H]; [done| |].
  - intros a s1 s2 [Hb Hf] Ha. split; [by eapply basic_inv_step|by eapply fail_inv_step].
  - split; [apply basic_inv_init|].
    intros i fid c pc Hi. simpl in Hi. apply list_lookup_fmap_Some in Hi as (? & ? & ?). done.
Qed.

Lemma encode_None_is_Marshal (c : Codec) (f : frame) (t : Time) :
  encode c f t = Ok None →
  ∃ w m, c = JSONCodec w ∧ mapData (fr_data f) = Ok m ∧ json_Marshal (schema_of t f m) = None.
Proof.
  destruct c as [w|w]; simpl; [done|]. unfold json_encode.
  destruct (mapData (fr_data f)) as [m|msg]; simpl; [|done].
  intros Henc. exists w, m. split_and!; [done|done|]. by simplify_eq.
Qed.

(** An encoding fails only in the JSON codec, and only when [json.Marshal]
    returns an error for the entry; the text codec's never does.  So with
    text codecs only, or with values that [json.Marshal] accepts, no encoding
    fails, and every writer has its entries in the order of the token swaps
    of their calls, whatever the schedule. *)
Theorem only_json_Marshal_fails (scripts : list (list cmd)) (s : state) :
  Forall (Forall cmd_ok) scripts → reach scripts s →
  (∀ i fid c pc, st_threads s !! i = Some (TCodec fid c pc) → failed pc = true →
     ∃ w f t m, c = JSONCodec w ∧ st_frames s !! fid = Some f ∧ fr_t f = Some t ∧
                mapData (fr_data f) = Ok m ∧ json_Marshal (schema_of t f m) = None) ∧
  ((∀ x, is_Some (json_Marshal x)) ∨
   (∀ i fid c pc, st_threads s !! i = Some (TCodec fid c pc) → ∃ w, c = TextCodec w) →
   no_encode_failed s ∧ ∀ w, StronglySorted entry_le (sink s w)).
Proof.
  intros Hok Hreach.
  pose proof (reach_fail_inv _ _ Hreach) as Hfail.
  assert (Hwhy : ∀ i fid c pc, st_threads s !! i = Some (TCodec fid c pc) → failed pc = true →
     ∃ w f t m, c = JSONCodec w ∧ st_frames s !! fid = Some f ∧ fr_t f = Some t ∧
                mapData (fr_data f) = Ok m ∧ json_Marshal (schema_of t f m) = None).
  { intros i fid c pc Hi Hf. destruct (Hfail _ _ _ _ Hi Hf) as (f & t & Hg & Ht & Henc).
    destruct (encode_None_is_Marshal c f t Henc) as (w & m & -> & Hm & Hnone).
    by exists w, f, t, m. }
  split; [done|]. intros Hcase.
  assert (no_encode_failed s) as Hnf.
  { intros i fid c pc Hi. destruct (failed pc) eqn:Hf; [|done].
    destruct (Hwhy _ _ _ _ Hi Hf) as (w & f & t & m & -> & _ & _ & _ & Hnone).
    destruct Hcase as [Htotal|Htext].
    - destruct (Htotal (schema_of t f m)) as [? Hsome]. congruence.
    - by destruct (Htext _ _ _ _ Hi) as [? ?]. }
  split; [done|].
  destruct (reach_order_inv _ _ Hok Hreach) as (Hinv & Hci & Hoi).
  pose proof (reach_stamps_ordered _ _ Hreach) as Hst.
  intros w. apply (StronglySorted_impl_elem gate_le); [|by apply oi_sorted].
  intros e1 e2. by apply gate_le_entry_le.
Qed.

(** ** Every run ends *)

Lemma cost_same_loggers (F F' : list frame) (th : thread) :
  (∀ g, thread_frame th = Some g → loggers_at F' g = loggers_at F g) →
  cost F' th = cost F th.
Proof.
  intros H. destruct th as [|fid pc rest| | |]; simpl; try done.
  by rewrite (H fid eq_refl).
Qed.

Lemma loggers_at_step (a : action) (s s' : state) (g : nat) :
  basic_inv s → act a s = Some s' → is_Some (st_frames s !! g) →
  loggers_at (st_frames s') g = loggers_at (st_frames s) g.
Proof.
  intros Hinv H [f Hg].
  destruct (step_frame_grows a s s' g f Hinv H Hg) as (f' & Hg' & Hl & _).
  unfold loggers_at. rewrite Hg, Hg'. simpl. by rewrite Hl.
Qed.

Lemma cost_step (a : action) (s s' : state) (j : nat) (th : thread) :
  basic_inv s → act a s = Some s' → st_threads s !! j = Some th →
  cost (st_frames s') th = cost (st_frames s) th.
Proof.
  intros Hinv H Hj. apply cost_same_loggers. intros g Hg.
  apply (loggers_at_step a s s' g Hinv H).
  pose proof (Forall_lookup_1 _ _ _ _ (bi_threads s Hinv) Hj) as Hok.
  destruct th as [|fid pc rest| |fid c pc|fid pc]; simpl in *; simplify_eq;
    destruct Hok as (f & Hf & _); eauto.
Qed.

Lemma steps_left_after (a : action) (s s' : state) (i : nat) (th y : thread)
    (news : list thread) :
  basic_inv s → act a s = Some s' → st_threads s !! i = Some th →
  st_threads s' = <[i := y]> (st_threads s ++ news) →
  (cost (st_frames s') y + sum_list_with (cost (st_frames s')) news
   < cost (st_frames s) th)%nat →
  (steps_left s' < steps_left s)%nat.
Proof.
  intros Hinv H Hi Heq Hlt. unfold steps_left. rewrite Heq.
  assert (sum_list_with (cost (st_frames s')) (st_threads s) =
          sum_list_with (cost (st_frames s)) (st_threads s)) as Hold.
  { apply sum_list_with_ext_lookup. intros j x Hj. by eapply cost_step. }
  pose proof (sum_list_with_insert (cost (st_frames s')) (st_threads s ++ news) i th y
                (lookup_app_l_Some _ _ _ _ Hi)) as Hins.
  rewrite sum_list_with_app, Hold in Hins.
  rewrite (cost_step a s s' i th Hinv H Hi) in Hins. lia.
Qed.

Lemma loggers_at_insert (F : list frame) (fid : nat) (f f' : frame) :
  F !! fid = Some f → fr_loggers f' = fr_loggers f →
  loggers_at (<[fid := f']> F) fid = length (fr_loggers f).
Proof.
  intros Hf Hl. unfold loggers_at.
  rewrite list_lookup_insert_eq by (by eapply lookup_lt_Some). simpl. by rewrite Hl.
Qed.

Lemma loggers_at_lookup (F : list frame) (fid : nat) (f : frame) :
  F !! fid = Some f → loggers_at F fid = length (fr_loggers f).
Proof. intros Hf. unfold loggers_at. by rewrite Hf. Qed.

(** A step that does not panic takes one of the steps that are left. *)
Lemma step_steps_left (i : nat) (s s' : state) :
  basic_inv s → exec i s = Some s' → st_panicked s' = false →
  (steps_left s' < steps_left s)%nat.
Proof.
  intros Hinv H Hnp. pose proof H as Hact.
  change (act (Run i) s = Some s') in Hact.
  step_cases H; simpl in Hnp; try done.
  all: first
    [ eapply (steps_left_after (Run i) s _ i _ _ [_] Hinv Hact Hth); [reflexivity|]
    | eapply (steps_left_after (Run i) s _ i _ _ [] Hinv Hact Hth);
      [simpl; by rewrite app_nil_r|] ].
  all: simpl; unfold script_cost; simpl;
    rewrite ?(loggers_at_lookup _ _ _ Hf);
    rewrite ?(loggers_at_insert _ _ _ _ Hf) by done;
    try (unfold loggers_at; rewrite lookup_app_r, Nat.sub_diag by done; simpl);
    unfold spawn_cost; simpl; try rewrite Heqo; simpl; lia.
Qed.

Lemma reach_step (scripts : list (list cmd)) (s s' : state) (a : action) :
  reach scripts s → act a s = Some s' → reach scripts s'.
Proof.
  intros (now & schedule & H) Ha. exists now, (schedule ++ [a]).
  rewrite run_app, H. simpl. by rewrite Ha.
Qed.

Lemma reach_run (scripts : list (list cmd)) (schedule : list action) (s s' : state) :
  reach scripts s → run s schedule = Some s' → reach scripts s'.
Proof.
  revert s. induction schedule as [|a schedule IH]; intros s Hreach H; simpl in H.
  - by simplify_eq.
  - destruct (act a s) as [s1|] eqn:Ha; [|done]. simpl in H.
    eapply IH; [|done]. by eapply reach_step.
Qed.

Lemma exec_beyond (s : state) (i : nat) :
  (length (st_threads s) ≤ i)%nat → exec i s = None.
Proof.
  intros Hi. unfold exec. destruct (st_panicked s); [done|].
  by rewrite lookup_ge_None_2.
Qed.

Lemma rest_or_step (s : state) : at_rest s ∨ ∃ i s', exec i s = Some s'.
Proof.
  assert (∀ n, (∀ i, (i < n)%nat → exec i s = None) ∨ ∃ i s', exec i s = Some s') as H.
  { induction n as [|n [IH|IH]]; [left; lia| |by right].
    destruct (exec n s) as [s'|] eqn:Hn; [right; eauto|].
    left. intros i Hi. destruct (decide (i = n)) as [->|]; [done|]. apply IH. lia. }
  destruct (H (length (st_threads s))) as [Hnone|]; [|by right].
  left. intros i. destruct (decide (i < length (st_threads s))%nat); [by apply Hnone|].
  apply exec_beyond. lia.
Qed.

Lemma run_bounded (scripts : list (list cmd)) (schedule : list action) (s s' : state) :
  Forall (Forall cmd_ok) scripts → Forall (Forall cmd_data_ok) scripts →
  reach scripts s → Forall is_Run schedule → run s schedule = Some s' →
  (length schedule + steps_left s' ≤ steps_left s)%nat.
Proof.
  intros Hok Hdata. revert s.
  induction schedule as [|a schedule IH]; intros s Hreach Hruns H; simpl in H.
  - simplify_eq. simpl. lia.
  - apply Forall_cons in Hruns as [Ha Hruns].
    destruct a as [i|d]; [|done]. simpl in H.
    destruct (exec i s) as [s1|] eqn:Hi; [|done]. simpl in H.
    pose proof (reach_step scripts s s1 (Run i) Hreach Hi) as Hreach1.
    destruct (reach_safe scripts s Hok Hdata Hreach) as [(Hinv & _) _].
    destruct (reach_safe scripts s1 Hok Hdata Hreach1) as [_ Hnp1].
    pose proof (step_steps_left i s s1 Hinv Hi Hnp1).
    specialize (IH s1 Hreach1 Hruns H). simpl. lia.
Qed.

Lemma run_to_rest (scripts : list (list cmd)) (n : nat) (s : state) :
  Forall (Forall cmd_ok) scripts → Forall (Forall cmd_data_ok) scripts →
  reach scripts s → (steps_left s ≤ n)%nat →
  ∃ schedule s', Forall is_Run schedule ∧ run s schedule = Some s' ∧ at_rest s'.
Proof.
  intros Hok Hdata. revert s.
  induction n as [|n IH]; intros s Hreach Hn.
  - destruct (rest_or_step s) as [Hrest|(i & s1 & Hi)]; [by exists [], s|].
    pose proof (reach_step scripts s s1 (Run i) Hreach Hi) as Hreach1.
    destruct (reach_safe scripts s Hok Hdata Hreach) as [(Hinv & _) _].
    destruct (reach_safe scripts s1 Hok Hdata Hreach1) as [_ Hnp1].
    pose proof (step_steps_left i s s1 Hinv Hi Hnp1). lia.
  - destruct (rest_or_step s) as [Hrest|(i & s1 & Hi)]; [by exists [], s|].
    pose proof (reach_step scripts s s1 (Run i) Hreach Hi) as Hreach1.
    destruct (reach_safe scripts s Hok Hdata Hreach) as [(Hinv & _) _].
    destruct (reach_safe scripts s1 Hok Hdata Hreach1) as [_ Hnp1].
    pose proof (step_steps_left i s s1 Hinv Hi Hnp1).
    destruct (IH s1 Hreach1 ltac:(lia)) as (schedule & s' & Hruns & Hrun & Hrest).
    exists (Run i :: schedule), s'. split_and!; [by constructor| |done].
    simpl. by rewrite Hi.
Qed.

(** With contexts that [WithLogger] has made and data that the constructors
    have made, every run of the engine ends: from any state, the threads take
    no more steps than [steps_left] counts, however they are scheduled, and
    some schedule, as any that goes on while a thread can take a step, brings
    every caller to the end of its script, with every goroutine returned,
    every channel closed and no panic.  So every call of [Log] and of [Sync]
    returns. *)
Theorem every_run_ends (scripts : list (list cmd)) (s : state) :
  Forall (Forall cmd_ok) scripts → Forall (Forall cmd_data_ok) scripts →
  reach scripts s →
  (∀ schedule s', Forall is_Run schedule → run s schedule = Some s' →
     (length schedule + steps_left s' ≤ steps_left s)%nat) ∧
  (∀ schedule s', run s schedule = Some s' → at_rest s' →
     Forall (λ th, ended th = true) (st_threads s') ∧
     Forall (λ b, b = true) (st_chans s') ∧ st_panicked s' = false) ∧
  ∃ schedule s', Forall is_Run schedule ∧ run s schedule = Some s' ∧ at_rest s'.
Proof.
  intros Hok Hdata Hreach. split_and!.
  - intros schedule s'. by apply (run_bounded scripts).
  - intros schedule s' Hrun Hrest.
    pose proof (reach_run scripts schedule s s' Hreach Hrun) as Hreach'.
    destruct (reach_safe scripts s' Hok Hdata Hreach') as [(Hinv & Hci & Hoi & _) Hnp].
    destruct (reach_engine_inv _ _ Hreach') as (_ & _ & Hei).
    destruct (rest_all_ended s' Hinv Hci Hoi Hei Hnp Hrest) as (Hended & Hchans & _).
    done.
  - by apply (run_to_rest scripts (steps_left s)).
Qed.
End Mill.

(** * Part III: executions

    The model applied to values: a process in UTC whose [json.Marshal] fails,
    as the one of [encoding/json] does, on a float that is not finite. *)

Definition kind_name (t : ValueType) : string := pretty t.
Definition show_float (f : float64) : string := pretty (Float64bits f).
Definition show_any (v : option nat) : string :=
  match v with
  | None => "<nil>"
  | Some n => pretty n
  end.
Definition no_Stringer (v : nat) : option string := None.
Definition utc (unix : Z) : Z := 0.
Definition doubling (c : nat) : nat := pred c.

Definition unsupported (v : boxed nat) : bool :=
  match v with
  | BFloat64 _ f => bool_decide (f_exponent f = 2047)
  | _ => false
  end.

Definition marshal (x : jsonSchema nat) : option string :=
  if existsb unsupported (map_to_list (js_Data nat x)).*2 then None
  else Some ("{" +:+ js_Message nat x +:+ "}").

Definition NaN : float64 := {| f_sign := false; f_exponent := 2047; f_fraction := 2 ^ 51 |}.

Definition go (s : state nat) (schedule : list action) : option (state nat) :=
  run nat show_float show_any no_Stringer utc marshal s schedule.

Definition reachable (scripts : list (list (cmd nat))) (s : state nat) : Prop :=
  reach nat show_float show_any no_Stringer utc marshal scripts s.

Definition times (n : nat) (i : nat) : list action := replicate n (Run i).

Definition text_ctx : LogCtx := {| lc_loggers := Some [TextCodec 1]; lc_tags := None |}.
Definition json_ctx : LogCtx := {| lc_loggers := Some [JSONCodec 2]; lc_tags := None |}.
Definition other_text_ctx : LogCtx :=
  {| lc_loggers := Some [TextCodec 1]; lc_tags := Some [{| Key := "b"; Value := "" |}] |}.
Definition no_ctx : LogCtx := {| lc_loggers := None; lc_tags := None |}.

Definition start : Z := 1700000000000000000.

(** The state after a schedule, or the first one if the schedule cannot run. *)
Definition after (scripts : list (list (cmd nat))) (schedule : list action) : state nat :=
  default (init nat start scripts) (go (init nat start scripts) schedule).

Definition frame_at (s : state nat) (g : nat) : frame nat :=
  default (mkFrame nat [] [] "" [] None None None 0 0) (st_frames nat s !! g).

Definition not_failed (th : thread nat) : bool :=
  match th with
  | TCodec _ _ _ pc => negb (failed pc)
  | _ => true
  end.

(** The last second of daylight saving time in New York in 2023, the second
    after it, and what that second would be without the change. *)
Definition before_change : Time := mkTime 1699163999 0 (-14400).
Definition after_change : Time := mkTime 1699164000 0 (-18000).
Definition a_second_later : Time := mkTime 1699164000 0 (-14400).

Definition no_store : Store nat := {| codec_arrays := []; tag_arrays := []; debug_cells := [] |}.

(** Three tags, one after the other: the last context has room for a fourth
    in its array. *)
Definition family : Store nat * list Context :=
  run_attaches nat 0%nat doubling false no_store [Background]
    [AttachTag nat 0 "a"; AttachTag nat 1 "b"; AttachTag nat 2 "c"].

Definition parent : Context := default Background (family.2 !! 3%nat).

(** A call on a context without loggers. *)
Definition quiet_scripts : list (list (cmd nat)) := [[CLog nat no_ctx "unheard" []]].

(** One call and [Sync]. *)
Definition one_scripts : list (list (cmd nat)) := [[CLog nat text_ctx "first" []; CSync nat]].

(** The caller at [time.Now()], holding the mutex. *)
Definition at_Now : state nat := after one_scripts (times 5 0).

(** The caller at [encodesDone.Wait()], its codec's goroutine not yet run. *)
Definition at_Wait : state nat := after one_scripts (times 10 0).

(** Two callers with two contexts on one writer. *)
Definition shared_scripts : list (list (cmd nat)) :=
  [[CLog nat text_ctx "one" []; CSync nat]; [CLog nat other_text_ctx "two" []]].

(** Each caller makes its call, the second one five microseconds later; each
    goroutine encodes and writes; then the first caller is at the receive of
    [Sync]. *)
Definition shared_schedule : list action :=
  times 10 0 ++ times 2 2 ++ [Run 0] ++ [Tick 5000] ++
  times 10 1 ++ times 2 4 ++ [Run 1] ++
  times 3 2 ++ times 2 3 ++ times 3 4 ++ times 2 5 ++ times 4 0.

Definition at_Sync : state nat := after shared_scripts shared_schedule.
Definition past_Sync : state nat := after shared_scripts (shared_schedule ++ [Run 0]).

(** A call whose only encoding fails, and [Sync]. *)
Definition lost_scripts : list (list (cmd nat)) :=
  [[CLog nat json_ctx "m" [Float64 nat "x" NaN]; CSync nat]].

Definition lost_schedule : list action := times 10 0 ++ times 3 1 ++ times 2 2 ++ times 5 0.

(** A call whose only encoding fails, between two calls on one writer. *)
Definition chain_scripts : list (list (cmd nat)) :=
  [[CLog nat text_ctx "first" []; CLog nat json_ctx "bad" [Float64 nat "x" NaN];
    CSync nat; CLog nat text_ctx "third" []]].

(** The first call's goroutine encodes and is then not scheduled; the second
    call's encoding fails and its watcher closes the call's channel; [Sync]
    returns. *)
Definition early_schedule : list action :=
  times 10 0 ++ times 2 1 ++ [Run 0] ++ [Tick 5000] ++
  times 10 0 ++ times 3 3 ++ times 2 4 ++ [Run 0] ++ times 5 0.

(** The third call is made and written, and then the first one is. *)
Definition late_schedule : list action :=
  early_schedule ++ [Tick 5000] ++ times 10 0 ++ times 5 5 ++ [Run 0] ++ times 3 1.

Definition first_entry : entry :=
  mkEntry 0 0 (mkTime 1700000000 0 0) ("2023-11-14 22:13:20.000000+0000 [] first" +:+ newline).
Definition third_entry : entry :=
  mkEntry 2 2 (mkTime 1700000000 10000 0)
    ("2023-11-14 22:13:20.000010+0000 [] third" +:+ newline).

(** A context with one logger, and with it a [debugValue]. *)
Definition logged : Store nat * Context := WithLogger nat 0%nat doubling false no_store Background 7%nat.

(** A call of the JSON codec with the zero [Data], up to the go statement. *)
Definition zero_scripts : list (list (cmd nat)) :=
  [[CLog nat json_ctx "m" [Data_zero nat]]].

Definition at_zero_Data : state nat := after zero_scripts (times 9 0).

Definition second_entry : entry :=
  mkEntry 1 1 (mkTime 1700000000 5000 0)
    ("2023-11-14 22:13:20.000005+0000 [b] two" +:+ newline).

(** ** What the executions show *)

Lemma reachable_after (scripts : list (list (cmd nat))) (schedule : list action) :
  is_Some (go (init nat start scripts) schedule) → reachable scripts (after scripts schedule).
Proof.
  intros [s Hs]. exists start, schedule. unfold after. fold (go (init nat start scripts) schedule).
  by rewrite Hs.
Qed.

Lemma no_encode_failed_forallb (s : state nat) :
  forallb not_failed (st_threads nat s) = true → no_encode_failed nat s.
Proof.
  intros H j fid c pc. revert j.
  induction (st_threads nat s) as [|th l IH]; intros [|j] Hj; simpl in Hj; simplify_eq;
    simpl in H; apply andb_prop in H as [H1 H2].
  - by destruct (failed pc).
  - by eapply IH.
Qed.

(** *** Typed values *)

Lemma constructor_accessor_round_trip_witness :
  is_int64 (-5) ∧ is_uint64 (2 ^ 64 - 1) ∧ is_float64 NaN ∧
  Data_Int64 nat kind_name (Int64 nat "n" (-5)) = Ok (-5) ∧
  Data_Float64 nat kind_name (Float64 nat "x" NaN) = Ok NaN.
Proof.
  assert (is_int64 (-5)) as Hi by (unfold is_int64, two63; lia).
  assert (is_uint64 (2 ^ 64 - 1)) as Hu by (unfold is_uint64, two64; lia).
  assert (is_float64 NaN) as Hf by (unfold is_float64; simpl; lia).
  pose proof (constructor_accessor_round_trip nat kind_name "n" "s" (-5) (2 ^ 64 - 1) NaN
                Hi Hu Hf) as (_ & Hint & _ & Hfloat & _).
  split_and!; [done|done|done| |]. 
  - exact Hint.
  - exact Hfloat.
Defined.

(** *** The layout of the timestamps *)

Lemma in_layout_range_before_change : in_layout_range before_change.
Proof. unfold in_layout_range. vm_compute. intuition discriminate. Qed.

Lemma in_layout_range_after_change : in_layout_range after_change.
Proof. unfold in_layout_range. vm_compute. intuition discriminate. Qed.

Lemma TimeFormat_offset_change :
  in_layout_range before_change ∧ in_layout_range after_change ∧
  Format before_change TimeFormat = "2023-11-05 01:59:59.000000-0400" ∧
  Format after_change TimeFormat = "2023-11-05 01:00:00.000000-0500" ∧
  instant before_change < instant after_change ∧
  ¬ layout_follows_time before_change after_change.
Proof.
  split_and!.
  - apply in_layout_range_before_change.
  - apply in_layout_range_after_change.
  - vm_compute. reflexivity.
  - vm_compute. reflexivity.
  - vm_compute. reflexivity.
  - intros H. apply H; vm_compute; [discriminate|reflexivity].
Qed.

Lemma TimeFormat_orders_same_offset_witness :
  in_layout_range before_change ∧ in_layout_range a_second_later ∧
  bytes_Compare (Format before_change TimeFormat) (Format a_second_later TimeFormat) = Lt.
Proof.
  assert (in_layout_range a_second_later) as Hb
    by (unfold in_layout_range; vm_compute; intuition discriminate).
  pose proof (TimeFormat_orders_same_offset before_change a_second_later
                in_layout_range_before_change Hb eq_refl) as (Hc & _).
  split_and!; [apply in_layout_range_before_change|done|].
  rewrite Hc. vm_compute. reflexivity.
Defined.

(** *** Contexts *)

Lemma attach_appends_and_keeps_parent_witness :
  ctx_wf nat family.1 parent ∧
  Key <$> tags_of nat (WithLogTag nat doubling family.1 parent "x").1 parent = ["a"; "b"; "c"] ∧
  Key <$> tags_of nat (WithLogTag nat doubling family.1 parent "x").1
            (WithLogTag nat doubling family.1 parent "x").2 = ["a"; "b"; "c"; "x"].
Proof.
  assert (ctx_wf nat family.1 parent) as Hwf.
  { split; [exact I|]. vm_compute. eexists. split_and!; [reflexivity|reflexivity|lia]. }
  pose proof (attach_appends_and_keeps_parent nat 0%nat doubling false family.1 parent Hwf)
    as (_ & Htag & _).
  destruct (Htag "x") as (_ & Hnew & _ & Hold & _).
  split_and!; [done| |].
  - rewrite Hold. vm_compute. reflexivity.
  - rewrite Hnew. vm_compute. reflexivity.
Defined.

(** *** Calls *)

Lemma Log_without_loggers_is_noop_witness :
  ∃ s', exec nat show_float show_any no_Stringer utc marshal 0 (init nat start quiet_scripts) = Some s' ∧
        st_threads nat s' = [TCaller nat []] ∧ st_chans nat s' = [true] ∧ st_frames nat s' = [].
Proof.
  destruct (Log_without_loggers_is_noop nat show_float show_any no_Stringer utc marshal
              (init nat start quiet_scripts) 0 no_ctx "unheard" [] [] eq_refl eq_refl eq_refl)
    as (s' & Hexec & Hthreads & _ & _ & _ & _ & Hchans & Hframes & _).
  exists s'. split_and!; done.
Defined.

Lemma timestamp_taken_in_critical_section_witness :
  reachable one_scripts at_Now ∧
  st_threads nat at_Now !! 0%nat = Some (TLog nat 0 PNow [CSync nat]) ∧
  st_mu nat at_Now = true ∧ stamps_ordered nat at_Now.
Proof.
  assert (reachable one_scripts at_Now) as Hreach by (apply reachable_after; vm_compute; eauto).
  pose proof (timestamp_taken_in_critical_section nat show_float show_any no_Stringer utc marshal
                one_scripts at_Now Hreach) as (Hnow & _ & Hstamps).
  assert (st_threads nat at_Now !! 0%nat = Some (TLog nat 0 PNow [CSync nat])) as Hth
    by (vm_compute; reflexivity).
  destruct (Hnow _ _ _ Hth) as (Hmu & _).
  split_and!; done.
Defined.

Lemma Log_returns_after_encodeDone_witness :
  reachable one_scripts at_Wait ∧
  st_threads nat at_Wait !! 0%nat = Some (TLog nat 0 PWait [CSync nat]) ∧
  ¬ is_Some (exec nat show_float show_any no_Stringer utc marshal 0 at_Wait).
Proof.
  assert (reachable one_scripts at_Wait) as Hreach by (apply reachable_after; vm_compute; eauto).
  assert (st_threads nat at_Wait !! 0%nat = Some (TLog nat 0 PWait [CSync nat])) as Hth
    by (vm_compute; reflexivity).
  assert (st_frames nat at_Wait !! 0%nat = Some (frame_at at_Wait 0)) as Hf by (vm_compute; reflexivity).
  pose proof (Log_returns_after_encodeDone nat show_float show_any no_Stringer utc marshal
                one_scripts at_Wait 0 0 [CSync nat] (frame_at at_Wait 0) Hreach Hth Hf) as (_ & Hret & _).
  split_and!; [done|done|].
  intros Hsome. apply Hret in Hsome as [_ Hdone].
  specialize (Hdone 1%nat (TextCodec 1) CEncode). discriminate Hdone. vm_compute. reflexivity.
Defined.

Lemma Sync_returns_after_ordered_writes_witness :
  Forall (Forall (cmd_ok nat)) shared_scripts ∧ reachable shared_scripts at_Sync ∧
  no_encode_failed nat at_Sync ∧
  en_call <$> sink nat at_Sync 1 = [0; 1]%nat ∧
  StronglySorted entry_le (sink nat at_Sync 1) ∧
  fully_written nat past_Sync 1
    (frame_at past_Sync 1).
Proof.
  assert (Forall (Forall (cmd_ok nat)) shared_scripts) as Hok
    by (repeat constructor; discriminate).
  assert (reachable shared_scripts at_Sync) as Hreach
    by (apply reachable_after; vm_compute; eauto).
  assert (no_encode_failed nat at_Sync) as Hnf
    by (apply no_encode_failed_forallb; vm_compute; reflexivity).
  pose proof (Sync_returns_after_ordered_writes nat show_float show_any no_Stringer utc marshal
                shared_scripts at_Sync Hok Hreach Hnf) as (Hsorted & Hsync).
  destruct (Hsync 0%nat 2%nat [] past_Sync)
    as (_ & Hall); [vm_compute; reflexivity|vm_compute; reflexivity|].
  split_and!; [done|done|done|vm_compute; reflexivity|apply Hsorted|].
  apply Hall; [vm_compute; reflexivity|]. exists 2%nat. split; [vm_compute; reflexivity|lia].
Defined.

Lemma Sync_returns_without_failed_entry :
  ¬ Sync_waits_for_writes nat show_float show_any no_Stringer utc marshal lost_scripts.
Proof.
  intros H.
  specialize (H (after lost_scripts lost_schedule) 0%nat 1%nat []
                (after lost_scripts (lost_schedule ++ [Run 0]))).
  specialize (H ltac:(apply reachable_after; vm_compute; eauto)
                ltac:(vm_compute; reflexivity) ltac:(vm_compute; reflexivity)
                0%nat (frame_at (after lost_scripts lost_schedule) 0)
                ltac:(vm_compute; reflexivity)).
  specialize (H ltac:(exists 1%nat; split; [vm_compute; reflexivity|lia]) 2%nat).
  vm_compute in H. discriminate H.
Qed.

(** C9: a failed encoding of the JSON codec does not keep [Log] from
    returning and writes nothing, but it does break the chain: the goroutine
    returns without the receive from [writeReady], so the watcher of a call
    whose only encoding fails closes the call's channel while the channel
    before it is open.  Here [Sync] returns while the entry of the first call
    is encoded and unwritten, and the third call's entry, with the later
    timestamp, is in the writer before the first call's. *)
Theorem failed_encoding_opens_chain :
  reachable chain_scripts (after chain_scripts early_schedule) ∧
  st_threads nat (after chain_scripts early_schedule) !! 0%nat
    = Some (TCaller nat [CLog nat text_ctx "third" []]) ∧
  st_threads nat (after chain_scripts early_schedule) !! 1%nat
    = Some (TCodec nat 0 (TextCodec 1) (CWaitReady (en_bytes first_entry))) ∧
  st_threads nat (after chain_scripts early_schedule) !! 3%nat
    = Some (TCodec nat 1 (JSONCodec 2) (CFinished false)) ∧
  st_chans nat (after chain_scripts early_schedule) = [true; false; true] ∧
  sink nat (after chain_scripts early_schedule) 1 = [] ∧
  sink nat (after chain_scripts early_schedule) 2 = [] ∧
  reachable chain_scripts (after chain_scripts late_schedule) ∧
  sink nat (after chain_scripts late_schedule) 1 = [third_entry; first_entry] ∧
  ¬ StronglySorted gate_le (sink nat (after chain_scripts late_schedule) 1) ∧
  bytes_Compare (Format (en_time third_entry) TimeFormat)
                (Format (en_time first_entry) TimeFormat) = Gt.
Proof.
  assert (sink nat (after chain_scripts late_schedule) 1 = [third_entry; first_entry])
    as Hsink by (vm_compute; reflexivity).
  split_and!.
  - apply reachable_after. vm_compute. eauto.
  - vm_compute. reflexivity.
  - vm_compute. reflexivity.
  - vm_compute. reflexivity.
  - vm_compute. reflexivity.
  - vm_compute. reflexivity.
  - vm_compute. reflexivity.
  - apply reachable_after. vm_compute. eauto.
  - exact Hsink.
  - rewrite Hsink. intros [_ H]%StronglySorted_inv.
    apply Forall_cons in H as [H _]. unfold gate_le in H. simpl in H. lia.
  - vm_compute. reflexivity.
Qed.

(** *** Further properties *)

Lemma Value_of_constructed_witness :
  is_int64 (-5) ∧ is_float64 NaN ∧
  Data_Value nat no_Stringer (Int64 nat "n" (-5)) = Ok (BInt64 nat (-5)) ∧
  Data_Value nat no_Stringer (Float64 nat "x" NaN) = Ok (BFloat64 nat NaN).
Proof.
  assert (is_int64 (-5)) as Hi by (unfold is_int64, two63; lia).
  assert (is_float64 NaN) as Hf by (unfold is_float64; simpl; lia).
  pose proof (Value_of_constructed nat no_Stringer "n" "s" (-5) 7 NaN Hi Hf)
    as (_ & Hint & _ & Hfloat & _).
  split_and!; [done|done| |].
  - exact Hint.
  - pose proof (Value_of_constructed nat no_Stringer "x" "s" (-5) 7 NaN Hi Hf)
      as (_ & _ & _ & H & _). exact H.
Defined.

Lemma tag_pair_reads_as_single_tag_witness :
  "b" ≠ "" ∧ mapKV [{| Key := "a"; Value := "b" |}] = ["a=b"].
Proof.
  assert ("b" ≠ "") as Hv by discriminate.
  pose proof (tag_pair_reads_as_single_tag nat show_float show_any "a" "b" Hv) as (_ & H & _).
  split; [done|exact H].
Defined.

Lemma second_child_overwrites_first_witness :
  ctx_wf nat family.1 parent ∧
  Key <$> tags_of nat
            (WithLogTag nat doubling (WithLogTag nat doubling family.1 parent "x").1 parent "y").1
            (WithLogTag nat doubling family.1 parent "x").2 = ["a"; "b"; "c"; "y"].
Proof.
  assert (ctx_wf nat family.1 parent) as Hwf.
  { split; [exact I|]. vm_compute. eexists. split_and!; [reflexivity|reflexivity|lia]. }
  pose proof (second_child_overwrites_first nat 0%nat doubling false family.1 parent Hwf)
    as (Htags & _).
  destruct (Htags "x" "y") as (_ & _ & _ & H).
  split; [done|]. rewrite H. vm_compute. reflexivity.
Defined.

Lemma SetDebuggingEnabled_then_read_witness :
  debug_wf nat logged.1 logged.2 ∧
  debuggingEnabled nat false (SetDebuggingEnabled nat false logged.1 logged.2 true) logged.2
    = true.
Proof.
  assert (debug_wf nat logged.1 logged.2) as Hwf.
  { intros p Hp. vm_compute in Hp. injection Hp as <-. vm_compute. lia. }
  pose proof (SetDebuggingEnabled_then_read nat 0%nat doubling false logged.1 logged.2 true
                eq_refl Hwf) as (H & _).
  split; [done|]. apply H. vm_compute. eauto.
Defined.

Lemma derived_contexts_share_debugValue_witness :
  debug_wf nat logged.1 logged.2 ∧
  debuggingEnabled nat false
    (SetDebuggingEnabled nat false
       (WithLogger nat 0%nat doubling false logged.1 logged.2 8%nat).1
       (WithLogger nat 0%nat doubling false logged.1 logged.2 8%nat).2 true)
    logged.2 = true.
Proof.
  assert (debug_wf nat logged.1 logged.2) as Hwf.
  { intros p Hp. vm_compute in Hp. injection Hp as <-. vm_compute. lia. }
  pose proof (derived_contexts_share_debugValue nat 0%nat doubling false logged.1 logged.2
                eq_refl Hwf) as (_ & _ & H & _).
  split; [done|]. apply H. vm_compute. eauto.
Defined.

Lemma Debug_logs_when_enabled_witness :
  ctx_wf nat logged.1 logged.2 ∧
  is_Some (Debug nat doubling false true logged.1 logged.2) ∧
  ¬ is_Some (Debug nat doubling false false logged.1 logged.2).
Proof.
  assert (ctx_wf nat logged.1 logged.2) as Hwf.
  { split; [|exact I]. vm_compute. eexists. split_and!; [reflexivity|reflexivity|lia]. }
  pose proof (Debug_logs_when_enabled nat 0%nat doubling false true logged.1 logged.2 Hwf)
    as (Hon & _).
  pose proof (Debug_logs_when_enabled nat 0%nat doubling false false logged.1 logged.2 Hwf)
    as (Hoff & _).
  split_and!; [done| |].
  - apply Hon. split; [reflexivity|by left].
  - intros H. apply Hoff in H as [_ [H|H]]; [discriminate H|].
    vm_compute in H. discriminate H.
Defined.

Lemma mutex_is_exclusive_witness :
  reachable one_scripts at_Now ∧
  ∃ i th, st_threads nat at_Now !! i = Some th ∧ in_crit nat th = 1%nat.
Proof.
  assert (reachable one_scripts at_Now) as Hreach by (apply reachable_after; vm_compute; eauto).
  pose proof (mutex_is_exclusive nat show_float show_any no_Stringer utc marshal
                one_scripts at_Now Hreach) as (_ & Hmu).
  split; [done|]. apply Hmu. vm_compute. reflexivity.
Defined.

Lemma shared_scripts_ok : Forall (Forall (cmd_ok nat)) shared_scripts.
Proof. repeat constructor; discriminate. Qed.

Lemma reachable_at_Sync : reachable shared_scripts at_Sync.
Proof. apply reachable_after. vm_compute. eauto. Qed.

Lemma entries_are_encodings_of_their_calls_witness :
  Forall (Forall (cmd_ok nat)) shared_scripts ∧ reachable shared_scripts at_Sync ∧
  (sum_list_with (entry_of 1) (sink nat at_Sync 1) ≤ 1)%nat.
Proof.
  pose proof (entries_are_encodings_of_their_calls nat show_float show_any no_Stringer utc
                marshal shared_scripts at_Sync shared_scripts_ok reachable_at_Sync)
    as (_ & Hcount).
  split_and!; [apply shared_scripts_ok|apply reachable_at_Sync|].
  apply (Hcount 1%nat 1%nat (frame_at at_Sync 1)). vm_compute. reflexivity.
Defined.

Lemma calls_are_chained_witness :
  reachable shared_scripts at_Sync ∧
  fr_writeReady nat (frame_at at_Sync 1) = Some 1%nat.
Proof.
  pose proof (calls_are_chained nat show_float show_any no_Stringer utc marshal
                shared_scripts at_Sync reachable_at_Sync) as (_ & Hchain & _).
  split; [apply reachable_at_Sync|].
  apply (Hchain 1%nat (frame_at at_Sync 1) 2%nat); vm_compute; reflexivity.
Defined.

Lemma write_waits_for_previous_call_witness :
  Forall (Forall (cmd_ok nat)) shared_scripts ∧ reachable shared_scripts at_Sync ∧
  second_entry ∈ sink nat at_Sync 1 ∧
  ∃ j, st_threads nat at_Sync !! j = Some (TWatcher nat 0 WFinished).
Proof.
  assert (second_entry ∈ sink nat at_Sync 1) as Hin.
  { apply list_elem_of_lookup. exists 1%nat. vm_compute. reflexivity. }
  pose proof (write_waits_for_previous_call nat show_float show_any no_Stringer utc marshal
                shared_scripts at_Sync shared_scripts_ok reachable_at_Sync 1%nat second_entry
                Hin) as (_ & _ & Hprev).
  split_and!; [apply shared_scripts_ok|apply reachable_at_Sync|done|].
  apply (Hprev 0%nat (frame_at at_Sync 0)); vm_compute; reflexivity.
Defined.

Lemma engine_never_panics_witness :
  Forall (Forall (cmd_ok nat)) shared_scripts ∧
  Forall (Forall (cmd_data_ok nat)) shared_scripts ∧
  reachable shared_scripts at_Sync ∧ st_panicked nat at_Sync = false.
Proof.
  assert (Forall (Forall (cmd_data_ok nat)) shared_scripts) as Hdata
    by (repeat constructor).
  split_and!; [apply shared_scripts_ok|done|apply reachable_at_Sync|].
  exact (engine_never_panics nat show_float show_any no_Stringer utc marshal
           shared_scripts at_Sync shared_scripts_ok Hdata reachable_at_Sync).
Defined.

Lemma engine_rests_only_when_done_witness :
  Forall (Forall (cmd_ok nat)) shared_scripts ∧ reachable shared_scripts past_Sync ∧
  st_panicked nat past_Sync = false ∧
  at_rest nat show_float show_any no_Stringer utc marshal past_Sync ∧
  Forall (λ b, b = true) (st_chans nat past_Sync).
Proof.
  assert (reachable shared_scripts past_Sync) as Hreach
    by (apply reachable_after; vm_compute; eauto).
  assert (st_panicked nat past_Sync = false) as Hnp by (vm_compute; reflexivity).
  assert (at_rest nat show_float show_any no_Stringer utc marshal past_Sync) as Hrest.
  { intros i. do 6 (destruct i as [|i]; [vm_compute; reflexivity|]). vm_compute. reflexivity. }
  pose proof (engine_rests_only_when_done nat show_float show_any no_Stringer utc marshal
                shared_scripts past_Sync shared_scripts_ok Hreach Hnp Hrest) as (_ & H & _).
  split_and!; [apply shared_scripts_ok|done|done|done|exact H].
Defined.

Lemma invalid_datum_panics_in_JSON_codec_witness :
  st_threads nat at_zero_Data !! 1%nat = Some (TCodec nat 0 (JSONCodec 2) CEncode) ∧
  Exists (λ d, kind_in_range nat d = false) (fr_data nat (frame_at at_zero_Data 0)) ∧
  exec nat show_float show_any no_Stringer utc marshal 1 at_zero_Data =
    Some (panic nat at_zero_Data).
Proof.
  assert (Exists (λ d, kind_in_range nat d = false) (fr_data nat (frame_at at_zero_Data 0)))
    as Hex.
  { assert (fr_data nat (frame_at at_zero_Data 0) = [Data_zero nat]) as ->
      by (vm_compute; reflexivity).
    apply Exists_cons_hd. reflexivity. }
  assert (st_threads nat at_zero_Data !! 1%nat = Some (TCodec nat 0 (JSONCodec 2) CEncode))
    as Hth by (vm_compute; reflexivity).
  pose proof (invalid_datum_panics_in_JSON_codec nat show_float show_any no_Stringer utc marshal
                at_zero_Data 1 0 2 (frame_at at_zero_Data 0) (mkTime 1700000000 0 0)) as H.
  destruct H as (H & _); [vm_compute; reflexivity|exact Hth|vm_compute; reflexivity|
                          vm_compute; reflexivity|exact Hex|].
  split_and!; [done|done|exact H].
Defined.

Lemma only_json_Marshal_fails_witness :
  Forall (Forall (cmd_ok nat)) lost_scripts ∧
  reachable lost_scripts (after lost_scripts lost_schedule) ∧
  ∃ w f t m, JSONCodec 2 = JSONCodec w ∧
             st_frames nat (after lost_scripts lost_schedule) !! 0%nat = Some f ∧
             fr_t nat f = Some t ∧ mapData nat no_Stringer (fr_data nat f) = Ok m ∧
             marshal (schema_of nat t f m) = None.
Proof.
  assert (Forall (Forall (cmd_ok nat)) lost_scripts) as Hok
    by (repeat constructor; discriminate).
  assert (reachable lost_scripts (after lost_scripts lost_schedule)) as Hreach
    by (apply reachable_after; vm_compute; eauto).
  pose proof (only_json_Marshal_fails nat show_float show_any no_Stringer utc marshal
                lost_scripts (after lost_scripts lost_schedule) Hok Hreach) as (Hwhy & _).
  split_and!; [done|done|].
  apply (Hwhy 1%nat 0%nat (JSONCodec 2) (CFinished false)); vm_compute; reflexivity.
Defined.

Lemma every_run_ends_witness :
  Forall (Forall (cmd_ok nat)) shared_scripts ∧
  Forall (Forall (cmd_data_ok nat)) shared_scripts ∧
  reachable shared_scripts (init nat start shared_scripts) ∧
  steps_left nat (init nat start shared_scripts) = 41%nat ∧
  (length (shared_schedule ++ [Run 0]) ≤ 41 + 1)%nat ∧
  ∃ schedule s', Forall is_Run schedule ∧
    go (init nat start shared_scripts) schedule = Some s' ∧
    at_rest nat show_float show_any no_Stringer utc marshal s'.
Proof.
  assert (Forall (Forall (cmd_data_ok nat)) shared_scripts) as Hdata
    by (repeat constructor).
  assert (reachable shared_scripts (init nat start shared_scripts)) as Hreach
    by (exists start, []; reflexivity).
  pose proof (every_run_ends nat show_float show_any no_Stringer utc marshal shared_scripts
                (init nat start shared_scripts) shared_scripts_ok Hdata Hreach)
    as (_ & _ & Hends).
  split_and!; [apply shared_scripts_ok|done|done|vm_compute; reflexivity|
               vm_compute; lia|exact Hends].
Defined.
